(** * Graph Works: a shallow embedding of graph_works.cpp

    The development follows the source file function by function:
    [create_graph], [min_incident] and the Prim loop of [spanning_tree]
    on one side, [make_combinations], [make_graphs], [write_graph] and
    [triangle_number] on the other, then [graph_generation], which drives
    [make_graphs], and the menu ([valid_choice], [launch_menu]).

    Conventions.
    - A C++ [int] is a [Z]; loop counters and container sizes, which the
      code never lets go below zero, are [nat].  The one accumulation the
      input can push past 32 bits, [totalWeight], has its wrap-around
      written out ([wrap_int]).
    - A [vector] or a native array is a [list]; a read outside the array
      has no defined result in C++ and makes the run [OutOfBounds], except
      in [write_graph], which receives a bare pointer: there the words that
      follow the array are part of the model.
    - A loop whose number of turns is not known on entry takes fuel. *)

From Stdlib Require Import Ascii.
From stdpp Require Import base tactics option numbers sorting gmap list.

(** ** Outcome of a run *)

Inductive run (A : Type) : Type :=
| Done (a : A)
| OutOfBounds
| OutOfFuel.
Arguments Done {A} a.
Arguments OutOfBounds {A}.
Arguments OutOfFuel {A}.

#[global] Instance run_ret : MRet run := fun A a => Done a.
#[global] Instance run_bind : MBind run := fun A B f r =>
  match r with
  | Done a => f a
  | OutOfBounds => OutOfBounds
  | OutOfFuel => OutOfFuel
  end.

(** [a[i]] for a vector or an array of known extent. *)
Definition at_index {A} (a : list A) (i : nat) : run A :=
  match a !! i with
  | Some x => Done x
  | None => OutOfBounds
  end.

(** [for (i = from; i < from + count; i++) body] *)
Fixpoint for_range {St} (from count : nat) (body : nat → St → run St) (s : St) : run St :=
  match count with
  | O => Done s
  | S count' => s' ← body from s; for_range (S from) count' body s'
  end.

(** ** Integers *)

Definition INT_MAX : Z := 2147483647.
Definition INT_MIN : Z := -2147483648.

(** The values an [int] holds. *)
Definition is_int (z : Z) : Prop := (INT_MIN ≤ z ≤ INT_MAX)%Z.

(** Two's complement reduction of a mathematical integer to [int]. *)
Definition wrap_int (z : Z) : Z := (z + 2147483648) `mod` 4294967296 - 2147483648.

(** [vertexCount - 1] in [unsigned int] arithmetic. *)
Definition uint_pred (n : nat) : Z := (Z.of_nat n - 1) `mod` 4294967296.

(** ** class WeightedEdge *)

Record WeightedEdge : Type := mkWeightedEdge { getU : Z; getV : Z; getW : Z }.

#[global] Instance WeightedEdge_eq_dec : EqDecision WeightedEdge.
Proof. solve_decision. Defined.

(** ** create_graph *)

(** [inputFile >> k]: the next token of the stream.  A stream that has
    run dry leaves [k] unset, which the model reports as [OutOfBounds].
    The tokens stand for numerals that the variable read into can hold;
    what [>>] does with any other numeral depends on the language standard
    and is not modelled, so every property that says what a run returns
    asks for tokens in that range ([is_int]). *)
Definition read_int (inputFile : list Z) : run (Z * list Z) :=
  match inputFile with
  | [] => OutOfBounds
  | k :: rest => Done (k, rest)
  end.

(** Body of the inner loop: row [j], column [i]. *)
Definition create_cell (j i : nat) (st : list Z * list WeightedEdge)
  : run (list Z * list WeightedEdge) :=
  '(k, inputFile) ← read_int st.1;
  Done (inputFile,
        if bool_decide (j ≤ i ∧ k ≠ 0%Z)
        then st.2 ++ [mkWeightedEdge (Z.of_nat i) (Z.of_nat j) k]
        else st.2).

Definition create_row (vertexCount j : nat) (st : list Z * list WeightedEdge)
  : run (list Z * list WeightedEdge) :=
  for_range 0 vertexCount (create_cell j) st.

(** The result is the extended [G] and the [vertexCount] that was read, an
    [unsigned int]. *)
Definition create_graph (inputFile : list Z) (G : list WeightedEdge)
  : run (list WeightedEdge * nat) :=
  '(n, inputFile) ← read_int inputFile;
  if bool_decide (0 ≤ n < 4294967296)%Z then
    let vertexCount := Z.to_nat n in
    st ← for_range 0 vertexCount (create_row vertexCount) (inputFile, G);
    Done (st.2, vertexCount)
  else OutOfBounds.

(** ** min_incident *)

(** Inner loop over [vT]: the pair ([uMatch], [vMatch]). *)
Definition match_step (e : WeightedEdge) (m : bool * bool) (x : Z) : bool * bool :=
  (if bool_decide (getU e = x) then true else m.1,
   if bool_decide (getV e = x) then true else m.2).

Definition matches (e : WeightedEdge) (vT : list Z) : bool * bool :=
  foldl (match_step e) (false, false) vT.

(** State of the outer loop: [minIndex], [minWeight], [result_uMatch]. *)
Definition scan_step (vT : list Z) (st : nat * Z * bool) (i : nat) (e : WeightedEdge)
  : nat * Z * bool :=
  let '(uMatch, vMatch) := matches e vT in
  if bool_decide (Nat.b2n uMatch + Nat.b2n vMatch = 1) && bool_decide (getW e < st.1.2)%Z
  then (i, getW e, uMatch)
  else st.

Fixpoint scan_from (vT : list Z) (i : nat) (G : list WeightedEdge) (st : nat * Z * bool)
  : nat * Z * bool :=
  match G with
  | [] => st
  | e :: G' => scan_from vT (S i) G' (scan_step vT st i e)
  end.

Definition min_scan (G : list WeightedEdge) (vT : list Z) : nat * Z * bool :=
  scan_from vT 0 G (0, INT_MAX, false).

(** Returns [minIndex] and the extended [vT]. *)
Definition min_incident (G : list WeightedEdge) (vT : list Z) : run (nat * list Z) :=
  let '(minIndex, _, result_uMatch) := min_scan G vT in
  e ← at_index G minIndex;
  Done (minIndex, vT ++ [if result_uMatch then getV e else getU e]).

(** ** spanning_tree: the Prim loop *)

Record prim_state : Type := mkPrim
  { vT : list Z; T : list WeightedEdge; totalWeight : Z }.

(** One turn of the loop body: the call to [min_incident] and the two
    updates that follow it. *)
Definition prim_body (G : list WeightedEdge) (st : prim_state) : run prim_state :=
  '(min_incident_index, vT') ← min_incident G (vT st);
  e ← at_index G min_incident_index;
  Done (mkPrim vT' (T st ++ [e]) (wrap_int (totalWeight st + getW e))).

(** [do { ... } while (T.size() < vertexCount-1)] *)
Fixpoint prim_loop (fuel : nat) (G : list WeightedEdge) (vertexCount : nat)
  (st : prim_state) : run prim_state :=
  match fuel with
  | O => OutOfFuel
  | S fuel' =>
      st' ← prim_body G st;
      if bool_decide (Z.of_nat (length (T st')) < uint_pred vertexCount)%Z
      then prim_loop fuel' G vertexCount st'
      else Done st'
  end.

(** From the seeding of [vT] to the end of the loop, on a graph already
    built. *)
Definition prim (fuel : nat) (G : list WeightedEdge) (vertexCount : nat) : run prim_state :=
  e0 ← at_index G 0;
  prim_loop fuel G vertexCount (mkPrim [getU e0] [] 0).

Definition spanning_tree (fuel : nat) (inputFile : list Z) : run prim_state :=
  '(G, vertexCount) ← create_graph inputFile [];
  prim fuel G vertexCount.

(** ** triangle_number

    The code forms [k * (k+1)] in [int]; the product fits for [k] from
    -46341 to 46340, and on that range the definition is the code's.
    Every property that runs [write_graph] or [graph_generation] keeps the
    vertex count at or below 46341 for that reason. *)

Definition triangle_number (k : Z) : Z := (k * (k + 1)) `quot` 2.

(** ** What the generation side prints or writes *)

Inductive output : Type :=
| Permu (indices : list Z)              (* a line of [print_permu] *)
| Graph (ordinals : list Z) (VERTEX : Z) (* a call [write_graph(ordinals, VERTEX)] *)
| ErrorCount   (* "Error: combination count higher than or equal to input count." *)
| Complete (EDGE_COUNT VERTEX_COUNT : Z). (* "... edge permutations for ... vertices complete." *)

(** ** print_permu *)

Definition print_permu (indices : list Z) (count : Z) (out : list output) : list output :=
  if bool_decide (count = 0%Z) then out
  else out ++ [Permu (take (Z.to_nat count) indices)].

(** ** The loops shared by make_combinations and make_graphs

    The two functions run the same statements on their array; they differ
    in the test of the first [while] ([indices[k] != k] against
    [ordinals[k] > k]) and in what they do with each array ([print_permu]
    against [write_graph]).  Both are parameters here. *)

(** Initialisation for reverse colexicographical order. *)
Definition init_indices (input_count : Z) (combination_count : nat) : list Z :=
  foldl (fun indices i =>
           <[combination_count - 1 - i := (input_count - Z.of_nat i - 1)%Z]> indices)
        (replicate combination_count 0%Z) (seq 0 combination_count).

(** [while (away indices[k] k) { indices[k]--; emit }] *)
Fixpoint home_loop (away : Z → nat → bool) (emit : list Z → list output → list output)
  (fuel : nat) (indices : list Z) (k : nat) (out : list output)
  : run (list Z * list output) :=
  match fuel with
  | O => OutOfFuel
  | S fuel' =>
      x ← at_index indices k;
      if away x k then
        let indices' := <[k := (x - 1)%Z]> indices in
        home_loop away emit fuel' indices' k (emit indices' out)
      else Done (indices, out)
  end.

(** [do { k++; } while (indices[k] == k && k != count)] *)
Fixpoint next_k (fuel : nat) (indices : list Z) (count : Z) (k : nat) : run nat :=
  match fuel with
  | O => OutOfFuel
  | S fuel' =>
      let k' := S k in
      x ← at_index indices k';
      if bool_decide (x = Z.of_nat k') && bool_decide (Z.of_nat k' ≠ count)
      then next_k fuel' indices count k'
      else Done k'
  end.

(** [for (i = 0; i < k; i++) indices[i] = indices[k]-(k-i)] *)
Definition bring_up_children (indices : list Z) (k : nat) : run (list Z) :=
  for_range 0 k
    (fun i a => x ← at_index a k; Done (<[i := (x - (Z.of_nat k - Z.of_nat i))%Z]> a))
    indices.

(** The second half of the loop body: find the next [k] that is not home,
    move it back, bring up its children if it is not home yet, and hand
    the array to [emit]. *)
Definition advance (emit : list Z → list output → list output)
  (fuel : nat) (count : Z) (indices : list Z) (k : nat) (out : list output)
  : run (list Z * nat * list output) :=
  k ← next_k fuel indices count k;
  x ← at_index indices k;
  let indices := <[k := (x - 1)%Z]> indices in
  x ← at_index indices k;
  '(indices, k) ← (if bool_decide (x ≠ Z.of_nat k)
                   then a ← bring_up_children indices k; Done (a, 0)
                   else Done (indices, k));
  Done (indices, k, emit indices out).

(** The loop test [k != count-1 || indices[k] != k]. *)
Definition again (count : Z) (indices : list Z) (k : nat) : run bool :=
  if bool_decide (Z.of_nat k ≠ (count - 1)%Z) then Done true
  else x ← at_index indices k; Done (bool_decide (x ≠ Z.of_nat k)).

(** The [do ... while] loop; [if (count == 1) break] sits between the two
    halves of its body. *)
Fixpoint permutation_loop (away : Z → nat → bool)
  (emit : list Z → list output → list output)
  (fuel : nat) (count : Z) (indices : list Z) (k : nat) (out : list output)
  : run (list output) :=
  match fuel with
  | O => OutOfFuel
  | S fuel' =>
      '(indices, out) ← home_loop away emit fuel' indices k out;
      if bool_decide (count = 1%Z) then Done out
      else
        '(indices, k, out) ← advance emit fuel' count indices k out;
        b ← again count indices k;
        if b : bool then permutation_loop away emit fuel' count indices k out
        else Done out
  end.

(** ** make_combinations *)

Definition make_combinations (fuel : nat) (input_count combination_count : Z)
  : run (list output) :=
  if bool_decide (input_count ≤ combination_count)%Z then Done [ErrorCount]
  else
    let indices := init_indices input_count (Z.to_nat combination_count) in
    permutation_loop (fun x k => bool_decide (x ≠ Z.of_nat k))
      (fun a out => print_permu a combination_count out)
      fuel combination_count indices 0
      (print_permu indices combination_count []).

(** ** make_graphs *)

Definition make_graphs (fuel : nat) (VERTEX_COUNT EDGE_COUNT : Z) : run (list output) :=
  let maxEdgeCount := triangle_number (VERTEX_COUNT - 1) in
  if bool_decide (maxEdgeCount < EDGE_COUNT)%Z then Done [ErrorCount]
  else
    let ordinals := init_indices maxEdgeCount (Z.to_nat EDGE_COUNT) in
    let out := [Graph ordinals VERTEX_COUNT] in
    if bool_decide (maxEdgeCount = EDGE_COUNT) then Done out
    else
      out ← permutation_loop (fun x k => bool_decide (Z.of_nat k < x)%Z)
               (fun a out => out ++ [Graph a VERTEX_COUNT])
               fuel EDGE_COUNT ordinals 0 out;
      Done (out ++ [Complete EDGE_COUNT VERTEX_COUNT]).

(** ** write_graph

    [indices] arrives as a pointer, without its extent: the function reads
    whatever word lies at [indices + k].  The argument is therefore the
    memory seen through that pointer; [behind ordinals rest] is the view
    of an array [ordinals] followed by the words [rest 0], [rest 1], ... *)

Definition behind (ordinals : list Z) (rest : nat → Z) : nat → Z :=
  fun k => default (rest (k - length ordinals)) (ordinals !! k).

Record written : Type := mkWritten
  { reads : list nat;          (* the [k] of every read [indices[k]], in order *)
    edgeSet : list bool;
    adjMatrix : list (list Z);
    lines : list (list Z) }.   (* the matrix rows appended to the file *)

(** Body of [for (i = 0, k = 0; i < EDGES; i++)]; the state is
    ([k], [edgeSet], reads so far). *)
Definition edge_step (indices : nat → Z) (i : nat) (st : nat * list bool * list nat)
  : run (nat * list bool * list nat) :=
  let '(k, edgeSet, rd) := st in
  let hit := bool_decide (Z.of_nat i = indices k) in
  Done (if hit then S k else k, <[i := hit]> edgeSet, rd ++ [k]).

(** Body of the inner [for] of the writing loop, column [k], row [i]; the
    state is ([adjMatrix], [j], the line being written). *)
Definition cell_step (edgeSet : list bool) (k i : nat)
  (st : list (list Z) * nat * list Z) : run (list (list Z) * nat * list Z) :=
  let '(M, j, line) := st in
  '(M, j) ← (if bool_decide (k + 1 ≤ i)
             then b ← at_index edgeSet j;
                  Done (alter (<[i := Z.b2z b]>) k (alter (<[k := Z.b2z b]>) i M), S j)
             else Done (M, j));
  row ← at_index M i;
  x ← at_index row k;
  Done (M, j, line ++ [x]).

(** Body of the outer [for] of the writing loop; the state is
    ([adjMatrix], [j], the lines written). *)
Definition column_step (edgeSet : list bool) (VERTEX : nat) (k : nat)
  (st : list (list Z) * nat * list (list Z)) : run (list (list Z) * nat * list (list Z)) :=
  let '(M, j, ls) := st in
  '(M, j, line) ← for_range 0 VERTEX (cell_step edgeSet k) (M, j, []);
  Done (M, j, ls ++ [line]).

Definition write_graph (indices : nat → Z) (VERTEX : Z) : run written :=
  let EDGES := Z.to_nat (triangle_number (VERTEX - 1)) in
  let n := Z.to_nat VERTEX in
  '(_, edgeSet, rd) ← for_range 0 EDGES (edge_step indices) (0, replicate EDGES false, []);
  let M := replicate n (replicate n 0%Z) in
  '(M, _, ls) ← for_range 0 n (column_step edgeSet n) (M, 0, []);
  Done (mkWritten rd edgeSet M ls).

(** * Vocabulary of the properties *)

(** ** The input matrix *)

(** Entry at row [row], column [col] of the matrix that follows the vertex
    count in the input: the tokens come row after row. *)
Definition entry (vertexCount : nat) (cells : list Z) (row col : nat) : Z :=
  default 0%Z (cells !! (row * vertexCount + col)).

Definition symmetric_matrix (vertexCount : nat) (cells : list Z) : Prop :=
  ∀ r c, r < vertexCount → c < vertexCount →
         entry vertexCount cells r c = entry vertexCount cells c r.

(** The edges of the entries on or right of the diagonal, row after row. *)
Definition stored_cell (vertexCount : nat) (cells : list Z) (row col : nat)
  : list WeightedEdge :=
  if bool_decide (row ≤ col ∧ entry vertexCount cells row col ≠ 0%Z)
  then [mkWeightedEdge (Z.of_nat col) (Z.of_nat row) (entry vertexCount cells row col)]
  else [].

Definition stored_row (vertexCount : nat) (cells : list Z) (row : nat)
  : list WeightedEdge :=
  seq 0 vertexCount ≫= (stored_cell vertexCount cells row).

Definition stored (vertexCount : nat) (cells : list Z) : list WeightedEdge :=
  seq 0 vertexCount ≫= (stored_row vertexCount cells).

(** ** Undirected weighted graphs *)

Definition is_vertex (vertexCount : nat) (x : Z) : Prop :=
  (0 ≤ x < Z.of_nat vertexCount)%Z.

(** [e] is an edge between [x] and [y], whichever way it is stored. *)
Definition joins (e : WeightedEdge) (x y : Z) : Prop :=
  (getU e = x ∧ getV e = y) ∨ (getU e = y ∧ getV e = x).

Inductive walk (E : list WeightedEdge) : nat → Z → Z → Prop :=
| walk_here x : walk E 0 x x
| walk_step n e x y z : e ∈ E → joins e x y → walk E n y z → walk E (S n) x z.

Definition connected (E : list WeightedEdge) (x y : Z) : Prop := ∃ n, walk E n x y.

Definition connected_graph (vertexCount : nat) (E : list WeightedEdge) : Prop :=
  ∀ x y, is_vertex vertexCount x → is_vertex vertexCount y → connected E x y.

Definition weight (E : list WeightedEdge) : Z := foldr (fun e s => (getW e + s)%Z) 0%Z E.

Definition abs_weight (E : list WeightedEdge) : Z :=
  foldr (fun e s => (Z.abs (getW e) + s)%Z) 0%Z E.

(** A spanning tree of the graph [G] on the vertices [0 .. vertexCount-1]:
    [vertexCount - 1] distinct edges of [G] that connect all of them. *)
Definition spanning_tree_of (vertexCount : nat) (G S : list WeightedEdge) : Prop :=
  NoDup S ∧ S ⊆ G ∧ length S = vertexCount - 1 ∧ connected_graph vertexCount S.

Definition touches (E : list WeightedEdge) (x : Z) : Prop :=
  ∃ e, e ∈ E ∧ (getU e = x ∨ getV e = x).

(** An edge with exactly one endpoint in the frontier. *)
Definition boundary (vT : list Z) (e : WeightedEdge) : Prop :=
  (getU e ∈ vT ∧ ¬ getV e ∈ vT) ∨ (¬ getU e ∈ vT ∧ getV e ∈ vT).


(** [G] holds one edge for each non-zero entry of the half of the matrix
    picked by [half], and nothing else. *)
Definition from_entry (vertexCount : nat) (cells : list Z) (e : WeightedEdge)
  (row col : nat) : Prop :=
  joins e (Z.of_nat row) (Z.of_nat col) ∧ getW e = entry vertexCount cells row col.

Definition one_edge_per_entry (half : nat → nat → Prop) (vertexCount : nat)
  (cells : list Z) (G : list WeightedEdge) : Prop :=
  (∀ r c, r < vertexCount → c < vertexCount → half r c →
          entry vertexCount cells r c ≠ 0%Z →
          ∃ e, e ∈ G ∧ from_entry vertexCount cells e r c ∧
               ∀ e', e' ∈ G → joins e' (Z.of_nat r) (Z.of_nat c) → e' = e) ∧
  (∀ e, e ∈ G →
        ∃ r c, r < vertexCount ∧ c < vertexCount ∧ half r c ∧
               entry vertexCount cells r c ≠ 0%Z ∧ from_entry vertexCount cells e r c).


#[global] Instance boundary_dec vT e : Decision (boundary vT e).
Proof. unfold boundary. apply _. Defined.

(** What the scan has established once the edges [pre] are behind it. *)
Definition scanned (vT : list Z) (pre : list WeightedEdge) (st : nat * Z * bool) : Prop :=
  (∀ e, e ∈ pre → boundary vT e → (st.1.2 ≤ getW e)%Z) ∧
  ((st = (0, INT_MAX, false)) ∨
   (∃ e, pre !! st.1.1 = Some e ∧ boundary vT e ∧ getW e = st.1.2 ∧
         (st.1.2 < INT_MAX)%Z ∧ st.2 = bool_decide (getU e ∈ vT))).

(** The states in which the loop of [spanning_tree] calls [min_incident]:
    the seeded state, and every state the loop test sends round again. *)
Inductive prim_visits (G : list WeightedEdge) (vertexCount : nat) : prim_state → Prop :=
| visits_seed e0 :
    G !! 0 = Some e0 → prim_visits G vertexCount (mkPrim [getU e0] [] 0)
| visits_again st st' :
    prim_visits G vertexCount st →
    prim_body G st = Done st' →
    (Z.of_nat (length (T st')) < uint_pred vertexCount)%Z →
    prim_visits G vertexCount st'.

(** [T] can still be completed into a spanning tree at least as light as
    any given one. *)
Definition promising (vertexCount : nat) (G T : list WeightedEdge) : Prop :=
  ∀ S, spanning_tree_of vertexCount G S →
       ∃ S', spanning_tree_of vertexCount G S' ∧ T ⊆ S' ∧ (weight S' ≤ weight S)%Z.

(** What holds of the loop state each time the loop test is reached, on a
    graph [G] over the vertices [0 .. vertexCount-1]. *)
Definition prim_inv (G : list WeightedEdge) (vertexCount : nat) (st : prim_state) : Prop :=
  NoDup (vT st) ∧
  (∀ x, x ∈ vT st → is_vertex vertexCount x) ∧
  length (vT st) = S (length (T st)) ∧
  NoDup (T st) ∧
  T st ⊆ G ∧
  (∀ g, g ∈ T st → getU g ∈ vT st ∧ getV g ∈ vT st) ∧
  (∀ x y, x ∈ vT st → y ∈ vT st → connected (T st) x y) ∧
  promising vertexCount G (T st) ∧
  totalWeight st = wrap_int (weight (T st)).

(** Every selection of at most [vertexCount - 1] edges of [G] has a total
    that an [int] holds: whichever edges the loop picks, no sum it forms
    leaves [int]. *)
Definition sums_fit (vertexCount : nat) (G : list WeightedEdge) : Prop :=
  ∀ S, NoDup S → S ⊆ G → length S ≤ vertexCount - 1 → is_int (weight S).

(** What the first claim asks of the state the loop ends in. *)
Definition minimum_spanning_result (vertexCount : nat) (G : list WeightedEdge)
  (st : prim_state) : Prop :=
  length (T st) = vertexCount - 1 ∧
  (∀ x, is_vertex vertexCount x → touches (T st) x) ∧
  spanning_tree_of vertexCount G (T st) ∧
  totalWeight st = weight (T st) ∧
  (∀ S, spanning_tree_of vertexCount G S → (totalWeight st ≤ weight S)%Z).

(** ** Combinations *)

Definition increasing (c : list Z) : Prop :=
  ∀ i j x y, i < j → c !! i = Some x → c !! j = Some y → (x < y)%Z.

(** A combination of [m] of the numbers [0 .. n-1], as a strictly
    increasing array. *)
Definition combination (n : Z) (m : nat) (c : list Z) : Prop :=
  length c = m ∧ increasing c ∧ ∀ i x, c !! i = Some x → (0 ≤ x < n)%Z.

(** [[n-m, ..., n-1]] and [[0, ..., m-1]]. *)
Definition max_combination (n : Z) (m : nat) : list Z :=
  (fun i => (n - Z.of_nat m + Z.of_nat i)%Z) <$> seq 0 m.

Definition min_combination (m : nat) : list Z := Z.of_nat <$> seq 0 m.

(** Colexicographic order on arrays of one length: the highest position
    where they differ decides. *)
Definition colex_lt (c' c : list Z) : Prop :=
  length c' = length c ∧
  ∃ j x y, c' !! j = Some x ∧ c !! j = Some y ∧ (x < y)%Z ∧
           ∀ i, j < i → c' !! i = c !! i.

(** [c'] comes from [c] by lowering by one the first entry that is not at
    its home value and packing the entries before it right below it. *)
Definition colex_pred (c c' : list Z) : Prop :=
  length c' = length c ∧
  ∃ p x, c !! p = Some x ∧ (Z.of_nat p < x)%Z ∧
         (∀ i, i < p → c !! i = Some (Z.of_nat i)) ∧
         c' !! p = Some (x - 1)%Z ∧
         (∀ i, i < p → c' !! i = Some (x - 1 - (Z.of_nat p - Z.of_nat i))%Z) ∧
         (∀ i, p < i → c' !! i = c !! i).

(** Each array of the sequence is the predecessor of the one before. *)
Definition descends (ys : list (list Z)) : Prop :=
  ∀ i c c', ys !! i = Some c → ys !! S i = Some c' → colex_pred c c'.

(** The binomial coefficient, by Pascal's rule. *)
Fixpoint binomial (n m : nat) : nat :=
  match n, m with
  | _, O => 1
  | O, S _ => 0
  | S n', S m' => binomial n' m' + binomial n' (S m')
  end.

(** Every combination of [m] of the numbers [0 .. n-1], those without
    [n-1] first. *)
Fixpoint all_combinations (n m : nat) : list (list Z) :=
  match n with
  | O => match m with O => [[]] | S _ => [] end
  | S n' =>
      match m with
      | O => [[]]
      | S m' => all_combinations n' (S m')
                ++ ((fun c => c ++ [Z.of_nat n']) <$> all_combinations n' m')
      end
  end.

(** The arrays handed out so far descend from the greatest combination
    and end with the current array [a]. *)
Definition tracing (n : Z) (m : nat) (ys : list (list Z)) (a : list Z) : Prop :=
  descends ys ∧ head ys = Some (max_combination n m) ∧ last ys = Some a.

(** Entries [0 .. k] are at home and the next entry, if there is one, is
    not. *)
Definition settled (m : nat) (a : list Z) (k : nat) : Prop :=
  (∀ i, i ≤ k → a !! i = Some (Z.of_nat i)) ∧
  (S k < m → ∃ y, a !! S k = Some y ∧ (Z.of_nat (S k) < y)%Z).

(** The two situations in which the loop body is entered. *)
Definition entering (m : nat) (a : list Z) (k : nat) : Prop :=
  (k = 0 ∧ ∃ x, a !! 0 = Some x ∧ (0 < x)%Z) ∨ (settled m a k ∧ S k < m).

(** [ys] lists every combination of [m] of the numbers [0 .. n-1] exactly
    once, and nothing else. *)
Definition enumerates (n : Z) (m : nat) (ys : list (list Z)) : Prop :=
  length ys = binomial (Z.to_nat n) m ∧
  (∀ c, c ∈ ys → combination n m c) ∧
  NoDup ys ∧
  (∀ c, combination n m c → c ∈ ys).

(** [ys] starts at the greatest combination, ends at the least one and is
    strictly decreasing in between. *)
Definition runs_down (n : Z) (m : nat) (ys : list (list Z)) : Prop :=
  head ys = Some (max_combination n m) ∧
  last ys = Some (min_combination m) ∧
  (∀ i j c c', i < j → ys !! i = Some c → ys !! j = Some c' → colex_lt c' c).

(** ** Adjacency matrices *)

Definition cell (M : list (list Z)) (row col : nat) : option Z :=
  M !! row ≫= fun line => line !! col.

Definition symmetric (M : list (list Z)) : Prop :=
  ∀ row col, cell M row col = cell M col row.

Definition zero_diagonal (M : list (list Z)) : Prop :=
  ∀ i x, cell M i i = Some x → x = 0%Z.

(** Number of ones strictly above the diagonal: in row [row], the entries
    of the columns after [row]. *)
Definition ones_above (M : list (list Z)) : nat :=
  sum_list (imap (fun row line => length (filter (fun x => x = 1%Z) (drop (S row) line))) M).


(** The arrays of [ys] and the [m]-element subsets of [0, n) correspond
    one to one: every array lists such a subset, and every such subset is
    listed by exactly one array. *)
Definition lists_subsets (n : Z) (m : nat) (ys : list (list Z)) : Prop :=
  (∀ c, c ∈ ys →
        size (list_to_set c : gset Z) = m ∧
        ∀ x, x ∈ (list_to_set c : gset Z) → (0 ≤ x < n)%Z) ∧
  (∀ S : gset Z, size S = m → (∀ x, x ∈ S → (0 ≤ x < n)%Z) →
                 ∃ c, c ∈ ys ∧ list_to_set c = S ∧
                      ∀ c', c' ∈ ys → list_to_set c' = S → c' = c).

(** The value of [k] at the start of turn [i] of the [edgeSet] loop. *)
Fixpoint hits (indices : nat → Z) (i : nat) : nat :=
  match i with
  | O => 0
  | S i' =>
      if bool_decide (Z.of_nat i' = indices (hits indices i'))
      then S (hits indices i') else hits indices i'
  end.

Definition count_true (l : list bool) : nat := sum_list (Nat.b2n <$> l).

(** Exactly the first [k] entries of [a] are below [t]. *)
Definition cut (a : list Z) (t k : nat) : Prop :=
  k ≤ length a ∧
  (∀ j x, j < k → a !! j = Some x → (x < Z.of_nat t)%Z) ∧
  (∀ j x, k ≤ j → a !! j = Some x → (Z.of_nat t ≤ x)%Z).

(** Number of edge slots in the columns before column [k] of an [n] x [n]
    matrix: column [k'] holds the [n - 1 - k'] rows below the diagonal. *)
Fixpoint slots_before (n k : nat) : nat :=
  match k with
  | O => 0
  | S k' => slots_before n k' + (n - 1 - k')
  end.

(** What [write_graph] is meant to put at row [r], column [c]: the
    presence bit of the slot of the pair, zero on the diagonal. *)
Definition slot_value (n : nat) (edgeSet : list bool) (r c : nat) : Z :=
  if decide (r = c) then 0%Z
  else Z.b2z (default false
                (edgeSet !! (slots_before n (r `min` c) + (r `max` c - r `min` c - 1)))).

(** The pair [r], [c] has been dealt with before row [i] of column [k]. *)
Definition filled (k i r c : nat) : Prop :=
  r ≠ c ∧ (r `min` c < k ∨ (r `min` c = k ∧ r `max` c < i)).

Definition square (n : nat) (M : list (list Z)) : Prop :=
  length M = n ∧ ∀ r line, M !! r = Some line → length line = n.

#[global] Instance filled_dec k i r c : Decision (filled k i r c).
Proof. unfold filled. apply _. Defined.

(** The matrix between two turns of the inner loop: the pairs dealt with
    so far hold their slot value, every other entry is still zero. *)
Definition filling (n : nat) (edgeSet : list bool) (k i : nat) (M : list (list Z)) : Prop :=
  square n M ∧
  ∀ r c, r < n → c < n →
         cell M r c = Some (if decide (filled k i r c) then slot_value n edgeSet r c else 0%Z).

(** The lines [write_graph] appends to the file for a given [edgeSet]:
    line [k] holds, for every row [i], the entry of row [i] in column
    [k]. *)
Definition lines_of (n : nat) (edgeSet : list bool) : list (list Z) :=
  (fun k => (fun i => slot_value n edgeSet i k) <$> seq 0 n) <$> seq 0 n.

(** ** The Prim loop on any graph *)

(** The loop state between two turns, on any graph. *)
Definition prim_shape (G : list WeightedEdge) (st : prim_state) : Prop :=
  length (vT st) = S (length (T st)) ∧
  T st ⊆ G ∧
  (∀ x, x ∈ vT st → ∃ e, e ∈ G ∧ (x = getU e ∨ x = getV e)) ∧
  totalWeight st = wrap_int (weight (T st)).

(** Edge [i] of [T] hangs the vertex appended at its turn, [vT[i+1]], onto
    a vertex that was in [vT] before. *)
Definition grown (st : prim_state) : Prop :=
  ∀ i e, T st !! i = Some e →
         ∃ x y, vT st !! S i = Some x ∧ joins e x y ∧ y ∈ take (S i) (vT st).

(** ** The edge slots of write_graph *)

(** The ordinal of the edge slot of the pair [r], [c]: the slots are
    numbered down the columns of the lower triangle, column after
    column. *)
Definition slot_of (n r c : nat) : nat :=
  slots_before n (r `min` c) + (r `max` c - r `min` c - 1).

(** The word behind the array is not the index of a slot that follows the
    last ordinal: the read outside the array, when there is one, then
    matches nothing. *)
Definition tame (EDGES : nat) (a : list Z) (rest : nat → Z) : Prop :=
  ∀ x i, last a = Some x → (x < Z.of_nat i)%Z → i < EDGES → rest 0 ≠ Z.of_nat i.

(** Every line has [n] entries, each 0 or 1. *)
Definition bit_lines (n : nat) (M : list (list Z)) : Prop :=
  length M = n ∧
  ∀ line, line ∈ M → length line = n ∧ ∀ x, x ∈ line → x = 0%Z ∨ x = 1%Z.

(** ** graph_generation *)

(** [do { printf(...); cin >> n; } while (!(n > 2))].  [cin] holds the
    integers that are still to be read, [n] what the variable holds
    ([None] as long as nothing has been read into it: a read from an input
    that has run dry sets nothing), [prompts] counts the prompts
    printed.  As in [read_int] the values stand for numerals an [int] can
    hold. *)
Fixpoint read_vertex_bound (fuel : nat) (cin : list Z) (n : option Z) (prompts : nat)
  : run (Z * list Z * nat) :=
  match fuel with
  | O => OutOfFuel
  | S fuel' =>
      let n := match cin with [] => n | x :: _ => Some x end in
      let cin := tail cin in
      match n with
      | None => OutOfBounds
      | Some v =>
          if bool_decide (2 < v)%Z then Done (v, cin, S prompts)
          else read_vertex_bound fuel' cin n (S prompts)
      end
  end.

(** Body of [for (int e = 1; e <= edges; e++)]. *)
Definition generation_edges (fuel v e : nat) (out : list output) : run (list output) :=
  o ← make_graphs fuel (Z.of_nat v) (Z.of_nat e);
  Done (out ++ o).

(** Body of [for (int v = 2; v <= n; v++)]. *)
Definition generation_vertices (fuel v : nat) (out : list output) : run (list output) :=
  for_range 1 (Z.to_nat (triangle_number (Z.of_nat v - 1))) (generation_edges fuel v) out.

(** The output file is emptied before the loops, so the output starts
    empty; the result is the number of prompts and everything written
    after them, the matrices that go to the file ([Graph]) and the
    messages that go to the screen. *)
Definition graph_generation (fuel : nat) (cin : list Z) : run (nat * list output) :=
  '(n, _, prompts) ← read_vertex_bound fuel cin None 0;
  out ← for_range 2 (Z.to_nat (n - 1)) (generation_vertices fuel) [];
  Done (prompts, out).

(** The calls to [write_graph] among the output, in order: the array and
    the vertex count of each. *)
Definition writes (out : list output) : list (list Z * Z) :=
  omap (fun o => match o with Graph c v => Some (c, v) | _ => None end) out.

(** The order of the output file: by vertex count, then by number of
    edges, then down the colexicographic order. *)
Definition file_order (x y : list Z * Z) : Prop :=
  (x.2 < y.2)%Z ∨
  (x.2 = y.2 ∧ (length x.1 < length y.1 ∨ (length x.1 = length y.1 ∧ colex_lt y.1 x.1))).

(** What one vertex count contributes once the edge counts [1 .. t] are
    done. *)
Definition edge_counts_done (v : nat) (t : nat) (new : list output) : Prop :=
  ¬ ErrorCount ∈ new ∧
  StronglySorted file_order (writes new) ∧
  NoDup (writes new) ∧
  (∀ c v', (c, v') ∈ writes new ↔
           v' = Z.of_nat v ∧ 1 ≤ length c ≤ t ∧
           combination (triangle_number (Z.of_nat v - 1)) (length c) c) ∧
  length (writes new)
  = sum_list (binomial (Z.to_nat (triangle_number (Z.of_nat v - 1))) <$> seq 1 t).

(** The output once the vertex counts [2 .. 1 + s] are done. *)
Definition vertex_counts_done (s : nat) (out : list output) : Prop :=
  ¬ ErrorCount ∈ out ∧
  StronglySorted file_order (writes out) ∧
  NoDup (writes out) ∧
  (∀ c v, (c, v) ∈ writes out ↔
          (2 ≤ v < 2 + Z.of_nat s)%Z ∧ 1 ≤ length c ∧
          combination (triangle_number (v - 1)) (length c) c) ∧
  length (writes out)
  = sum_list ((fun v => 2 ^ Z.to_nat (triangle_number (Z.of_nat v - 1)) - 1) <$> seq 2 s).

(** ** The menu: valid_choice and launch_menu *)

Definition valid_choice (c : ascii) : bool :=
  match c with
  | "1"%char   (* Spanning Tree *)
  | "2"%char   (* Graph Generation *)
    => true
  | _ => false
  end.

(** The characters [cin >> c] skips before it takes one. *)
Definition is_space (c : ascii) : bool :=
  let n := nat_of_ascii c in (n =? 32) || ((9 <=? n) && (n <=? 13)).

(** [cin >> c]: the next character that is not white space, and what is
    left of the input; nothing when the input runs dry first. *)
Fixpoint read_char (cin : list ascii) : option (ascii * list ascii) :=
  match cin with
  | [] => None
  | x :: cin' => if is_space x then read_char cin' else Some (x, cin')
  end.

(** [do { printf(...); cin >> c; } while (!valid_choice(c))], then
    [return c-48].  [c] is [None] as long as nothing has been read into
    it; a read that fails leaves it as it is.  The result is the value
    returned, the input that is left and the number of times the menu was
    printed. *)
Fixpoint menu_loop (fuel : nat) (cin : list ascii) (c : option ascii) (prompts : nat)
  : run (Z * list ascii * nat) :=
  match fuel with
  | O => OutOfFuel
  | S fuel' =>
      let '(c, cin) := match read_char cin with
                       | Some (x, cin') => (Some x, cin')
                       | None => (c, [])
                       end in
      match c with
      | None => OutOfBounds
      | Some x =>
          if valid_choice x then Done ((Z.of_nat (nat_of_ascii x) - 48)%Z, cin, S prompts)
          else menu_loop fuel' cin c (S prompts)
      end
  end.

Definition launch_menu (fuel : nat) (cin : list ascii) : run (Z * list ascii * nat) :=
  menu_loop fuel cin None 0.

(** The characters that [cin >> c] hands over one by one. *)
Definition visible (cin : list ascii) : list ascii :=
  filter (fun x => is_space x = false) cin.

(** ** Proof steps *)

(** A closed list of tokens holds [int] values. *)
Ltac int_tokens := repeat constructor; by vm_compute.
(** * Properties *)

(** ** The outcome monad and the counted loop *)

Lemma bind_Done {A B} (f : A → run B) (a : A) : (Done a ≫= f) = f a.
Proof. reflexivity. Qed.

Lemma for_range_0 {St} (body : nat → St → run St) from s :
  for_range from 0 body s = Done s.
Proof. reflexivity. Qed.

Lemma for_range_S {St} (body : nat → St → run St) count from s :
  for_range from (S count) body s = (s' ← body from s; for_range (S from) count body s').
Proof. reflexivity. Qed.

Lemma for_range_snoc {St} (body : nat → St → run St) count from s :
  for_range from (S count) body s = (s' ← for_range from count body s; body (from + count) s').
Proof.
  revert from s. induction count as [|count IH]; intros from s.
  - rewrite for_range_S, !for_range_0, Nat.add_0_r, bind_Done.
    destruct (body from s); reflexivity.
  - rewrite for_range_S, (for_range_S _ count).
    destruct (body from s) as [s1| |]; [|reflexivity..].
    rewrite !bind_Done, IH. replace (S from + count) with (from + S count) by lia.
    reflexivity.
Qed.

(** ** create_graph *)

Lemma stored_cell_lookup vertexCount cells r c k :
  cells !! (r * vertexCount + c) = Some k →
  stored_cell vertexCount cells r c
  = if bool_decide (r ≤ c ∧ k ≠ 0%Z)
    then [mkWeightedEdge (Z.of_nat c) (Z.of_nat r) k] else [].
Proof. intros Hk. unfold stored_cell, entry. rewrite Hk. reflexivity. Qed.

Lemma create_row_run vertexCount cells j G r count :
  r * vertexCount + count ≤ length cells → count ≤ vertexCount → j = r →
  for_range 0 count (create_cell j) (drop (r * vertexCount) cells, G)
  = Done (drop (r * vertexCount + count) cells,
          G ++ (seq 0 count ≫= (stored_cell vertexCount cells r))).
Proof.
  intros Hlen Hc ->. induction count as [|count IH].
  - rewrite for_range_0. rewrite Nat.add_0_r. simpl. rewrite app_nil_r. reflexivity.
  - rewrite for_range_snoc, IH by lia. rewrite bind_Done.
    destruct (lookup_lt_is_Some_2 cells (r * vertexCount + count)) as [k Hk]; [lia|].
    rewrite seq_S, bind_app.
    unfold create_cell. cbn [fst snd].
    rewrite (drop_S _ _ _ Hk). cbn [read_int]. rewrite bind_Done.
    replace (S (r * vertexCount + count)) with (r * vertexCount + S count) by lia.
    cbn [mbind list_bind]. rewrite app_nil_r, app_assoc.
    rewrite !Nat.add_0_l, (stored_cell_lookup _ _ _ _ _ Hk).
    case_bool_decide; [reflexivity|]. rewrite app_nil_r. reflexivity.
Qed.

Lemma create_rows_run vertexCount cells G count :
  vertexCount * vertexCount ≤ length cells → count ≤ vertexCount →
  for_range 0 count (create_row vertexCount) (cells, G)
  = Done (drop (count * vertexCount) cells,
          G ++ (seq 0 count ≫= (stored_row vertexCount cells))).
Proof.
  intros Hlen Hc. induction count as [|count IH].
  - rewrite for_range_0. simpl. rewrite app_nil_r. reflexivity.
  - rewrite for_range_snoc, IH by lia. rewrite bind_Done. unfold create_row.
    rewrite Nat.add_0_l.
    rewrite (create_row_run vertexCount cells count _ count vertexCount); [|nia|lia|done].
    replace (count * vertexCount + vertexCount) with (S count * vertexCount) by lia.
    rewrite seq_S, bind_app. cbn [mbind list_bind]. rewrite app_nil_r, app_assoc. reflexivity.
Qed.

Lemma create_graph_run (vertexCount : nat) cells G :
  (Z.of_nat vertexCount < 4294967296)%Z →
  vertexCount * vertexCount ≤ length cells →
  create_graph (Z.of_nat vertexCount :: cells) G
  = Done (G ++ stored vertexCount cells, vertexCount).
Proof.
  intros Hv Hlen. unfold create_graph. cbn [read_int]. rewrite bind_Done.
  rewrite bool_decide_eq_true_2 by lia. rewrite Nat2Z.id.
  rewrite create_rows_run by lia. reflexivity.
Qed.

Lemma elem_of_stored vertexCount cells e :
  e ∈ stored vertexCount cells ↔
  ∃ r c, r ≤ c ∧ c < vertexCount ∧ entry vertexCount cells r c ≠ 0%Z ∧
         e = mkWeightedEdge (Z.of_nat c) (Z.of_nat r) (entry vertexCount cells r c).
Proof.
  unfold stored, stored_row. rewrite list_elem_of_bind. split.
  - intros (r & He & Hr). apply list_elem_of_bind in He as (c & He & Hc).
    apply elem_of_seq in Hr, Hc. unfold stored_cell in He.
    case_bool_decide as Hd; [|by apply not_elem_of_nil in He].
    apply list_elem_of_singleton in He. exists r, c. intuition lia.
  - intros (r & c & Hrc & Hc & Hk & ->). exists r. split.
    + apply list_elem_of_bind. exists c. split; [|apply elem_of_seq; lia].
      unfold stored_cell. rewrite bool_decide_eq_true_2 by done.
      apply list_elem_of_singleton. reflexivity.
    + apply elem_of_seq. lia.
Qed.

Lemma create_cell_cons j i k inp G :
  create_cell j i (k :: inp, G)
  = Done (inp, if bool_decide (j ≤ i ∧ k ≠ 0%Z)
               then G ++ [mkWeightedEdge (Z.of_nat i) (Z.of_nat j) k] else G).
Proof. reflexivity. Qed.

Lemma create_row_Done j count from inp G r :
  for_range from count (create_cell j) (inp, G) = Done r → count ≤ length inp.
Proof.
  revert from inp G. induction count as [|count IH]; intros from inp G H; [lia|].
  rewrite for_range_S in H. destruct inp as [|k inp]; [discriminate|].
  rewrite create_cell_cons, bind_Done in H.
  apply IH in H. simpl. lia.
Qed.

Lemma create_row_input j count from inp G r :
  for_range from count (create_cell j) (inp, G) = Done r → r.1 = drop count inp.
Proof.
  revert from inp G. induction count as [|count IH]; intros from inp G H.
  - rewrite for_range_0 in H. injection H as <-. reflexivity.
  - rewrite for_range_S in H. destruct inp as [|k inp]; [discriminate|].
    rewrite create_cell_cons, bind_Done in H.
    apply IH in H. exact H.
Qed.

Lemma create_rows_Done vertexCount count from inp G r :
  for_range from count (create_row vertexCount) (inp, G) = Done r →
  count * vertexCount ≤ length inp.
Proof.
  revert from inp G. induction count as [|count IH]; intros from inp G H; [lia|].
  rewrite for_range_S in H.
  change (create_row vertexCount from (inp, G))
    with (for_range 0 vertexCount (create_cell from) (inp, G)) in H.
  destruct (for_range 0 vertexCount (create_cell from) (inp, G)) as [[inp' G']| |] eqn:E;
    [|discriminate..].
  rewrite bind_Done in H. apply IH in H.
  pose proof (create_row_Done _ _ _ _ _ _ E) as H1.
  apply create_row_input in E. simpl in E. subst inp'.
  rewrite length_drop in H. lia.
Qed.

(** A run of [create_graph] that returns has read a vertex count and a
    full matrix, and has appended the edges of [stored]. *)
Lemma create_graph_Done inputFile G0 G vertexCount :
  create_graph inputFile G0 = Done (G, vertexCount) →
  ∃ cells, inputFile = Z.of_nat vertexCount :: cells ∧
           (Z.of_nat vertexCount < 4294967296)%Z ∧
           vertexCount * vertexCount ≤ length cells ∧
           G = G0 ++ stored vertexCount cells.
Proof.
  intros H. destruct inputFile as [|n cells]; [discriminate|].
  pose proof H as H'. unfold create_graph in H. cbn [read_int] in H.
  rewrite bind_Done in H. case_bool_decide as Hn; [|discriminate].
  destruct (for_range 0 (Z.to_nat n) (create_row (Z.to_nat n)) (cells, G0))
    as [r| |] eqn:E; [|discriminate..].
  rewrite bind_Done in H. injection H as HG HV.
  apply create_rows_Done in E.
  assert (n = Z.of_nat vertexCount) as -> by lia.
  rewrite Nat2Z.id in E.
  exists cells. split; [reflexivity|]. split; [lia|]. split; [exact E|].
  rewrite create_graph_run in H' by lia. congruence.
Qed.

Lemma elem_of_stored_cell vertexCount cells r c e :
  e ∈ stored_cell vertexCount cells r c →
  r ≤ c ∧ entry vertexCount cells r c ≠ 0%Z ∧
  e = mkWeightedEdge (Z.of_nat c) (Z.of_nat r) (entry vertexCount cells r c).
Proof.
  unfold stored_cell. case_bool_decide as Hd; [|by intros ?%elem_of_nil].
  intros ->%list_elem_of_singleton. tauto.
Qed.

Lemma NoDup_stored vertexCount cells : NoDup (stored vertexCount cells).
Proof.
  unfold stored. apply NoDup_bind.
  - intros r1 r2 e _ _ H1 H2. unfold stored_row in H1, H2.
    apply list_elem_of_bind in H1 as (c1 & H1 & _), H2 as (c2 & H2 & _).
    apply elem_of_stored_cell in H1 as (_ & _ & ->), H2 as (_ & _ & H2).
    injection H2. lia.
  - intros r _. unfold stored_row. apply NoDup_bind.
    + intros c1 c2 e _ _ H1 H2.
      apply elem_of_stored_cell in H1 as (_ & _ & ->), H2 as (_ & _ & H2).
      injection H2. lia.
    + intros c _. unfold stored_cell. case_bool_decide; [apply NoDup_singleton|apply NoDup_nil_2].
    + apply NoDup_seq.
  - apply NoDup_seq.
Qed.

Lemma stored_endpoints vertexCount cells e :
  e ∈ stored vertexCount cells →
  (0 ≤ getV e ≤ getU e)%Z ∧ (getU e < Z.of_nat vertexCount)%Z ∧ getW e ≠ 0%Z.
Proof.
  rewrite elem_of_stored. intros (r & c & Hrc & Hc & Hk & ->). simpl. lia.
Qed.

Lemma stored_joins_unique vertexCount cells e e' (a b : nat) :
  e ∈ stored vertexCount cells → e' ∈ stored vertexCount cells →
  joins e (Z.of_nat a) (Z.of_nat b) → joins e' (Z.of_nat a) (Z.of_nat b) → e' = e.
Proof.
  rewrite !elem_of_stored.
  intros (r & c & Hrc & Hc & Hk & ->) (r' & c' & Hrc' & Hc' & Hk' & ->).
  unfold joins. simpl. intros H1 H2.
  assert (r' = r ∧ c' = c) as [-> ->] by lia. reflexivity.
Qed.

Lemma stored_upper_half vertexCount cells :
  one_edge_per_entry (fun r c => r ≤ c) vertexCount cells (stored vertexCount cells).
Proof.
  split.
  - intros r c Hr Hc Hrc Hk.
    assert (mkWeightedEdge (Z.of_nat c) (Z.of_nat r) (entry vertexCount cells r c)
              ∈ stored vertexCount cells) as Hin.
    { apply elem_of_stored. exists r, c. auto. }
    eexists. split; [exact Hin|]. split.
    + split; [right; simpl; auto | reflexivity].
    + intros e' He' Hj. apply (stored_joins_unique vertexCount cells _ _ r c); auto.
      right. simpl. auto.
  - intros e (r & c & Hrc & Hc & Hk & ->)%elem_of_stored.
    exists r, c. repeat split; auto; try lia. right. simpl. auto.
Qed.

Lemma stored_symmetric vertexCount cells :
  symmetric_matrix vertexCount cells →
  one_edge_per_entry (fun _ _ => True) vertexCount cells (stored vertexCount cells).
Proof.
  intros Hsym. destruct (stored_upper_half vertexCount cells) as [H1 H2]. split.
  - intros r c Hr Hc _ Hk. destruct (decide (r ≤ c)) as [Hrc|Hrc].
    + apply H1; auto.
    + destruct (H1 c r) as (e & He & [Hj Hw] & Hu); auto; [lia|by rewrite <-Hsym|].
      exists e. split; [exact He|]. split.
      * split; [unfold joins in *; tauto | by rewrite Hsym].
      * intros e' He' Hj'. apply Hu; auto. unfold joins in *. tauto.
  - intros e He. destruct (H2 e He) as (r & c & ? & ? & ? & ? & ?). exists r, c. auto.
Qed.

(** C10.  Every edge that [create_graph] stores has [getU() >= getV()]:
    [u] is the column index of the matrix entry the edge was read from and
    [v] its row index, and only entries with column >= row are stored. *)
Theorem create_graph_u_ge_v inputFile G vertexCount :
  create_graph inputFile [] = Done (G, vertexCount) →
  ∀ e, e ∈ G →
       (getV e ≤ getU e)%Z ∧
       ∃ cells row col,
         inputFile = Z.of_nat vertexCount :: cells ∧
         getU e = Z.of_nat col ∧ getV e = Z.of_nat row ∧
         getW e = entry vertexCount cells row col.
Proof.
  intros (cells & -> & _ & _ & ->)%create_graph_Done e He. cbn [app] in He.
  pose proof (stored_endpoints _ _ _ He) as H. split; [lia|].
  apply elem_of_stored in He as (r & c & ? & ? & ? & ->).
  exists cells, r, c. auto.
Qed.

Lemma create_graph_u_ge_v_witness :
  create_graph [2; 0; 5; 5; 0]%Z [] = Done ([mkWeightedEdge 1 0 5], 2) ∧
  (getV (mkWeightedEdge 1 0 5) ≤ getU (mkWeightedEdge 1 0 5))%Z.
Proof.
  split; [reflexivity|].
  apply (create_graph_u_ge_v [2; 0; 5; 5; 0]%Z [mkWeightedEdge 1 0 5] 2);
    [reflexivity | apply list_elem_of_singleton; reflexivity].
Defined.

Lemma stored_lower_half vertexCount cells :
  symmetric_matrix vertexCount cells →
  one_edge_per_entry (fun r c => c ≤ r) vertexCount cells (stored vertexCount cells).
Proof.
  intros Hsym. destruct (stored_symmetric vertexCount cells Hsym) as [H1 H2]. split.
  - intros r c Hr Hc _ Hk. by apply H1.
  - intros e He. destruct (H2 e He) as (r & c & Hr & Hc & _ & Hk & Hj & Hw).
    destruct (decide (c ≤ r)) as [Hcr|Hcr].
    + exists r, c. repeat split; auto.
    + exists c, r. split; [done|]. split; [done|]. split; [lia|].
      split; [by rewrite <-Hsym|]. split; [unfold joins in *; tauto|by rewrite <-Hsym].
Qed.

(** C7.  On an input that holds a vertex count [V] and a symmetric [V] x
    [V] matrix of [int] values, [create_graph] returns a graph that holds
    exactly one edge per matrix entry whose row index is >= its column
    index and whose value is non-zero, and no others; every non-zero
    entry, in either half, is captured by exactly one stored edge, so each
    undirected edge of the input is there exactly once; and no stored edge
    has weight zero. *)
Theorem create_graph_one_edge_per_entry (vertexCount : nat) (cells : list Z) :
  (Z.of_nat vertexCount < 4294967296)%Z →
  vertexCount * vertexCount ≤ length cells →
  Forall is_int cells →
  symmetric_matrix vertexCount cells →
  ∃ G, create_graph (Z.of_nat vertexCount :: cells) [] = Done (G, vertexCount) ∧
       NoDup G ∧
       one_edge_per_entry (fun row col => col ≤ row) vertexCount cells G ∧
       one_edge_per_entry (fun _ _ => True) vertexCount cells G ∧
       (∀ e, e ∈ G → getW e ≠ 0%Z).
Proof.
  intros Hv Hlen _ Hsym. exists (stored vertexCount cells).
  split; [by rewrite create_graph_run|].
  split; [apply NoDup_stored|]. split; [by apply stored_lower_half|].
  split; [by apply stored_symmetric|].
  intros e He. apply stored_endpoints in He. tauto.
Qed.

Lemma create_graph_one_edge_per_entry_witness :
  ∃ G, create_graph [2; 0; 5; 5; 0]%Z [] = Done (G, 2) ∧
       NoDup G ∧
       one_edge_per_entry (fun row col => col ≤ row) 2 [0; 5; 5; 0]%Z G ∧
       one_edge_per_entry (fun _ _ => True) 2 [0; 5; 5; 0]%Z G ∧
       (∀ e, e ∈ G → getW e ≠ 0%Z).
Proof.
  apply (create_graph_one_edge_per_entry 2 [0; 5; 5; 0]%Z);
    [reflexivity | simpl; lia | int_tokens |].
  intros [|[|r]] [|[|c]] Hr Hc; first [reflexivity | exfalso; lia].
Defined.

(** X30.  Symmetric or not, on an input that holds a vertex count [V]
    and a full [V] x [V] matrix of [int] values [create_graph] returns, in
    row-major order, exactly one edge per matrix entry whose column index
    is >= its row index and whose value is non-zero ([u] the column, [v]
    the row, [w] the value), and no others: the half it keeps is the one
    on and right of the diagonal. *)
Theorem create_graph_stores_upper_half (vertexCount : nat) (cells : list Z) :
  (Z.of_nat vertexCount < 4294967296)%Z →
  vertexCount * vertexCount ≤ length cells →
  Forall is_int cells →
  ∃ G, create_graph (Z.of_nat vertexCount :: cells) [] = Done (G, vertexCount) ∧
       G = stored vertexCount cells ∧
       NoDup G ∧
       one_edge_per_entry (fun row col => row ≤ col) vertexCount cells G ∧
       (∀ e, e ∈ G → getW e ≠ 0%Z).
Proof.
  intros Hv Hlen _. exists (stored vertexCount cells).
  split; [by rewrite create_graph_run|]. split; [reflexivity|].
  split; [apply NoDup_stored|]. split; [apply stored_upper_half|].
  intros e He. apply stored_endpoints in He. tauto.
Qed.

Lemma create_graph_stores_upper_half_witness :
  ∃ G, create_graph [2; 0; 5; 0; 0]%Z [] = Done (G, 2) ∧
       G = stored 2 [0; 5; 0; 0]%Z ∧
       NoDup G ∧
       one_edge_per_entry (fun row col => row ≤ col) 2 [0; 5; 0; 0]%Z G ∧
       (∀ e, e ∈ G → getW e ≠ 0%Z).
Proof.
  apply (create_graph_stores_upper_half 2 [0; 5; 0; 0]%Z);
    [reflexivity | simpl; lia | int_tokens].
Defined.

(** ** min_incident *)

Lemma matches_from e vT m :
  foldl (match_step e) m vT
  = (m.1 || bool_decide (getU e ∈ vT), m.2 || bool_decide (getV e ∈ vT)).
Proof.
  revert m. induction vT as [|x vT IH]; intros [a b].
  - cbn [foldl fst snd]. rewrite !bool_decide_eq_false_2 by apply not_elem_of_nil.
    by rewrite !orb_false_r.
  - cbn [foldl]. rewrite IH. unfold match_step. cbn [fst snd].
    rewrite (bool_decide_ext (getU e ∈ x :: vT) (getU e = x ∨ getU e ∈ vT))
      by apply elem_of_cons.
    rewrite (bool_decide_ext (getV e ∈ x :: vT) (getV e = x ∨ getV e ∈ vT))
      by apply elem_of_cons.
    rewrite !bool_decide_or. f_equal.
    + destruct (bool_decide (getU e = x)), a; reflexivity.
    + destruct (bool_decide (getV e = x)), b; reflexivity.
Qed.

Lemma matches_spec e vT :
  matches e vT = (bool_decide (getU e ∈ vT), bool_decide (getV e ∈ vT)).
Proof. unfold matches. by rewrite matches_from. Qed.

Lemma scan_step_spec vT st i e :
  scan_step vT st i e
  = if decide (boundary vT e ∧ (getW e < st.1.2)%Z)
    then (i, getW e, bool_decide (getU e ∈ vT)) else st.
Proof.
  unfold scan_step. rewrite matches_spec. unfold boundary.
  destruct (decide (getU e ∈ vT)) as [Hu|Hu], (decide (getV e ∈ vT)) as [Hv|Hv];
    repeat first [rewrite (bool_decide_eq_true_2 _ Hu) | rewrite (bool_decide_eq_true_2 _ Hv)
                 | rewrite (bool_decide_eq_false_2 _ Hu) | rewrite (bool_decide_eq_false_2 _ Hv)];
    simpl; repeat case_bool_decide; repeat case_decide; simpl; try reflexivity; try lia; tauto.
Qed.

Lemma scan_from_scanned vT suf pre st :
  scanned vT pre st → scanned vT (pre ++ suf) (scan_from vT (length pre) suf st).
Proof.
  revert pre st. induction suf as [|e suf IH]; intros pre st Hst.
  - simpl. by rewrite app_nil_r.
  - simpl. rewrite (cons_middle e pre suf), app_assoc.
    replace (S (length pre)) with (length (pre ++ [e])) by (rewrite length_app; simpl; lia).
    apply IH. rewrite scan_step_spec. destruct Hst as [Hmin Hsel].
    assert (st.1.2 ≤ INT_MAX)%Z as Hle.
    { destruct Hsel as [->|(? & _ & _ & _ & ? & _)]; simpl; lia. }
    case_decide as Hd.
    + destruct Hd as [Hb Hw]. split; simpl.
      * intros e' [He'| ->%list_elem_of_singleton]%elem_of_app Hb'; [|lia].
        specialize (Hmin e' He' Hb'). lia.
      * right. exists e. rewrite lookup_app_r, Nat.sub_diag by lia.
        split; [done|]. repeat split; auto. lia.
    + split.
      * intros e' [He'| ->%list_elem_of_singleton]%elem_of_app Hb'; [by apply Hmin|].
        apply Z.nlt_ge. intros Hlt. apply Hd. done.
      * destruct Hsel as [->|(e' & Hl & Hrest)]; [by left|]. right. exists e'.
        split; [|done]. by apply lookup_app_l_Some.
Qed.

Lemma min_scan_scanned G vT : scanned vT G (min_scan G vT).
Proof.
  unfold min_scan. apply (scan_from_scanned vT G [] (0, INT_MAX, false)).
  split; [by intros ? ?%elem_of_nil | by left].
Qed.

(** No selectable boundary edge: the scan leaves its initial values. *)
Lemma min_scan_none G vT :
  (∀ e, e ∈ G → boundary vT e → (INT_MAX ≤ getW e)%Z) →
  min_scan G vT = (0, INT_MAX, false).
Proof.
  intros Hnone. destruct (min_scan_scanned G vT) as [_ [H|(e & Hl & Hb & Hw & Hlt & _)]];
    [done|].
  apply list_elem_of_lookup_2 in Hl. specialize (Hnone e Hl Hb). lia.
Qed.

(** A selectable boundary edge: the scan returns a lightest boundary edge
    and tells which of its endpoints is in the frontier. *)
Lemma min_scan_some G vT e0 :
  e0 ∈ G → boundary vT e0 → (getW e0 < INT_MAX)%Z →
  ∃ i e, min_scan G vT = (i, getW e, bool_decide (getU e ∈ vT)) ∧
         G !! i = Some e ∧ boundary vT e ∧
         ∀ e', e' ∈ G → boundary vT e' → (getW e ≤ getW e')%Z.
Proof.
  intros He0 Hb0 Hw0. destruct (min_scan_scanned G vT) as [Hmin Hsel].
  destruct (min_scan G vT) as [[i mw] r]. simpl in *.
  destruct Hsel as [[= -> -> ->]|(e & Hl & Hb & Hw & Hlt & ->)].
  - specialize (Hmin e0 He0 Hb0). lia.
  - exists i, e. subst mw. done.
Qed.

Lemma min_incident_some G vT e0 :
  e0 ∈ G → boundary vT e0 → (getW e0 < INT_MAX)%Z →
  ∃ i e x y, min_incident G vT = Done (i, vT ++ [x]) ∧
             G !! i = Some e ∧ boundary vT e ∧ joins e x y ∧ ¬ x ∈ vT ∧ y ∈ vT ∧
             ∀ e', e' ∈ G → boundary vT e' → (getW e ≤ getW e')%Z.
Proof.
  intros He0 Hb0 Hw0.
  destruct (min_scan_some G vT e0 He0 Hb0 Hw0) as (i & e & Hscan & Hl & Hb & Hmin).
  unfold min_incident, at_index. rewrite Hscan, Hl, bind_Done.
  destruct Hb as [[Hu Hv]|[Hu Hv]].
  - rewrite bool_decide_eq_true_2 by done.
    exists i, e, (getV e), (getU e). repeat split; auto; [by left|]. right; done.
  - rewrite bool_decide_eq_false_2 by done.
    exists i, e, (getU e), (getV e). repeat split; auto; [by right|]. left; done.
Qed.

(** C6, as amended.  When [G] holds at least one edge and no edge of [G]
    has exactly one endpoint in [vT], [min_incident] finishes its scan
    with [minIndex = 0] and [result_uMatch = false]: it returns index 0,
    the edge it hands back is the edge at index 0 of [G], and the vertex
    it appends to [vT] is the endpoint [getU()] of that edge. *)
Theorem min_incident_no_boundary G vT e0 :
  G !! 0 = Some e0 →
  (∀ e, e ∈ G → ¬ boundary vT e) →
  min_scan G vT = (0, INT_MAX, false) ∧
  min_incident G vT = Done (0, vT ++ [getU e0]).
Proof.
  intros He0 Hnone.
  assert (min_scan G vT = (0, INT_MAX, false)) as Hscan.
  { apply min_scan_none. intros e He Hb. by destruct (Hnone e He). }
  split; [exact Hscan|].
  unfold min_incident, at_index. by rewrite Hscan, He0.
Qed.

Lemma min_incident_no_boundary_witness :
  min_scan [mkWeightedEdge 1 0 5; mkWeightedEdge 3 2 1] [0; 1]%Z = (0, INT_MAX, false) ∧
  min_incident [mkWeightedEdge 1 0 5; mkWeightedEdge 3 2 1] [0; 1]%Z
  = Done (0, [0; 1]%Z ++ [getU (mkWeightedEdge 1 0 5)]).
Proof.
  apply (min_incident_no_boundary
           [mkWeightedEdge 1 0 5; mkWeightedEdge 3 2 1] [0; 1]%Z
           (mkWeightedEdge 1 0 5) eq_refl).
  apply (proj1 (Forall_forall (fun e => ¬ boundary [0; 1]%Z e) _)).
  apply (bool_decide_unpack (Forall _ _)). vm_compute. exact I.
Defined.

(** C6, as stated, fails on the empty graph that the claim names: no edge
    of an empty [G] has an endpoint in [vT], the scan ends with
    [minIndex = 0], and [min_incident] then reads [G[0]] of an empty
    vector; there is no edge at index 0 to select again. *)
Lemma min_incident_empty_graph :
  (∀ vT e, e ∈ ([] : list WeightedEdge) → ¬ boundary vT e) ∧
  (∀ vT, min_scan [] vT = (0, INT_MAX, false)) ∧
  (∀ vT, min_incident [] vT = OutOfBounds).
Proof.
  split; [|split].
  - intros vT e He. by apply elem_of_nil in He.
  - reflexivity.
  - reflexivity.
Qed.

(** In every turn of the loop of [spanning_tree] the graph has an edge:
    the seeding of [vT] has read [G[0]]. *)
Lemma prim_visits_edge G vertexCount st :
  prim_visits G vertexCount st → ∃ e0, G !! 0 = Some e0.
Proof. induction 1 as [e0 He0|]; [by exists e0|done]. Qed.

(** ** Walks and connection *)

Lemma joins_sym e x y : joins e x y → joins e y x.
Proof. unfold joins. tauto. Qed.

Lemma joins_same e x y p q : joins e x y → joins e p q → (x = p ∧ y = q) ∨ (x = q ∧ y = p).
Proof. unfold joins. intros [[<- <-]|[<- <-]] [[<- <-]|[<- <-]]; auto. Qed.

Lemma connected_refl E x : connected E x x.
Proof. exists 0. constructor. Qed.

Lemma connected_cons E e x y z : e ∈ E → joins e x y → connected E y z → connected E x z.
Proof. intros He Hj [n Hw]. exists (S n). by apply (walk_step E n e x y z). Qed.

Lemma connected_edge E e x y : e ∈ E → joins e x y → connected E x y.
Proof. intros He Hj. apply (connected_cons E e x y y); auto using connected_refl. Qed.

Lemma connected_trans E x y z : connected E x y → connected E y z → connected E x z.
Proof.
  intros [n Hw] Hyz. induction Hw as [x|n e x y' y He Hj Hw IH]; [done|].
  apply (connected_cons E e x y'); auto.
Qed.

Lemma connected_sym E x y : connected E x y → connected E y x.
Proof.
  intros [n Hw]. induction Hw as [x|n e x y' y He Hj Hw IH]; [apply connected_refl|].
  apply (connected_trans E y y' x); [done|].
  apply (connected_edge E e); auto using joins_sym.
Qed.

(** Every edge of [E] can be replaced by a connection in [E']. *)
Lemma connected_reroute E E' x y :
  (∀ e a b, e ∈ E → joins e a b → connected E' a b) →
  connected E x y → connected E' x y.
Proof.
  intros Hre [n Hw]. induction Hw as [x|n e x y' y He Hj Hw IH]; [apply connected_refl|].
  apply (connected_trans E' x y' y); eauto.
Qed.

Lemma connected_mono E E' x y :
  (∀ e, e ∈ E → e ∈ E') → connected E x y → connected E' x y.
Proof. intros Hsub. apply connected_reroute. intros e a b He Hj. apply (connected_edge E' e); auto. Qed.

(** A walk between distinct vertices starts with an edge at its origin. *)
Lemma connected_touches E x y : connected E x y → x ≠ y → touches E x.
Proof.
  intros [n Hw] Hne. destruct Hw as [x|n e x y' y He Hj Hw]; [done|].
  exists e. split; [done|]. destruct Hj as [[? _]|[_ ?]]; auto.
Qed.

(** A walk either avoids the edge [g], or passes one of the ends of [g]
    with fewer steps left to go. *)
Lemma walk_avoid E g p q m y b :
  joins g p q → walk E m y b →
  connected (filter (fun h => h ≠ g) E) y b ∨
  ∃ m', m' < m ∧ (walk E m' p b ∨ walk E m' q b).
Proof.
  intros Hg Hw. induction Hw as [y|m h y y1 b Hh Hj Hw IH].
  - left. apply connected_refl.
  - destruct (decide (h = g)) as [->|Hne].
    + right. exists m. split; [lia|].
      destruct (joins_same g y y1 p q Hj Hg) as [[_ <-]|[_ <-]]; auto.
    + destruct IH as [IH|(m' & Hm' & IH)].
      * left. apply (connected_cons _ h y y1); auto.
        apply list_elem_of_filter. done.
      * right. exists m'. split; [lia|done].
Qed.

Section crossing.
Context (A : Z → Prop) `{!∀ x, Decision (A x)}.

(** A walk that leaves [A] crosses its border by an edge [f] that the
    rest of the walk can do without: the origin reaches the inner end of
    [f], and the outer end of [f] reaches the destination, both without
    [f]. *)
Lemma crossing_edge E n :
  ∀ x b, walk E n x b → A x → ¬ A b →
  ∃ f c d, f ∈ E ∧ joins f c d ∧ A c ∧ ¬ A d ∧
           connected (filter (fun h => h ≠ f) E) x c ∧
           connected (filter (fun h => h ≠ f) E) d b.
Proof.
  induction (lt_wf n) as [n _ IH]. intros x b Hw Hx Hb.
  destruct Hw as [x|m h x x1 b Hh Hj Hw]; [done|].
  destruct (decide (A x1)) as [Hx1|Hx1].
  - destruct (IH m (Nat.lt_succ_diag_r m) x1 b Hw Hx1 Hb)
      as (f & c & d & Hf & Hjf & Hc & Hd & Hxc & Hdb).
    exists f, c, d. split; [done|]. split; [done|]. split; [done|]. split; [done|].
    split; [|done].
    apply (connected_cons _ h x x1); [|done|done].
    apply list_elem_of_filter. split; [|done].
    intros ->. destruct (joins_same f x x1 c d Hj Hjf) as [[_ <-]|[<- _]]; done.
  - destruct (walk_avoid E h x x1 m x1 b Hj Hw) as [Hav|(m' & Hm' & [Hw'|Hw'])].
    + exists h, x, x1. repeat split; auto. apply connected_refl.
    + apply (IH m'); auto; lia.
    + apply (IH (S m')); [lia| |done|done]. by apply (walk_step E m' h x x1 b).
Qed.

Lemma boundary_exists E x b :
  connected E x b → A x → ¬ A b → ∃ f c d, f ∈ E ∧ joins f c d ∧ A c ∧ ¬ A d.
Proof.
  intros [n Hw] Hx Hb.
  destruct (crossing_edge E n x b Hw Hx Hb) as (f & c & d & ? & ? & ? & ? & _).
  eauto 10.
Qed.
End crossing.

(** ** Weights *)

Lemma weight_app E1 E2 : weight (E1 ++ E2) = (weight E1 + weight E2)%Z.
Proof. induction E1 as [|e E1 IH]; simpl; lia. Qed.

Lemma weight_Permutation E1 E2 : E1 ≡ₚ E2 → weight E1 = weight E2.
Proof. induction 1; simpl; lia. Qed.

Lemma abs_weight_bound E : (Z.abs (weight E) ≤ abs_weight E)%Z.
Proof. induction E as [|e E IH]; simpl; lia. Qed.

Lemma abs_weight_submseteq E1 E2 : E1 ⊆+ E2 → (abs_weight E1 ≤ abs_weight E2)%Z.
Proof. induction 1; simpl; lia. Qed.

Lemma abs_weight_elem e E : e ∈ E → (Z.abs (getW e) ≤ abs_weight E)%Z.
Proof.
  intros He. induction E as [|e' E IH]; [by apply elem_of_nil in He|].
  assert (0 ≤ abs_weight E)%Z by (clear; induction E; simpl; lia).
  apply elem_of_cons in He as [->|He]; simpl; [lia|]. specialize (IH He). lia.
Qed.

Lemma wrap_int_small z : (INT_MIN ≤ z ≤ INT_MAX)%Z → wrap_int z = z.
Proof.
  unfold wrap_int, INT_MIN, INT_MAX. intros H. rewrite Z.mod_small; lia.
Qed.

Lemma wrap_int_add a b : wrap_int (wrap_int a + b) = wrap_int (a + b).
Proof.
  unfold wrap_int. f_equal.
  replace ((a + 2147483648) `mod` 4294967296 - 2147483648 + b + 2147483648)%Z
    with ((a + 2147483648) `mod` 4294967296 + b)%Z by lia.
  rewrite Zplus_mod_idemp_l. f_equal. lia.
Qed.

(** ** The Prim loop *)

Lemma outside_vertex (vertexCount : nat) (vT : list Z) :
  NoDup vT → length vT < vertexCount →
  ∃ x, is_vertex vertexCount x ∧ ¬ x ∈ vT.
Proof.
  intros Hnd Hlen.
  destruct (list_difference (seqZ 0 (Z.of_nat vertexCount)) vT) as [|x rest] eqn:E.
  - exfalso.
    assert (seqZ 0 (Z.of_nat vertexCount) ⊆+ vT) as Hsub.
    { apply NoDup_submseteq; [apply NoDup_seqZ|]. intros x Hx.
      destruct (decide (x ∈ vT)) as [|Hn]; [done|].
      assert (x ∈ list_difference (seqZ 0 (Z.of_nat vertexCount)) vT) as Hd
        by (apply list_elem_of_difference; done).
      rewrite E in Hd. by apply elem_of_nil in Hd. }
    apply submseteq_length in Hsub. rewrite length_seqZ in Hsub. lia.
  - assert (x ∈ list_difference (seqZ 0 (Z.of_nat vertexCount)) vT) as Hd
      by (rewrite E; left).
    apply list_elem_of_difference in Hd as [Hx Hn]. apply elem_of_seqZ in Hx.
    exists x. split; [unfold is_vertex; lia | done].
Qed.

Lemma all_vertices (vertexCount : nat) (vT : list Z) :
  NoDup vT → (∀ x, x ∈ vT → is_vertex vertexCount x) → length vT = vertexCount →
  ∀ x, is_vertex vertexCount x → x ∈ vT.
Proof.
  intros Hnd Hv Hlen x Hx.
  assert (vT ⊆+ seqZ 0 (Z.of_nat vertexCount)) as Hsub.
  { apply NoDup_submseteq; [done|]. intros y Hy%Hv. apply elem_of_seqZ.
    unfold is_vertex in Hy. lia. }
  apply submseteq_length_Permutation in Hsub; [|rewrite length_seqZ; lia].
  rewrite Hsub. apply elem_of_seqZ. unfold is_vertex in Hx. lia.
Qed.

Section prim_correct.
Context (G : list WeightedEdge) (vertexCount : nat).
Hypothesis Hends :
  ∀ e, e ∈ G → is_vertex vertexCount (getU e) ∧ is_vertex vertexCount (getV e).
Hypothesis Hconn : connected_graph vertexCount G.
Hypothesis Hlight : ∀ e, e ∈ G → (getW e < INT_MAX)%Z.

(** The cut property: adding a lightest boundary edge keeps [T]
    promising. *)
Lemma promising_snoc vT T e x y :
  (∀ g, g ∈ T → getU g ∈ vT ∧ getV g ∈ vT) →
  e ∈ G → joins e x y → ¬ x ∈ vT → y ∈ vT →
  (∀ e', e' ∈ G → boundary vT e' → (getW e ≤ getW e')%Z) →
  promising vertexCount G T → promising vertexCount G (T ++ [e]).
Proof using Hends.
  intros Hin He Hj Hx Hy Hmin Hprom S HS.
  destruct (Hprom S HS) as (S' & HS' & HTS' & Hw).
  destruct (decide (e ∈ S')) as [HeS|HeS].
  { exists S'. split; [done|]. split; [|done].
    intros g [Hg| ->%list_elem_of_singleton]%elem_of_app; auto. }
  destruct HS' as (Hnd & Hsub & Hlen & Hc).
  assert (is_vertex vertexCount x ∧ is_vertex vertexCount y) as [Hvx Hvy].
  { destruct (Hends e He) as [? ?], Hj as [[<- <-]|[<- <-]]; done. }
  destruct (Hc y x Hvy Hvx) as [n Hwalk].
  destruct (crossing_edge (fun z => z ∈ vT) S' n y x Hwalk Hy Hx)
    as (f & c & d & Hf & Hjf & Hc' & Hd & Hyc & Hdx).
  pose proof Hf as HfS.
  apply elem_of_Permutation in Hf as [S1 HP].
  rewrite HP in Hnd. apply NoDup_cons in Hnd as [HfS1 Hnd1].
  assert (∀ g, g ∈ S1 → g ∈ S') as HS1 by (intros g Hg; rewrite HP; by right).
  assert (∀ a b, connected (filter (fun h => h ≠ f) S') a b → connected (e :: S1) a b)
    as Hkeep.
  { intros a b. apply connected_mono. intros g [Hne Hg]%list_elem_of_filter.
    rewrite HP in Hg. apply elem_of_cons in Hg as [->|Hg]; [done|by right]. }
  assert (boundary vT f) as Hbf.
  { destruct Hjf as [[<- <-]|[<- <-]]; [left|right]; done. }
  exists (e :: S1). split; [split; [|split; [|split]]|split].
  - apply NoDup_cons. split; [|done]. intros HeS1. apply HeS. by apply HS1.
  - intros g [->|Hg]%elem_of_cons; [done|]. apply Hsub. by apply HS1.
  - apply Permutation_length in HP. simpl in *. lia.
  - intros a b Ha Hb. apply (connected_reroute S'); [|by apply Hc].
    intros g p q Hg Hjg. rewrite HP in Hg. apply elem_of_cons in Hg as [->|Hg].
    + assert (connected (e :: S1) c d) as Hcd.
      { apply (connected_trans _ c y d); [apply connected_sym, Hkeep, Hyc|].
        apply (connected_trans _ y x d); [|apply connected_sym, Hkeep, Hdx].
        apply (connected_edge _ e); [left|by apply joins_sym]. }
      destruct (joins_same f p q c d Hjg Hjf) as [[-> ->]|[-> ->]];
        [done|by apply connected_sym].
    + apply (connected_edge _ g); [by right|done].
  - intros g [Hg| ->%list_elem_of_singleton]%elem_of_app; [|left].
    pose proof (HTS' g Hg) as HgS. rewrite HP in HgS.
    apply elem_of_cons in HgS as [->|HgS]; [|by right].
    destruct (Hin f Hg) as [Hu Hv]. exfalso. apply Hd.
    destruct Hjf as [[_ <-]|[<- _]]; done.
  - apply weight_Permutation in HP. simpl in HP. simpl.
    specialize (Hmin f (Hsub f HfS) Hbf). lia.
Qed.

(** One turn of the loop, from a state in which the frontier does not yet
    hold every vertex. *)
Lemma prim_body_inv st :
  prim_inv G vertexCount st → length (vT st) < vertexCount →
  ∃ i e x y,
    min_incident G (vT st) = Done (i, vT st ++ [x]) ∧
    G !! i = Some e ∧ boundary (vT st) e ∧ joins e x y ∧ ¬ x ∈ vT st ∧ y ∈ vT st ∧
    prim_body G st
    = Done (mkPrim (vT st ++ [x]) (T st ++ [e]) (wrap_int (totalWeight st + getW e))) ∧
    prim_inv G vertexCount
      (mkPrim (vT st ++ [x]) (T st ++ [e]) (wrap_int (totalWeight st + getW e))).
Proof using Hends Hconn Hlight.
  intros (Hnd & Hv & Hlen & HndT & HTG & Hin & Hcon & Hprom & Htw) Hsmall.
  destruct (outside_vertex vertexCount (vT st) Hnd Hsmall) as (z & Hz & Hzout).
  destruct (vT st) as [|a rest] eqn:EvT; [simpl in Hlen; lia|]. rewrite <-EvT in *.
  assert (a ∈ vT st) as Ha by (rewrite EvT; left).
  destruct (boundary_exists (fun v => v ∈ vT st) G a z (Hconn a z (Hv a Ha) Hz) Ha Hzout)
    as (f & c & d & Hf & Hjf & Hc & Hd).
  assert (boundary (vT st) f) as Hbf.
  { destruct Hjf as [[<- <-]|[<- <-]]; [left|right]; done. }
  destruct (min_incident_some G (vT st) f Hf Hbf (Hlight f Hf))
    as (i & e & x & y & Hmi & Hl & Hb & Hj & Hx & Hy & Hmin).
  pose proof (list_elem_of_lookup_2 _ _ _ Hl) as He.
  exists i, e, x, y. do 6 (split; [done|]). split.
  { unfold prim_body, at_index. rewrite Hmi, bind_Done, Hl. reflexivity. }
  assert (is_vertex vertexCount x) as Hvx.
  { destruct (Hends e He) as [? ?], Hj as [[<- <-]|[<- <-]]; done. }
  unfold prim_inv. simpl. split; [|split; [|split; [|split; [|split; [|split; [|split; [|split]]]]]]].
  - apply NoDup_app. split; [done|]. split; [|apply NoDup_singleton].
    intros v Hv' ->%list_elem_of_singleton. done.
  - intros v [Hv'| ->%list_elem_of_singleton]%elem_of_app; auto.
  - rewrite !length_app. simpl. lia.
  - apply NoDup_app. split; [done|]. split; [|apply NoDup_singleton].
    intros g Hg ->%list_elem_of_singleton. destruct (Hin e Hg) as [Hu Hv'].
    destruct Hj as [[<- _]|[_ <-]]; done.
  - intros g [Hg| ->%list_elem_of_singleton]%elem_of_app; auto.
  - intros g [Hg| ->%list_elem_of_singleton]%elem_of_app.
    + destruct (Hin g Hg). split; apply elem_of_app; by left.
    + destruct Hj as [[<- <-]|[<- <-]]; split; apply elem_of_app;
        first [by left | right; apply list_elem_of_singleton; reflexivity].
  - assert (∀ p q, connected (T st) p q → connected (T st ++ [e]) p q) as Hup.
    { intros p q. apply connected_mono. intros g Hg. apply elem_of_app. by left. }
    assert (∀ p, p ∈ vT st → connected (T st ++ [e]) p x) as Hnew.
    { intros p Hp. apply (connected_trans _ p y x); [by apply Hup, Hcon|].
      apply (connected_edge _ e); [|by apply joins_sym].
      apply elem_of_app. right. by apply list_elem_of_singleton. }
    intros p q [Hp| ->%list_elem_of_singleton]%elem_of_app
                [Hq| ->%list_elem_of_singleton]%elem_of_app.
    + by apply Hup, Hcon.
    + by apply Hnew.
    + by apply connected_sym, Hnew.
    + apply connected_refl.
  - by apply (promising_snoc (vT st) (T st) e x y).
  - rewrite Htw, wrap_int_add, weight_app. simpl. f_equal. lia.
Qed.
End prim_correct.

Lemma uint_pred_small (n : nat) :
  1 ≤ n → (Z.of_nat n < 4294967296)%Z → uint_pred n = (Z.of_nat n - 1)%Z.
Proof. intros H1 H2. unfold uint_pred. rewrite Z.mod_small; lia. Qed.

Section prim_run.
Context (G : list WeightedEdge) (vertexCount : nat).
Hypothesis Hends :
  ∀ e, e ∈ G → is_vertex vertexCount (getU e) ∧ is_vertex vertexCount (getV e).
Hypothesis Hconn : connected_graph vertexCount G.
Hypothesis Hlight : ∀ e, e ∈ G → (getW e < INT_MAX)%Z.
Hypothesis Hcount : 2 ≤ vertexCount.
Hypothesis Huint : (Z.of_nat vertexCount < 4294967296)%Z.

Lemma prim_loop_runs k :
  ∀ st, prim_inv G vertexCount st → length (T st) + S k = vertexCount - 1 →
  ∃ st', (∀ fuel, S k ≤ fuel → prim_loop fuel G vertexCount st = Done st') ∧
         prim_inv G vertexCount st' ∧ length (T st') = vertexCount - 1.
Proof using Hends Hconn Hlight Hcount Huint.
  induction k as [|k IH]; intros st Hinv Hlen.
  - pose proof Hinv as (_ & _ & HvT & _).
    destruct (prim_body_inv G vertexCount Hends Hconn Hlight st Hinv)
      as (i & e & x & y & _ & _ & _ & _ & _ & _ & Hbody & Hinv'); [lia|].
    eexists. split; [|split; [exact Hinv'|]].
    + intros [|fuel] Hfuel; [lia|]. cbn [prim_loop]. rewrite Hbody, bind_Done.
      rewrite bool_decide_eq_false_2; [reflexivity|].
      cbn [T]. rewrite length_app, uint_pred_small by lia. simpl. lia.
    + cbn [T]. rewrite length_app. simpl. lia.
  - pose proof Hinv as (_ & _ & HvT & _).
    destruct (prim_body_inv G vertexCount Hends Hconn Hlight st Hinv)
      as (i & e & x & y & _ & _ & _ & _ & _ & _ & Hbody & Hinv'); [lia|].
    destruct (IH _ Hinv') as (st' & Hrun & Hinv'' & Hlen').
    { cbn [T]. rewrite length_app. simpl. lia. }
    exists st'. split; [|done].
    intros [|fuel] Hfuel; [lia|]. cbn [prim_loop]. rewrite Hbody, bind_Done.
    rewrite bool_decide_eq_true_2; [apply Hrun; lia|].
    cbn [T]. rewrite length_app, uint_pred_small by lia. simpl. lia.
Qed.

Lemma graph_has_edge : ∃ e0, G !! 0 = Some e0.
Proof using Hconn Hcount.
  destruct (connected_touches G 0 1) as (e & He & _); [|done|].
  { apply Hconn; unfold is_vertex; lia. }
  apply list_elem_of_lookup_1 in He as [i Hi]. apply lookup_lt_Some in Hi.
  apply lookup_lt_is_Some_2. lia.
Qed.

Lemma prim_inv_seed e0 :
  G !! 0 = Some e0 → prim_inv G vertexCount (mkPrim [getU e0] [] 0).
Proof using Hends.
  intros He0%list_elem_of_lookup_2. unfold prim_inv. simpl.
  split; [apply NoDup_singleton|]. split.
  { intros x ->%list_elem_of_singleton. by apply Hends. }
  split; [done|]. split; [apply NoDup_nil_2|]. split; [by intros ? ?%elem_of_nil|].
  split; [by intros ? ?%elem_of_nil|]. split.
  { intros x y ->%list_elem_of_singleton ->%list_elem_of_singleton. apply connected_refl. }
  split; [|reflexivity].
  intros S HS. exists S. split; [done|]. split; [by intros ? ?%elem_of_nil|reflexivity].
Qed.

(** Every state in which the loop calls [min_incident] satisfies the
    invariant and has a frontier that still misses a vertex. *)
Lemma prim_visits_inv st :
  prim_visits G vertexCount st →
  prim_inv G vertexCount st ∧ length (vT st) < vertexCount.
Proof using Hends Hconn Hlight Hcount Huint.
  induction 1 as [e0 He0|st st' Hvis [Hinv Hlt] Hbody Htest].
  - split; [by apply prim_inv_seed|]. simpl. lia.
  - destruct (prim_body_inv G vertexCount Hends Hconn Hlight st Hinv Hlt)
      as (i & e & x & y & _ & _ & _ & _ & _ & _ & Hbody' & Hinv').
    rewrite Hbody in Hbody'. injection Hbody' as ->. split; [done|].
    destruct Hinv' as (_ & _ & HvT & _). rewrite uint_pred_small in Htest by lia.
    cbn [vT T] in *. lia.
Qed.

Lemma prim_runs :
  ∃ st, (∀ fuel, vertexCount - 1 ≤ fuel → prim fuel G vertexCount = Done st) ∧
        prim_inv G vertexCount st ∧ length (T st) = vertexCount - 1.
Proof using Hends Hconn Hlight Hcount Huint.
  destruct graph_has_edge as [e0 He0].
  destruct (prim_loop_runs (vertexCount - 2) _ (prim_inv_seed e0 He0))
    as (st & Hrun & Hinv & Hlen); [simpl; lia|].
  exists st. split; [|done]. intros fuel Hfuel.
  unfold prim, at_index. rewrite He0, bind_Done. apply Hrun. lia.
Qed.

(** The tree the loop ends with is a minimum spanning tree. *)
Lemma prim_inv_final st :
  prim_inv G vertexCount st → length (T st) = vertexCount - 1 →
  (∀ x, is_vertex vertexCount x → touches (T st) x) ∧
  spanning_tree_of vertexCount G (T st) ∧
  (∀ S, spanning_tree_of vertexCount G S → (weight (T st) ≤ weight S)%Z).
Proof using Hcount.
  intros (Hnd & Hv & HvT & HndT & HTG & Hin & Hcon & Hprom & Htw) Hlen.
  assert (∀ x, is_vertex vertexCount x → x ∈ vT st) as Hall.
  { apply all_vertices; [done|done|lia]. }
  assert (connected_graph vertexCount (T st)) as HcT.
  { intros x y Hx Hy. apply Hcon; by apply Hall. }
  split; [|split].
  - intros x Hx. destruct (decide (x = 0%Z)) as [->|Hne].
    + apply (connected_touches _ 0 1); [|done]. apply HcT; unfold is_vertex; lia.
    + apply (connected_touches _ x 0); [|done]. apply HcT; [done|unfold is_vertex; lia].
  - done.
  - intros S HS. destruct (Hprom S HS) as (S' & (HndS' & _ & HlenS' & _) & Hsub & Hw).
    assert (T st ≡ₚ S') as HP.
    { apply submseteq_length_Permutation; [by apply NoDup_submseteq|lia]. }
    rewrite (weight_Permutation _ _ HP). done.
Qed.
End prim_run.

(** ** spanning_tree on the graph that create_graph built *)

Lemma create_graph_wf inputFile G vertexCount :
  create_graph inputFile [] = Done (G, vertexCount) →
  (Z.of_nat vertexCount < 4294967296)%Z ∧
  ∀ e, e ∈ G → is_vertex vertexCount (getU e) ∧ is_vertex vertexCount (getV e).
Proof.
  intros (cells & -> & Hv & _ & ->)%create_graph_Done. split; [done|].
  intros e He. cbn [app] in He. apply stored_endpoints in He. unfold is_vertex. lia.
Qed.

Lemma abs_weight_light G :
  (abs_weight G < INT_MAX)%Z → ∀ e, e ∈ G → (getW e < INT_MAX)%Z.
Proof. intros Hsum e He. pose proof (abs_weight_elem e G He). lia. Qed.

Lemma abs_weight_sums_fit vertexCount G : (abs_weight G < INT_MAX)%Z → sums_fit vertexCount G.
Proof.
  intros Hsum S Hnd Hsub _.
  pose proof (abs_weight_bound S).
  pose proof (abs_weight_submseteq S G (NoDup_submseteq _ _ Hnd Hsub)).
  unfold is_int, INT_MIN, INT_MAX in *. lia.
Qed.

(** X28.  For every connected weighted graph built by [create_graph] with
    [vertexCount >= 2], every weight below [INT_MAX] and every selection
    of at most [vertexCount - 1] edges summing to an [int], the Prim loop
    of [spanning_tree] terminates (after [vertexCount - 1] turns) with a
    tree [T] of exactly [vertexCount - 1] edges that touch every vertex of
    the graph, and with [totalWeight] equal to the weight of [T], which is
    the least weight of any spanning tree of the graph. *)
Theorem spanning_tree_minimum inputFile G vertexCount :
  create_graph inputFile [] = Done (G, vertexCount) →
  2 ≤ vertexCount →
  connected_graph vertexCount G →
  (∀ e, e ∈ G → (getW e < INT_MAX)%Z) →
  sums_fit vertexCount G →
  ∃ st, (∀ fuel, vertexCount - 1 ≤ fuel → spanning_tree fuel inputFile = Done st) ∧
        minimum_spanning_result vertexCount G st.
Proof.
  intros Hcreate Hcount Hconn Hlight Hfit.
  destruct (create_graph_wf _ _ _ Hcreate) as [Huint Hends].
  destruct (prim_runs G vertexCount Hends Hconn Hlight Hcount Huint)
    as (st & Hrun & Hinv & Hlen).
  destruct (prim_inv_final G vertexCount Hcount st Hinv Hlen) as (Htouch & Htree & Hmin).
  assert (totalWeight st = weight (T st)) as Htw.
  { destruct Hinv as (_ & _ & _ & HndT & HTG & _ & _ & _ & ->).
    apply wrap_int_small. apply Hfit; [done|done|lia]. }
  exists st. split.
  - intros fuel Hfuel. unfold spanning_tree. rewrite Hcreate, bind_Done. by apply Hrun.
  - split; [done|]. split; [done|]. split; [done|]. split; [done|].
    intros S HS. rewrite Htw. by apply Hmin.
Qed.

(** The graph of the worked example: four vertices, edges 0-1 (1), 0-2
    (4), 1-2 (2), 1-3 (5) and 2-3 (3). *)
Lemma example_graph_connected :
  connected_graph 4
    [mkWeightedEdge 1 0 1; mkWeightedEdge 2 0 4; mkWeightedEdge 2 1 2;
     mkWeightedEdge 3 1 5; mkWeightedEdge 3 2 3].
Proof.
  set (G := [mkWeightedEdge 1 0 1; mkWeightedEdge 2 0 4; mkWeightedEdge 2 1 2;
             mkWeightedEdge 3 1 5; mkWeightedEdge 3 2 3]).
  assert (∀ x, is_vertex 4 x → connected G 0 x) as H0.
  { intros x Hx.
    assert (x = 0 ∨ x = 1 ∨ x = 2 ∨ x = 3)%Z as [->|[->|[->| ->]]]
      by (unfold is_vertex in Hx; lia).
    - apply connected_refl.
    - apply (connected_edge G (mkWeightedEdge 1 0 1)); [repeat constructor|by right].
    - apply (connected_edge G (mkWeightedEdge 2 0 4)); [repeat constructor|by right].
    - apply (connected_cons G (mkWeightedEdge 1 0 1) 0 1); [repeat constructor|by right|].
      apply (connected_edge G (mkWeightedEdge 3 1 5)); [repeat constructor|by right]. }
  intros x y Hx Hy. apply (connected_trans G x 0 y); [apply connected_sym|]; by apply H0.
Qed.

(** The triangle with weights 1, 1 and 2147483646: the weights sum to more
    than [INT_MAX], but no two of them do. *)
Lemma heavy_triangle_fits :
  connected_graph 3 [mkWeightedEdge 1 0 1; mkWeightedEdge 2 0 1; mkWeightedEdge 2 1 2147483646] ∧
  (∀ e, e ∈ [mkWeightedEdge 1 0 1; mkWeightedEdge 2 0 1; mkWeightedEdge 2 1 2147483646] →
        (getW e < INT_MAX)%Z) ∧
  sums_fit 3 [mkWeightedEdge 1 0 1; mkWeightedEdge 2 0 1; mkWeightedEdge 2 1 2147483646].
Proof.
  set (G := [mkWeightedEdge 1 0 1; mkWeightedEdge 2 0 1; mkWeightedEdge 2 1 2147483646]).
  assert (∀ e, e ∈ G → e = mkWeightedEdge 1 0 1 ∨ e = mkWeightedEdge 2 0 1
                       ∨ e = mkWeightedEdge 2 1 2147483646) as Hcases.
  { intros e He. unfold G in He. rewrite !elem_of_cons, elem_of_nil in He. tauto. }
  split; [|split].
  - assert (∀ z, is_vertex 3 z → connected G 0 z) as H0.
    { intros z Hz.
      assert (z = 0 ∨ z = 1 ∨ z = 2)%Z as [->|[->| ->]] by (unfold is_vertex in Hz; lia).
      - apply connected_refl.
      - apply (connected_edge G (mkWeightedEdge 1 0 1)); [repeat constructor|by right].
      - apply (connected_edge G (mkWeightedEdge 2 0 1)); [repeat constructor|by right]. }
    intros x y Hx Hy. apply (connected_trans G x 0 y); [apply connected_sym|]; by apply H0.
  - intros e [->|[->| ->]]%Hcases; reflexivity.
  - intros S Hnd Hsub Hlen.
    destruct S as [|a [|b [|c S]]]; [by vm_compute| | |cbn in Hlen; lia].
    + destruct (Hcases a) as [->|[->| ->]]; [apply Hsub; left|..]; split; by vm_compute.
    + apply NoDup_cons in Hnd as [Hab _].
      assert (a ≠ b) as Hne by (intros ->; apply Hab; left).
      destruct (Hcases a) as [->|[->| ->]]; [apply Hsub; left|..];
        (destruct (Hcases b) as [->|[->| ->]]; [apply Hsub; right; left|..]);
        first [done | split; by vm_compute].
Qed.

Lemma spanning_tree_minimum_witness :
  (spanning_tree 3 [4; 0; 1; 4; 0; 1; 0; 2; 5; 4; 2; 0; 3; 0; 5; 3; 0]%Z
   = Done (mkPrim [1; 0; 2; 3]%Z
             [mkWeightedEdge 1 0 1; mkWeightedEdge 2 1 2; mkWeightedEdge 3 2 3] 6) ∧
   minimum_spanning_result 4
     [mkWeightedEdge 1 0 1; mkWeightedEdge 2 0 4; mkWeightedEdge 2 1 2;
      mkWeightedEdge 3 1 5; mkWeightedEdge 3 2 3]
     (mkPrim [1; 0; 2; 3]%Z
        [mkWeightedEdge 1 0 1; mkWeightedEdge 2 1 2; mkWeightedEdge 3 2 3] 6)) ∧
  (spanning_tree 2 [3; 0; 1; 1; 1; 0; 2147483646; 1; 2147483646; 0]%Z
   = Done (mkPrim [1; 0; 2]%Z [mkWeightedEdge 1 0 1; mkWeightedEdge 2 0 1] 2) ∧
   minimum_spanning_result 3
     [mkWeightedEdge 1 0 1; mkWeightedEdge 2 0 1; mkWeightedEdge 2 1 2147483646]
     (mkPrim [1; 0; 2]%Z [mkWeightedEdge 1 0 1; mkWeightedEdge 2 0 1] 2)).
Proof.
  split.
  - destruct (spanning_tree_minimum
                [4; 0; 1; 4; 0; 1; 0; 2; 5; 4; 2; 0; 3; 0; 5; 3; 0]%Z
                [mkWeightedEdge 1 0 1; mkWeightedEdge 2 0 4; mkWeightedEdge 2 1 2;
                 mkWeightedEdge 3 1 5; mkWeightedEdge 3 2 3] 4)
      as (st & Hrun & Hres).
    + reflexivity.
    + lia.
    + exact example_graph_connected.
    + apply abs_weight_light. reflexivity.
    + apply abs_weight_sums_fit. reflexivity.
    + specialize (Hrun 3 (le_n 3)). vm_compute in Hrun. injection Hrun as <-.
      split; [reflexivity|exact Hres].
  - destruct heavy_triangle_fits as (Hconn & Hlight & Hfit).
    destruct (spanning_tree_minimum
                [3; 0; 1; 1; 1; 0; 2147483646; 1; 2147483646; 0]%Z
                [mkWeightedEdge 1 0 1; mkWeightedEdge 2 0 1; mkWeightedEdge 2 1 2147483646] 3
                eq_refl (le_S _ _ (le_n 2)) Hconn Hlight Hfit)
      as (st & Hrun & Hres).
    specialize (Hrun 2 (le_n 2)). vm_compute in Hrun. injection Hrun as <-.
    split; [reflexivity|exact Hres].
Defined.

(** On the one-vertex graph whose matrix is [[7]] the body of the
    [do ... while] runs once before the test: the loop ends with one edge
    in [T] and a total of 7, where [vertexCount - 1] is 0. *)
Lemma single_vertex_run :
  create_graph [1; 7]%Z [] = Done ([mkWeightedEdge 0 0 7], 1) ∧
  connected_graph 1 [mkWeightedEdge 0 0 7] ∧
  spanning_tree 1 [1; 7]%Z = Done (mkPrim [0; 0]%Z [mkWeightedEdge 0 0 7] 7) ∧
  ∀ fuel st, spanning_tree fuel [1; 7]%Z = Done st →
             ¬ minimum_spanning_result 1 [mkWeightedEdge 0 0 7] st.
Proof.
  split; [reflexivity|]. split.
  { intros x y Hx Hy. unfold is_vertex in *.
    assert (x = y) as -> by lia. apply connected_refl. }
  split; [reflexivity|].
  intros [|fuel] st Hrun; [discriminate|].
  vm_compute in Hrun. injection Hrun as <-. intros [Hlen _]. discriminate Hlen.
Qed.

(** The one-vertex graph without a loop has no edge at all: the seeding
    [G[0].getU()] already reads outside [G]. *)
Lemma spanning_tree_no_edge fuel : spanning_tree fuel [1; 0]%Z = OutOfBounds.
Proof. reflexivity. Qed.

(** An edge as heavy as [INT_MAX] is never selected, since [minWeight]
    starts at [INT_MAX] and the comparison is strict: on the path 0-1-2
    with both weights [INT_MAX] the loop takes the edge at index 0 twice,
    never reaches vertex 2, and the total wraps round. *)
Lemma sentinel_weight_run :
  create_graph [3; 0; 2147483647; 0; 2147483647; 0; 2147483647; 0; 2147483647; 0]%Z []
  = Done ([mkWeightedEdge 1 0 2147483647; mkWeightedEdge 2 1 2147483647], 3) ∧
  connected_graph 3 [mkWeightedEdge 1 0 2147483647; mkWeightedEdge 2 1 2147483647] ∧
  spanning_tree 2 [3; 0; 2147483647; 0; 2147483647; 0; 2147483647; 0; 2147483647; 0]%Z
  = Done (mkPrim [1; 1; 1]%Z
            [mkWeightedEdge 1 0 2147483647; mkWeightedEdge 1 0 2147483647] (-2)) ∧
  ∀ fuel st,
    spanning_tree fuel
      [3; 0; 2147483647; 0; 2147483647; 0; 2147483647; 0; 2147483647; 0]%Z = Done st →
    ¬ minimum_spanning_result 3
        [mkWeightedEdge 1 0 2147483647; mkWeightedEdge 2 1 2147483647] st.
Proof.
  split; [reflexivity|]. split.
  { set (G := [mkWeightedEdge 1 0 2147483647; mkWeightedEdge 2 1 2147483647]).
    assert (∀ z, is_vertex 3 z → connected G 1 z) as H1.
    { intros z Hz.
      assert (z = 0 ∨ z = 1 ∨ z = 2)%Z as [->|[->| ->]] by (unfold is_vertex in Hz; lia).
      - apply (connected_edge G (mkWeightedEdge 1 0 2147483647)); [repeat constructor|by left].
      - apply connected_refl.
      - apply (connected_edge G (mkWeightedEdge 2 1 2147483647)); [repeat constructor|by right]. }
    intros x y Hx Hy. apply (connected_trans G x 1 y); [apply connected_sym|]; by apply H1. }
  split; [reflexivity|].
  intros [|[|fuel]] st Hrun; [discriminate..|].
  vm_compute in Hrun. injection Hrun as <-. intros (_ & _ & (Hnd & _) & _).
  simpl in Hnd. apply NoDup_cons in Hnd as [Hin _]. apply Hin. left.
Qed.

(** The weight [INT_MAX] again, with no sum leaving [int]: on the path
    0-1-2 with weights -1 and [INT_MAX] the first turn takes the edge at
    index 0; in the second the only boundary edge weighs [INT_MAX], is
    passed over, and the edge at index 0 is taken once more.  The spanning
    tree of the graph weighs 2147483646. *)
Lemma sentinel_weight_in_range_run :
  create_graph [3; 0; -1; 0; -1; 0; 2147483647; 0; 2147483647; 0]%Z []
  = Done ([mkWeightedEdge 1 0 (-1); mkWeightedEdge 2 1 2147483647], 3) ∧
  connected_graph 3 [mkWeightedEdge 1 0 (-1); mkWeightedEdge 2 1 2147483647] ∧
  spanning_tree 2 [3; 0; -1; 0; -1; 0; 2147483647; 0; 2147483647; 0]%Z
  = Done (mkPrim [1; 0; 1]%Z [mkWeightedEdge 1 0 (-1); mkWeightedEdge 1 0 (-1)] (-2)) ∧
  ∀ fuel st,
    spanning_tree fuel [3; 0; -1; 0; -1; 0; 2147483647; 0; 2147483647; 0]%Z = Done st →
    ¬ minimum_spanning_result 3
        [mkWeightedEdge 1 0 (-1); mkWeightedEdge 2 1 2147483647] st.
Proof.
  split; [reflexivity|]. split.
  { set (G := [mkWeightedEdge 1 0 (-1); mkWeightedEdge 2 1 2147483647]).
    assert (∀ z, is_vertex 3 z → connected G 1 z) as H1.
    { intros z Hz.
      assert (z = 0 ∨ z = 1 ∨ z = 2)%Z as [->|[->| ->]] by (unfold is_vertex in Hz; lia).
      - apply (connected_edge G (mkWeightedEdge 1 0 (-1))); [repeat constructor|by left].
      - apply connected_refl.
      - apply (connected_edge G (mkWeightedEdge 2 1 2147483647)); [repeat constructor|by right]. }
    intros x y Hx Hy. apply (connected_trans G x 1 y); [apply connected_sym|]; by apply H1. }
  split; [reflexivity|].
  intros [|[|fuel]] st Hrun; [discriminate..|].
  vm_compute in Hrun. injection Hrun as <-. intros (_ & _ & (Hnd & _) & _).
  simpl in Hnd. apply NoDup_cons in Hnd as [Hin _]. apply Hin. left.
Qed.

(** C1.  The code does not do what the claim says on three connected
    graphs.  At [vertexCount = 1] (matrix [[7]]) the body of the
    [do ... while] runs before the test and the loop ends with one edge in
    [T] instead of [vertexCount - 1 = 0].  On the path 0-1-2 with weights
    [INT_MAX], [INT_MAX] and on the path with weights -1, [INT_MAX] an edge
    as heavy as the starting value of [minWeight] is never selected: the
    edge at index 0 is taken twice, vertex 2 is never reached, [T] is no
    spanning tree and the total is not the least weight. *)
Theorem spanning_tree_not_minimum :
  (create_graph [1; 7]%Z [] = Done ([mkWeightedEdge 0 0 7], 1) ∧
   connected_graph 1 [mkWeightedEdge 0 0 7] ∧
   spanning_tree 1 [1; 7]%Z = Done (mkPrim [0; 0]%Z [mkWeightedEdge 0 0 7] 7) ∧
   ∀ fuel st, spanning_tree fuel [1; 7]%Z = Done st →
              ¬ minimum_spanning_result 1 [mkWeightedEdge 0 0 7] st) ∧
  (create_graph [3; 0; 2147483647; 0; 2147483647; 0; 2147483647; 0; 2147483647; 0]%Z []
   = Done ([mkWeightedEdge 1 0 2147483647; mkWeightedEdge 2 1 2147483647], 3) ∧
   connected_graph 3 [mkWeightedEdge 1 0 2147483647; mkWeightedEdge 2 1 2147483647] ∧
   spanning_tree 2 [3; 0; 2147483647; 0; 2147483647; 0; 2147483647; 0; 2147483647; 0]%Z
   = Done (mkPrim [1; 1; 1]%Z
             [mkWeightedEdge 1 0 2147483647; mkWeightedEdge 1 0 2147483647] (-2)) ∧
   ∀ fuel st,
     spanning_tree fuel
       [3; 0; 2147483647; 0; 2147483647; 0; 2147483647; 0; 2147483647; 0]%Z = Done st →
     ¬ minimum_spanning_result 3
         [mkWeightedEdge 1 0 2147483647; mkWeightedEdge 2 1 2147483647] st) ∧
  (create_graph [3; 0; -1; 0; -1; 0; 2147483647; 0; 2147483647; 0]%Z []
   = Done ([mkWeightedEdge 1 0 (-1); mkWeightedEdge 2 1 2147483647], 3) ∧
   connected_graph 3 [mkWeightedEdge 1 0 (-1); mkWeightedEdge 2 1 2147483647] ∧
   spanning_tree 2 [3; 0; -1; 0; -1; 0; 2147483647; 0; 2147483647; 0]%Z
   = Done (mkPrim [1; 0; 1]%Z [mkWeightedEdge 1 0 (-1); mkWeightedEdge 1 0 (-1)] (-2)) ∧
   ∀ fuel st,
     spanning_tree fuel [3; 0; -1; 0; -1; 0; 2147483647; 0; 2147483647; 0]%Z = Done st →
     ¬ minimum_spanning_result 3
         [mkWeightedEdge 1 0 (-1); mkWeightedEdge 2 1 2147483647] st).
Proof.
  exact (conj single_vertex_run (conj sentinel_weight_run sentinel_weight_in_range_run)).
Qed.

(** X29.  For every connected graph built by [create_graph]
    with [vertexCount >= 2] and every weight below [INT_MAX]: in every
    call that the loop of [spanning_tree] makes to [min_incident] a
    boundary edge exists, the edge selected is a boundary edge, the vertex
    appended to [vT] is the endpoint of that edge that was not yet in
    [vT], and [vT] holds pairwise distinct vertices after the call. *)
Theorem frontier_distinct inputFile G vertexCount :
  create_graph inputFile [] = Done (G, vertexCount) →
  2 ≤ vertexCount →
  connected_graph vertexCount G →
  (∀ e, e ∈ G → (getW e < INT_MAX)%Z) →
  ∀ st, prim_visits G vertexCount st →
        ∃ i e x y,
          min_incident G (vT st) = Done (i, vT st ++ [x]) ∧
          G !! i = Some e ∧ boundary (vT st) e ∧
          joins e x y ∧ ¬ x ∈ vT st ∧ y ∈ vT st ∧
          NoDup (vT st ++ [x]).
Proof.
  intros Hcreate Hcount Hconn Hlight st Hvis.
  destruct (create_graph_wf _ _ _ Hcreate) as [Huint Hends].
  destruct (prim_visits_inv G vertexCount Hends Hconn Hlight Hcount Huint st Hvis)
    as [Hinv Hlt].
  destruct (prim_body_inv G vertexCount Hends Hconn Hlight st Hinv Hlt)
    as (i & e & x & y & Hmi & Hl & Hb & Hj & Hx & Hy & _ & Hinv').
  exists i, e, x, y. do 6 (split; [done|]). by destruct Hinv' as [Hnd _].
Qed.

Lemma frontier_distinct_witness :
  ∃ i e x y,
    min_incident [mkWeightedEdge 1 0 5] [1]%Z = Done (i, [1]%Z ++ [x]) ∧
    [mkWeightedEdge 1 0 5] !! i = Some e ∧ boundary [1]%Z e ∧
    joins e x y ∧ ¬ x ∈ [1]%Z ∧ y ∈ [1]%Z ∧ NoDup ([1]%Z ++ [x]).
Proof.
  refine (frontier_distinct [2; 0; 5; 5; 0]%Z [mkWeightedEdge 1 0 5] 2
            eq_refl (le_n 2) _ _ (mkPrim [1]%Z [] 0) _).
  - intros x y Hx Hy.
    assert (∀ z, is_vertex 2 z → connected [mkWeightedEdge 1 0 5] 0 z) as H0.
    { intros z Hz. assert (z = 0 ∨ z = 1)%Z as [->| ->] by (unfold is_vertex in Hz; lia).
      - apply connected_refl.
      - apply (connected_edge _ (mkWeightedEdge 1 0 5)); [repeat constructor|by right]. }
    apply (connected_trans _ x 0 y); [apply connected_sym|]; by apply H0.
  - intros e ->%list_elem_of_singleton. reflexivity.
  - exact (visits_seed [mkWeightedEdge 1 0 5] 2 (mkWeightedEdge 1 0 5) eq_refl).
Defined.

(** C9.  The code does not do what the claim says on the connected
    two-vertex graph whose only edge weighs [INT_MAX]: that edge is a
    boundary edge of the seeded frontier, it is never selected because
    [minWeight] starts at [INT_MAX], and the call to [min_incident]
    appends [u = 1], which the frontier already holds, where the comment
    in the code says that [v] is added when [u] is in the tree. *)
Theorem frontier_repeats_vertex :
  create_graph [2; 0; 2147483647; 2147483647; 0]%Z []
  = Done ([mkWeightedEdge 1 0 2147483647], 2) ∧
  connected_graph 2 [mkWeightedEdge 1 0 2147483647] ∧
  prim_visits [mkWeightedEdge 1 0 2147483647] 2 (mkPrim [1]%Z [] 0) ∧
  boundary [1]%Z (mkWeightedEdge 1 0 2147483647) ∧
  min_incident [mkWeightedEdge 1 0 2147483647] [1]%Z = Done (0, [1; 1]%Z) ∧
  ¬ NoDup [1; 1]%Z.
Proof.
  split; [reflexivity|]. split.
  { intros x y Hx Hy.
    assert (∀ z, is_vertex 2 z → connected [mkWeightedEdge 1 0 2147483647] 0 z) as H0.
    { intros z Hz. assert (z = 0 ∨ z = 1)%Z as [->| ->] by (unfold is_vertex in Hz; lia).
      - apply connected_refl.
      - apply (connected_edge _ (mkWeightedEdge 1 0 2147483647)); [repeat constructor|by right]. }
    apply (connected_trans _ x 0 y); [apply connected_sym|]; by apply H0. }
  split.
  { exact (visits_seed [mkWeightedEdge 1 0 2147483647] 2
             (mkWeightedEdge 1 0 2147483647) eq_refl). }
  split; [left; split; [repeat constructor|by intros ?%list_elem_of_singleton]|]. split; [reflexivity|].
  intros [H _]%NoDup_cons. apply H. repeat constructor.
Qed.

(** ** Combinations and the colexicographic order *)

Lemma increasing_gap c i d x y :
  increasing c → c !! i = Some x → c !! (i + d) = Some y → (x + Z.of_nat d ≤ y)%Z.
Proof.
  intros Hinc Hx. revert y. induction d as [|d IH]; intros y Hy.
  - rewrite Nat.add_0_r in Hy. assert (x = y) by congruence. lia.
  - destruct (lookup_lt_is_Some_2 c (i + d)) as [z Hz].
    { apply lookup_lt_Some in Hy. lia. }
    specialize (IH z Hz).
    assert (z < y)%Z by (apply (Hinc (i + d) (i + S d)); [lia|done|done]). lia.
Qed.

Lemma combination_lower n m c i x :
  combination n m c → c !! i = Some x → (Z.of_nat i ≤ x)%Z.
Proof.
  intros (Hlen & Hinc & Hran) Hx.
  destruct (lookup_lt_is_Some_2 c 0) as [x0 Hx0].
  { apply lookup_lt_Some in Hx. lia. }
  pose proof (increasing_gap c 0 i x0 x Hinc Hx0 Hx). specialize (Hran 0 x0 Hx0). lia.
Qed.

Lemma combination_upper n m c i x :
  combination n m c → c !! i = Some x → (x ≤ n - Z.of_nat m + Z.of_nat i)%Z.
Proof.
  intros (Hlen & Hinc & Hran) Hx. pose proof (lookup_lt_Some _ _ _ Hx) as Hi.
  destruct (lookup_lt_is_Some_2 c (i + (m - 1 - i))) as [y Hy]; [lia|].
  pose proof (increasing_gap c i _ x y Hinc Hx Hy). specialize (Hran _ y Hy). lia.
Qed.

Lemma max_combination_lookup n m i :
  i < m → max_combination n m !! i = Some (n - Z.of_nat m + Z.of_nat i)%Z.
Proof.
  intros Hi. unfold max_combination. rewrite list_lookup_fmap, lookup_seq_lt by done.
  reflexivity.
Qed.

Lemma min_combination_lookup m i : i < m → min_combination m !! i = Some (Z.of_nat i).
Proof.
  intros Hi. unfold min_combination. rewrite list_lookup_fmap, lookup_seq_lt by done.
  reflexivity.
Qed.

Lemma length_max_combination n m : length (max_combination n m) = m.
Proof. unfold max_combination. by rewrite length_fmap, length_seq. Qed.

Lemma length_min_combination m : length (min_combination m) = m.
Proof. unfold min_combination. by rewrite length_fmap, length_seq. Qed.

Lemma max_combination_valid n m : (Z.of_nat m ≤ n)%Z → combination n m (max_combination n m).
Proof.
  intros Hnm. split; [apply length_max_combination|]. split.
  - intros i j x y Hij Hx Hy.
    pose proof (lookup_lt_Some _ _ _ Hx) as Hi. pose proof (lookup_lt_Some _ _ _ Hy) as Hj.
    rewrite length_max_combination in Hi, Hj.
    rewrite max_combination_lookup in Hx, Hy by done.
    injection Hx as <-. injection Hy as <-. lia.
  - intros i x Hx. pose proof (lookup_lt_Some _ _ _ Hx) as Hi.
    rewrite length_max_combination in Hi. rewrite max_combination_lookup in Hx by done.
    injection Hx as <-. lia.
Qed.

Lemma min_combination_valid n m : (Z.of_nat m ≤ n)%Z → combination n m (min_combination m).
Proof.
  intros Hnm. split; [apply length_min_combination|]. split.
  - intros i j x y Hij Hx Hy.
    pose proof (lookup_lt_Some _ _ _ Hx) as Hi. pose proof (lookup_lt_Some _ _ _ Hy) as Hj.
    rewrite length_min_combination in Hi, Hj.
    rewrite min_combination_lookup in Hx, Hy by done.
    injection Hx as <-. injection Hy as <-. lia.
  - intros i x Hx. pose proof (lookup_lt_Some _ _ _ Hx) as Hi.
    rewrite length_min_combination in Hi. rewrite min_combination_lookup in Hx by done.
    injection Hx as <-. lia.
Qed.

(** An array whose entries are all at home is the least combination. *)
Lemma all_home_min m c :
  length c = m → (∀ i, i < m → c !! i = Some (Z.of_nat i)) → c = min_combination m.
Proof.
  intros Hlen Hhome. apply list_eq. intros i. destruct (decide (i < m)) as [Hi|Hi].
  - by rewrite Hhome, min_combination_lookup.
  - rewrite !lookup_ge_None_2; [done|rewrite length_min_combination; lia|lia].
Qed.

Lemma colex_lt_irrefl c : ¬ colex_lt c c.
Proof. intros (_ & j & x & y & Hx & Hy & Hlt & _). assert (x = y) by congruence. lia. Qed.

Lemma colex_lt_trans c1 c2 c3 : colex_lt c1 c2 → colex_lt c2 c3 → colex_lt c1 c3.
Proof.
  intros (Hl1 & j1 & x1 & y1 & Hx1 & Hy1 & Hlt1 & Hab1)
         (Hl2 & j2 & x2 & y2 & Hx2 & Hy2 & Hlt2 & Hab2).
  split; [congruence|].
  destruct (lt_eq_lt_dec j1 j2) as [[Hj|Hj]|Hj].
  - exists j2, x2, y2. rewrite (Hab1 j2 Hj). split; [done|]. split; [done|]. split; [done|].
    intros i Hi. rewrite Hab1 by lia. by apply Hab2.
  - subst j2. assert (y1 = x2) by congruence. subst x2.
    exists j1, x1, y2. split; [done|]. split; [done|]. split; [lia|].
    intros i Hi. rewrite Hab1 by lia. by apply Hab2.
  - exists j1, x1, y1. rewrite <-(Hab2 j1 Hj). split; [done|]. split; [done|]. split; [done|].
    intros i Hi. rewrite Hab1 by lia. apply Hab2. lia.
Qed.

(** Entry by entry below, so equal or colexicographically below. *)
Lemma pointwise_le_colex c c' :
  length c = length c' →
  (∀ i x y, c !! i = Some x → c' !! i = Some y → (x ≤ y)%Z) →
  c = c' ∨ colex_lt c c'.
Proof.
  revert c. induction c' as [|y c' IH] using rev_ind; intros c Hlen Hle.
  - left. by apply nil_length_inv.
  - destruct c as [|x c _] using rev_ind; [rewrite length_app in Hlen; simpl in Hlen; lia|].
    rewrite !length_app in Hlen. simpl in Hlen.
    assert (length c = length c') as Hlen' by lia.
    assert (x ≤ y)%Z as Hxy.
    { apply (Hle (length c)); [by rewrite lookup_app_r, Nat.sub_diag|].
      by rewrite Hlen', lookup_app_r, Nat.sub_diag. }
    destruct (decide (x = y)) as [->|Hne].
    + destruct (IH c Hlen') as [->|(_ & j & a & b & Ha & Hb & Hab & Habove)].
      * intros i a b Ha Hb. apply (Hle i); by apply lookup_app_l_Some.
      * by left.
      * right. split; [rewrite !length_app; simpl; lia|].
        exists j, a, b. split; [by apply lookup_app_l_Some|].
        split; [by apply lookup_app_l_Some|]. split; [done|].
        intros i Hi. destruct (decide (i < length c)) as [Hlt|Hge].
        -- rewrite !lookup_app_l by lia. by apply Habove.
        -- rewrite !lookup_app_r by lia. by rewrite Hlen'.
    + right. split; [rewrite !length_app; simpl; lia|].
      exists (length c), x, y. split; [by rewrite lookup_app_r, Nat.sub_diag|].
      split; [by rewrite Hlen', lookup_app_r, Nat.sub_diag|]. split; [lia|].
      intros i Hi. rewrite !lookup_ge_None_2; [done|rewrite length_app; simpl; lia..].
Qed.

Lemma colex_pred_lt c c' : colex_pred c c' → colex_lt c' c.
Proof.
  intros (Hlen & p & x & Hp & _ & _ & Hp' & _ & Habove). split; [done|].
  exists p, (x - 1)%Z, x. split; [done|]. split; [done|]. split; [lia|done].
Qed.

Lemma colex_pred_valid n m c c' :
  combination n m c → colex_pred c c' → combination n m c'.
Proof.
  intros Hc (Hlen & p & x & Hp & Hpx & Hhome & Hp' & Hbelow & Habove).
  pose proof Hc as (Hlenc & Hinc & Hran).
  assert (∀ i y, c' !! i = Some y →
                 (i < p ∧ y = (x - 1 - (Z.of_nat p - Z.of_nat i))%Z) ∨
                 (i = p ∧ y = (x - 1)%Z) ∨ (p < i ∧ c !! i = Some y)) as Hcase.
  { intros i y Hy. destruct (lt_eq_lt_dec i p) as [[Hi|Hi]|Hi].
    - left. rewrite Hbelow in Hy by done. split; [done|congruence].
    - right; left. subst i. split; [done|congruence].
    - right; right. split; [done|]. by rewrite <-Habove. }
  pose proof (Hran p x Hp) as Hxr.
  split; [congruence|]. split.
  - intros i j y z Hij Hy Hz.
    destruct (Hcase i y Hy) as [[Hi ->]|[[-> ->]|[Hi Hy']]],
             (Hcase j z Hz) as [[Hj ->]|[[-> ->]|[Hj Hz']]]; try lia.
    + pose proof (Hinc p j x z Hj Hp Hz'). lia.
    + pose proof (Hinc p j x z Hj Hp Hz'). lia.
    + by apply (Hinc i j).
  - intros i y Hy. destruct (Hcase i y Hy) as [[Hi ->]|[[-> ->]|[Hi Hy']]]; [lia|lia|].
    by apply (Hran i).
Qed.

(** Nothing lies strictly between an array and its predecessor. *)
Lemma colex_pred_greatest n m c c' c'' :
  combination n m c'' → colex_pred c c' → colex_lt c'' c →
  c'' = c' ∨ colex_lt c'' c'.
Proof.
  intros Hc'' (Hlen & p & x & Hp & Hpx & Hhome & Hp' & Hbelow & Habove)
         (Hlen'' & j & a & b & Ha & Hb & Hab & Hsame).
  destruct (lt_eq_lt_dec j p) as [[Hj|Hj]|Hj].
  - rewrite Hhome in Hb by done. injection Hb as <-.
    pose proof (combination_lower n m c'' j a Hc'' Ha). lia.
  - subst j. assert (b = x) by congruence. subst b.
    destruct (decide (a = x - 1)%Z) as [->|Hne].
    + apply pointwise_le_colex; [congruence|]. intros i y z Hy Hz.
      destruct (lt_eq_lt_dec i p) as [[Hi|Hi]|Hi].
      * rewrite Hbelow in Hz by done. injection Hz as <-.
        destruct Hc'' as (_ & Hinc & _).
        replace p with (i + (p - i)) in Ha by lia.
        pose proof (increasing_gap c'' i (p - i) y _ Hinc Hy Ha). lia.
      * subst i. assert (y = z) by congruence. lia.
      * rewrite Habove, <-Hsame in Hz by done. assert (y = z) by congruence. lia.
    + right. split; [congruence|]. exists p, a, (x - 1)%Z.
      split; [done|]. split; [done|]. split; [lia|].
      intros i Hi. rewrite Habove by done. by apply Hsame.
  - right. split; [congruence|]. exists j, a, b. split; [done|].
    split; [by rewrite Habove|]. split; [done|].
    intros i Hi. rewrite Habove by lia. by apply Hsame.
Qed.

Lemma colex_min_least n m c : combination n m c → ¬ colex_lt c (min_combination m).
Proof.
  intros Hc (_ & j & x & y & Hx & Hy & Hlt & _).
  pose proof (lookup_lt_Some _ _ _ Hy) as Hj. rewrite length_min_combination in Hj.
  rewrite min_combination_lookup in Hy by done. injection Hy as <-.
  pose proof (combination_lower n m c j x Hc Hx). lia.
Qed.

Lemma colex_max_greatest n m c :
  combination n m c → c = max_combination n m ∨ colex_lt c (max_combination n m).
Proof.
  intros Hc. apply pointwise_le_colex.
  - destruct Hc as [-> _]. by rewrite length_max_combination.
  - intros i x y Hx Hy. pose proof (lookup_lt_Some _ _ _ Hy) as Hi.
    rewrite length_max_combination in Hi. rewrite max_combination_lookup in Hy by done.
    injection Hy as <-. by apply (combination_upper n m c).
Qed.

(** ** Descending sequences of combinations *)

Lemma descends_singleton c : descends [c].
Proof. intros i c1 c2 _ H. destruct i; discriminate. Qed.

Lemma descends_snoc ys c c' :
  descends ys → last ys = Some c → colex_pred c c' → descends (ys ++ [c']).
Proof.
  intros Hd Hlast Hp i c1 c2 H1 H2.
  pose proof (lookup_lt_Some _ _ _ H2) as Hi. rewrite length_app in Hi. simpl in Hi.
  destruct (decide (S i < length ys)) as [Hlt|Hge].
  - rewrite lookup_app_l in H1, H2 by lia. by apply (Hd i).
  - assert (S i = length ys) as Hi' by lia.
    rewrite lookup_app_l in H1 by lia. rewrite lookup_app_r, Hi', Nat.sub_diag in H2 by lia.
    injection H2 as <-. rewrite last_lookup, <-Hi' in Hlast. simpl in Hlast.
    by assert (c1 = c) as -> by congruence.
Qed.

Lemma descends_tail y ys : descends (y :: ys) → descends ys.
Proof. intros Hd i c c' H1 H2. by apply (Hd (S i)). Qed.

Lemma descends_valid n m ys y :
  descends (y :: ys) → combination n m y → ∀ c, c ∈ y :: ys → combination n m c.
Proof.
  revert y. induction ys as [|y' ys IH]; intros y Hd Hy c Hc.
  - apply list_elem_of_singleton in Hc as ->. done.
  - apply elem_of_cons in Hc as [->|Hc]; [done|].
    apply (IH y'); [by apply (descends_tail y)| |done].
    apply (colex_pred_valid n m y); [done|]. by apply (Hd 0).
Qed.

Lemma descends_below y ys c :
  descends (y :: ys) → c ∈ ys → colex_lt c y.
Proof.
  revert y. induction ys as [|y' ys IH]; intros y Hd Hc; [by apply elem_of_nil in Hc|].
  assert (colex_lt y' y) as Hy' by (apply colex_pred_lt; by apply (Hd 0)).
  apply elem_of_cons in Hc as [->|Hc]; [done|].
  apply (colex_lt_trans c y' y); [|done]. apply IH; [by apply (descends_tail y)|done].
Qed.

Lemma descends_NoDup ys : descends ys → NoDup ys.
Proof.
  induction ys as [|y ys IH]; intros Hd; [apply NoDup_nil_2|].
  apply NoDup_cons. split; [|by apply IH, (descends_tail y)].
  intros Hin. by apply (colex_lt_irrefl y), (descends_below y ys).
Qed.

(** Strictly decreasing: every later array is colexicographically below
    every earlier one. *)
Lemma descends_decreasing ys i j c c' :
  descends ys → i < j → ys !! i = Some c → ys !! j = Some c' → colex_lt c' c.
Proof.
  revert i j. induction ys as [|y ys IH]; intros i j Hd Hij Hi Hj; [done|].
  destruct i as [|i], j as [|j]; try lia.
  - simpl in Hi, Hj. injection Hi as <-.
    apply (descends_below y ys); [done|]. by apply (list_elem_of_lookup_2 _ j).
  - simpl in Hi, Hj. apply (IH i j); [by apply (descends_tail y)|lia|done|done].
Qed.

(** A sequence that descends from [y] down to the least combination holds
    every combination that is not above [y]. *)
Lemma descends_covers n m ys y c :
  descends (y :: ys) → last (y :: ys) = Some (min_combination m) →
  combination n m c → (c = y ∨ colex_lt c y) → c ∈ y :: ys.
Proof.
  revert y. induction ys as [|y' ys IH]; intros y Hd Hlast Hc [->|Hlt]; [left|..|left|].
  - simpl in Hlast. injection Hlast as ->. by destruct (colex_min_least n m c).
  - right. apply (IH y'); [by apply (descends_tail y)|done|done|].
    apply (colex_pred_greatest n m y); [done| |done]. by apply (Hd 0).
Qed.

(** ** Counting the combinations *)

Lemma length_all_combinations n m : length (all_combinations n m) = binomial n m.
Proof.
  revert m. induction n as [|n IH]; intros [|m]; simpl; try reflexivity.
  rewrite length_app, length_fmap, !IH. lia.
Qed.

Lemma combination_nil n : combination n 0 [].
Proof. split; [done|]. split; [by intros i j x y _ ?|by intros i x ?]. Qed.

Lemma combination_weaken n n' m c : (n ≤ n')%Z → combination n m c → combination n' m c.
Proof.
  intros Hn (Hlen & Hinc & Hran). split; [done|]. split; [done|].
  intros i x Hx. specialize (Hran i x Hx). lia.
Qed.

Lemma combination_snoc (n : nat) m c :
  combination (Z.of_nat n) m c → combination (Z.of_nat (S n)) (S m) (c ++ [Z.of_nat n]).
Proof.
  intros (Hlen & Hinc & Hran). split; [rewrite length_app; simpl; lia|]. split.
  - intros i j x y Hij Hx Hy.
    pose proof (lookup_lt_Some _ _ _ Hy) as Hj. rewrite length_app in Hj. simpl in Hj.
    rewrite lookup_app_l in Hx by lia. destruct (decide (j < length c)) as [Hlt|Hge].
    + rewrite lookup_app_l in Hy by done. by apply (Hinc i j).
    + rewrite lookup_app_r in Hy by lia. replace (j - length c) with 0 in Hy by lia.
      injection Hy as <-. specialize (Hran i x Hx). lia.
  - intros i x Hx. destruct (decide (i < length c)) as [Hlt|Hge].
    + rewrite lookup_app_l in Hx by done. specialize (Hran i x Hx). lia.
    + rewrite lookup_app_r in Hx by lia. destruct (i - length c); [|by destruct n0].
      injection Hx as <-. lia.
Qed.

Lemma all_combinations_sound n m c :
  c ∈ all_combinations n m → combination (Z.of_nat n) m c.
Proof.
  revert m c. induction n as [|n IH]; intros [|m] c Hc; simpl in Hc.
  - apply list_elem_of_singleton in Hc as ->. apply combination_nil.
  - by apply elem_of_nil in Hc.
  - apply list_elem_of_singleton in Hc as ->. apply combination_nil.
  - apply elem_of_app in Hc as [Hc|Hc].
    + apply (combination_weaken (Z.of_nat n)); [lia|]. by apply IH.
    + apply list_elem_of_fmap in Hc as (c0 & -> & Hc0). by apply combination_snoc, IH.
Qed.

Lemma all_combinations_complete n m c :
  combination (Z.of_nat n) m c → c ∈ all_combinations n m.
Proof.
  revert m c. induction n as [|n IH]; intros m c (Hlen & Hinc & Hran).
  - destruct c as [|x c]; [|specialize (Hran 0 x eq_refl); lia].
    simpl in Hlen. subst m. simpl. by apply list_elem_of_singleton.
  - destruct m as [|m].
    { apply nil_length_inv in Hlen as ->. simpl. by apply list_elem_of_singleton. }
    destruct c as [|x c _] using rev_ind; [done|].
    rewrite length_app in Hlen. simpl in Hlen.
    assert (length c = m) as Hlenc by lia.
    assert ((c ++ [x]) !! length c = Some x) as Hlast
      by (by rewrite lookup_app_r, Nat.sub_diag).
    pose proof (Hran _ x Hlast) as Hx.
    simpl. apply elem_of_app. destruct (decide (x = Z.of_nat n)) as [->|Hne].
    + right. apply list_elem_of_fmap. exists c. split; [done|]. apply IH.
      split; [done|]. split.
      * intros i j a b Hij Ha Hb. apply (Hinc i j); [done|by apply lookup_app_l_Some..].
      * intros i a Ha. pose proof (lookup_lt_Some _ _ _ Ha) as Hi.
        assert (a < Z.of_nat n)%Z
          by (apply (Hinc i (length c)); [done|by apply lookup_app_l_Some|done]).
        specialize (Hran i a (lookup_app_l_Some _ _ _ _ Ha)). lia.
    + left. apply IH. split; [rewrite length_app; simpl; lia|]. split; [done|].
      intros i a Ha. pose proof (Hran i a Ha) as Har.
      pose proof (lookup_lt_Some _ _ _ Ha) as Hi. rewrite length_app in Hi. simpl in Hi.
      destruct (decide (i = length c)) as [->|Hi'].
      * assert (a = x) by congruence. lia.
      * assert (a < x)%Z by (apply (Hinc i (length c)); [lia|done|done]). lia.
Qed.

Lemma NoDup_all_combinations n m : NoDup (all_combinations n m).
Proof.
  revert m. induction n as [|n IH]; intros [|m]; simpl;
    [apply NoDup_singleton|apply NoDup_nil_2|apply NoDup_singleton|].
  apply NoDup_app. split; [apply IH|]. split.
  - intros c Hc (c0 & -> & _)%list_elem_of_fmap.
    apply all_combinations_sound in Hc as (_ & _ & Hran).
    specialize (Hran (length c0) (Z.of_nat n)).
    rewrite lookup_app_r, Nat.sub_diag in Hran by lia. specialize (Hran eq_refl). lia.
  - apply NoDup_fmap_2_strong; [|apply IH].
    intros c1 c2 _ _ Heq. by apply app_inj_tail in Heq as [? _].
Qed.

(** A sequence that descends from the greatest combination to the least
    one lists every combination exactly once. *)
Lemma descent_enumerates (n m : nat) ys :
  m ≤ n → descends ys →
  head ys = Some (max_combination (Z.of_nat n) m) →
  last ys = Some (min_combination m) →
  (∀ c, c ∈ ys ↔ combination (Z.of_nat n) m c) ∧ NoDup ys ∧ length ys = binomial n m.
Proof.
  intros Hnm Hd Hhead Hlast. destruct ys as [|y ys]; [done|].
  simpl in Hhead. injection Hhead as ->.
  assert (∀ c, c ∈ max_combination (Z.of_nat n) m :: ys ↔ combination (Z.of_nat n) m c)
    as Hiff.
  { intros c. split.
    - apply descends_valid; [done|]. apply max_combination_valid. lia.
    - intros Hc. apply (descends_covers (Z.of_nat n) m); [done|done|done|].
      by apply colex_max_greatest. }
  split; [done|]. split; [by apply descends_NoDup|].
  rewrite <-length_all_combinations. apply Permutation_length.
  apply NoDup_Permutation; [by apply descends_NoDup|apply NoDup_all_combinations|].
  intros c. rewrite Hiff. split; [apply all_combinations_complete|apply all_combinations_sound].
Qed.

(** ** The loops of the enumerator *)

Lemma at_index_Some {A} (a : list A) i x : a !! i = Some x → at_index a i = Done x.
Proof. intros H. unfold at_index. by rewrite H. Qed.

Lemma init_indices_steps n m t :
  t ≤ m →
  length (foldl (fun indices i => <[m - 1 - i := (n - Z.of_nat i - 1)%Z]> indices)
                (replicate m 0%Z) (seq 0 t)) = m ∧
  ∀ i, i < t →
       foldl (fun indices i => <[m - 1 - i := (n - Z.of_nat i - 1)%Z]> indices)
             (replicate m 0%Z) (seq 0 t) !! (m - 1 - i)
       = Some (n - Z.of_nat i - 1)%Z.
Proof.
  induction t as [|t IH]; intros Ht.
  - split; [apply length_replicate|]. intros i Hi. lia.
  - destruct IH as [Hlen Hval]; [lia|].
    rewrite seq_S, foldl_app. cbn [foldl]. rewrite Nat.add_0_l.
    split; [by rewrite length_insert|].
    intros i Hi. destruct (decide (i = t)) as [->|Hne].
    + apply list_lookup_insert_eq. lia.
    + rewrite list_lookup_insert_ne by lia. apply Hval. lia.
Qed.

Lemma init_indices_max n m : init_indices n m = max_combination n m.
Proof.
  destruct (init_indices_steps n m m (le_n m)) as [Hlen Hval]. unfold init_indices.
  apply list_eq. intros j. destruct (decide (j < m)) as [Hj|Hj].
  - rewrite max_combination_lookup by done.
    replace j with (m - 1 - (m - 1 - j)) at 1 by lia. rewrite Hval by lia. f_equal. lia.
  - rewrite !lookup_ge_None_2; [done|rewrite length_max_combination; lia|lia].
Qed.

Lemma next_k_stops fuel a count k y :
  a !! S k = Some y → y ≠ Z.of_nat (S k) → 0 < fuel → next_k fuel a count k = Done (S k).
Proof.
  intros Hy Hne Hfuel. destruct fuel as [|fuel]; [lia|]. cbn [next_k].
  rewrite (at_index_Some _ _ _ Hy), bind_Done.
  rewrite bool_decide_eq_false_2 by done. reflexivity.
Qed.

Lemma bring_up_children_steps a k v t :
  a !! k = Some v → t ≤ k →
  ∃ a', for_range 0 t
          (fun i a => x ← at_index a k; Done (<[i := (x - (Z.of_nat k - Z.of_nat i))%Z]> a))
          a = Done a' ∧
        length a' = length a ∧
        (∀ i, i < t → a' !! i = Some (v - (Z.of_nat k - Z.of_nat i))%Z) ∧
        (∀ i, t ≤ i → a' !! i = a !! i).
Proof.
  intros Hv. induction t as [|t IH]; intros Ht.
  - exists a. rewrite for_range_0. split; [done|]. split; [done|]. split; [|done].
    intros i Hi. lia.
  - destruct IH as (a' & Hrun & Hlen & Hlow & Hhigh); [lia|].
    pose proof (lookup_lt_Some _ _ _ Hv) as Hk.
    exists (<[t := (v - (Z.of_nat k - Z.of_nat t))%Z]> a').
    rewrite for_range_snoc, Hrun, bind_Done, Nat.add_0_l.
    rewrite (at_index_Some a' k v), bind_Done by (rewrite Hhigh by lia; done).
    split; [done|]. split; [by rewrite length_insert|]. split.
    + intros i Hi. destruct (decide (i = t)) as [->|Hne].
      * apply list_lookup_insert_eq. lia.
      * rewrite list_lookup_insert_ne by lia. apply Hlow. lia.
    + intros i Hi. rewrite list_lookup_insert_ne by lia. apply Hhigh. lia.
Qed.

Lemma bring_up_children_spec a k v :
  a !! k = Some v →
  ∃ a', bring_up_children a k = Done a' ∧ length a' = length a ∧
        (∀ i, i < k → a' !! i = Some (v - (Z.of_nat k - Z.of_nat i))%Z) ∧
        (∀ i, k ≤ i → a' !! i = a !! i).
Proof. intros Hv. by apply (bring_up_children_steps a k v k). Qed.

Section enumeration.
Context (n : Z) (m : nat) (away : Z → nat → bool)
  (emit : list Z → list output → list output) (wrap : list Z → output).
Hypothesis Hm : 1 ≤ m.
Hypothesis Hnm : (Z.of_nat m < n)%Z.
Hypothesis Haway : ∀ x k, (Z.of_nat k ≤ x)%Z → away x k = bool_decide (Z.of_nat k < x)%Z.
Hypothesis Hemit : ∀ a out, length a = m → emit a out = out ++ [wrap a].

Lemma tracing_valid ys a : tracing n m ys a → combination n m a.
Proof using Hm Hnm.
  intros (Hd & Hhead & Hlast). destruct ys as [|y ys]; [done|].
  simpl in Hhead. injection Hhead as ->.
  apply (descends_valid n m ys (max_combination n m)); [done| |].
  - apply max_combination_valid. lia.
  - apply last_Some_elem_of in Hlast. done.
Qed.

Lemma tracing_snoc ys a a' :
  tracing n m ys a → colex_pred a a' → tracing n m (ys ++ [a']) a'.
Proof using Type.
  intros (Hd & Hhead & Hlast) Hp. split; [by apply (descends_snoc ys a)|]. split.
  - destruct ys; [done|]. done.
  - apply last_snoc.
Qed.

Lemma tracing_length ys a : tracing n m ys a → length ys ≤ binomial (Z.to_nat n) m.
Proof using Hm Hnm.
  intros Htr. pose proof Htr as (Hd & Hhead & Hlast).
  rewrite <-length_all_combinations. apply submseteq_length, NoDup_submseteq.
  - by apply descends_NoDup.
  - intros c Hc. apply all_combinations_complete. rewrite Z2Nat.id by lia.
    destruct ys as [|y ys]; [done|]. simpl in Hhead. injection Hhead as ->.
    apply (descends_valid n m ys (max_combination n m)); [done| |done].
    apply max_combination_valid. lia.
Qed.

(** The first [while] when entry [k] is already at home. *)
Lemma home_loop_home fuel a k out :
  a !! k = Some (Z.of_nat k) → 0 < fuel → home_loop away emit fuel a k out = Done (a, out).
Proof using Hm Haway.
  intros Hk Hfuel. destruct fuel as [|fuel]; [lia|]. cbn [home_loop].
  rewrite (at_index_Some _ _ _ Hk), bind_Done, Haway by lia.
  rewrite bool_decide_eq_false_2 by lia. reflexivity.
Qed.

(** The first [while] at [k = 0]: entry 0 walks down to 0, one array
    handed out per step. *)
Lemma home_loop_zero t :
  ∀ a ys, tracing n m ys a → a !! 0 = Some (Z.of_nat t) →
  ∃ ys', (∀ fuel out, t < fuel → out = wrap <$> ys →
            home_loop away emit fuel a 0 out = Done (<[0 := 0%Z]> a, wrap <$> ys')) ∧
         tracing n m ys' (<[0 := 0%Z]> a) ∧ length ys' = length ys + t.
Proof using Hm Hnm Haway Hemit.
  induction t as [|t IH]; intros a ys Htr Ha.
  - exists ys. rewrite (list_insert_id a 0 0%Z Ha).
    split; [|split; [done|lia]]. intros fuel out Hfuel ->. by apply home_loop_home.
  - pose proof (tracing_valid ys a Htr) as (Hlen & _).
    pose proof (lookup_lt_Some _ _ _ Ha) as H0.
    assert (colex_pred a (<[0 := Z.of_nat t]> a)) as Hpred.
    { split; [by rewrite length_insert|]. exists 0, (Z.of_nat (S t)).
      split; [done|]. split; [lia|]. split; [intros i Hi; lia|]. split.
      - replace (Z.of_nat (S t) - 1)%Z with (Z.of_nat t) by lia.
        by apply list_lookup_insert_eq.
      - split; [intros i Hi; lia|]. intros i Hi.
        by rewrite list_lookup_insert_ne by lia. }
    destruct (IH (<[0 := Z.of_nat t]> a) (ys ++ [<[0 := Z.of_nat t]> a]))
      as (ys' & Hrun & Htr' & Hlen').
    { by apply (tracing_snoc ys a). }
    { by apply list_lookup_insert_eq. }
    exists ys'. rewrite list_insert_insert_eq in Hrun, Htr'.
    split; [|split; [done|rewrite Hlen', length_app; simpl; lia]].
    intros fuel out Hfuel ->. destruct fuel as [|fuel]; [lia|]. cbn [home_loop].
    rewrite (at_index_Some _ _ _ Ha), bind_Done, Haway by lia.
    rewrite bool_decide_eq_true_2 by lia.
    replace (Z.of_nat (S t) - 1)%Z with (Z.of_nat t) by lia.
    apply Hrun; [lia|]. rewrite Hemit by (by rewrite length_insert).
    by rewrite fmap_app.
Qed.
End enumeration.

Section enumeration_loop.
Context (n : Z) (m : nat) (away : Z → nat → bool)
  (emit : list Z → list output → list output) (wrap : list Z → output).
Hypothesis Hm : 1 ≤ m.
Hypothesis Hnm : (Z.of_nat m < n)%Z.
Hypothesis Haway : ∀ x k, (Z.of_nat k ≤ x)%Z → away x k = bool_decide (Z.of_nat k < x)%Z.
Hypothesis Hemit : ∀ a out, length a = m → emit a out = out ++ [wrap a].

(** The second half of the body, from a settled array: one more array is
    handed out, the predecessor of the current one. *)
Lemma advance_spec a k ys :
  tracing n m ys a → settled m a k → S k < m →
  ∃ a' k',
    (∀ fuel out, 0 < fuel → out = wrap <$> ys →
       advance emit fuel (Z.of_nat m) a k out = Done (a', k', wrap <$> (ys ++ [a']))) ∧
    tracing n m (ys ++ [a']) a' ∧
    ((k' = 0 ∧ ∃ x, a' !! 0 = Some x ∧ (0 < x)%Z) ∨ (k' = S k ∧ settled m a' (S k))).
Proof using Hm Hnm Haway Hemit.
  intros Htr [Hhome Hnext] Hk. destruct (Hnext Hk) as (y & Hy & Hlt).
  pose proof (tracing_valid n m Hm Hnm ys a Htr) as (Hlen & Hinc & Hran).
  set (a1 := <[S k := (y - 1)%Z]> a).
  assert (length a1 = m) as Hlen1 by (unfold a1; by rewrite length_insert).
  assert (a1 !! S k = Some (y - 1)%Z) as Ha1
    by (unfold a1; apply list_lookup_insert_eq; lia).
  assert (∀ i, i ≠ S k → a1 !! i = a !! i) as Hother
    by (intros i Hi; unfold a1; by rewrite list_lookup_insert_ne).
  destruct (decide (y - 1 = Z.of_nat (S k))%Z) as [Heq|Hne].
  - exists a1, (S k).
    assert (colex_pred a a1) as Hpred.
    { split; [congruence|]. exists (S k), y. split; [done|]. split; [done|].
      split; [intros i Hi; apply Hhome; lia|]. split; [done|]. split.
      - intros i Hi. rewrite Hother, Hhome by lia. f_equal. lia.
      - intros i Hi. apply Hother. lia. }
    split; [|split; [by apply (tracing_snoc n m ys a)|right]].
    + intros fuel out Hfuel ->. unfold advance.
      rewrite (next_k_stops fuel a _ k y Hy) by lia. rewrite bind_Done.
      rewrite (at_index_Some _ _ _ Hy), bind_Done. fold a1.
      rewrite (at_index_Some _ _ _ Ha1), bind_Done.
      rewrite bool_decide_eq_false_2 by (intros ?; done). rewrite bind_Done.
      rewrite Hemit by done. by rewrite fmap_app.
    + split; [done|]. split.
      * intros i Hi. destruct (decide (i = S k)) as [->|Hi']; [by rewrite Ha1, Heq|].
        rewrite Hother by done. apply Hhome. lia.
      * intros Hk'. destruct (lookup_lt_is_Some_2 a (S (S k))) as [z Hz]; [lia|].
        exists z. rewrite Hother by lia. split; [done|].
        pose proof (Hinc (S k) (S (S k)) y z (Nat.lt_succ_diag_r _) Hy Hz). lia.
  - destruct (bring_up_children_spec a1 (S k) (y - 1)%Z Ha1)
      as (a2 & Hrun & Hlen2 & Hlow & Hhigh).
    exists a2, 0.
    assert (colex_pred a a2) as Hpred.
    { split; [congruence|]. exists (S k), y. split; [done|]. split; [done|].
      split; [intros i Hi; apply Hhome; lia|]. split; [by rewrite Hhigh|]. split.
      - intros i Hi. by apply Hlow.
      - intros i Hi. rewrite Hhigh by lia. apply Hother. lia. }
    split; [|split; [by apply (tracing_snoc n m ys a)|left]].
    + intros fuel out Hfuel ->. unfold advance.
      rewrite (next_k_stops fuel a _ k y Hy) by lia. rewrite bind_Done.
      rewrite (at_index_Some _ _ _ Hy), bind_Done. fold a1.
      rewrite (at_index_Some _ _ _ Ha1), bind_Done.
      rewrite bool_decide_eq_true_2 by done. rewrite Hrun, !bind_Done.
      rewrite Hemit by congruence. by rewrite fmap_app.
    + split; [done|]. eexists. split; [apply Hlow; lia|]. lia.
Qed.

Lemma again_zero a : 2 ≤ m → again (Z.of_nat m) a 0 = Done true.
Proof using Hm.
  intros H2. unfold again. rewrite bool_decide_eq_true_2 by lia. reflexivity.
Qed.

Lemma again_settled a k :
  settled m a k → again (Z.of_nat m) a k = Done (bool_decide (S k ≠ m)).
Proof using Hm.
  intros [Hhome _]. unfold again. destruct (decide (S k = m)) as [Hk|Hk].
  - rewrite bool_decide_eq_false_2 by lia.
    rewrite (at_index_Some a k (Z.of_nat k)), bind_Done by (by apply Hhome).
    rewrite bool_decide_eq_false_2 by (intros ?; done).
    by rewrite bool_decide_eq_false_2 by (intros ?; done).
  - rewrite bool_decide_eq_true_2 by lia. by rewrite bool_decide_eq_true_2.
Qed.

(** The whole loop: from any entry into the body, the arrays handed out
    go on descending until the least combination, where the loop stops. *)
Lemma permutation_loop_runs d :
  ∀ a k ys, tracing n m ys a → entering m a k →
  binomial (Z.to_nat n) m - length ys ≤ d →
  ∃ ys', (∀ fuel out, d + Z.to_nat n + 2 ≤ fuel → out = wrap <$> ys →
            permutation_loop away emit fuel (Z.of_nat m) a k out = Done (wrap <$> ys')) ∧
         tracing n m ys' (min_combination m).
Proof using Hm Hnm Haway Hemit.
  induction (lt_wf d) as [d _ IH]. intros a k ys Htr Hent Hd.
  pose proof (tracing_valid n m Hm Hnm ys a Htr) as (Hlen & Hinc & Hran).
  (* the first while *)
  assert (∃ a1 ys1,
            (∀ fuel out, Z.to_nat n < fuel → out = wrap <$> ys →
               home_loop away emit fuel a k out = Done (a1, wrap <$> ys1)) ∧
            tracing n m ys1 a1 ∧ length ys ≤ length ys1 ∧
            settled m a1 k ∧ (m ≠ 1 → S k < m)) as (a1 & ys1 & Hhome & Htr1 & Hlen1 & Hset & Hk).
  { destruct Hent as [[-> (x & Hx & Hpos)]|[Hset Hk]].
    - pose proof (Hran 0 x Hx) as Hxr.
      assert (a !! 0 = Some (Z.of_nat (Z.to_nat x))) as Hx' by (rewrite Z2Nat.id by lia; done).
      destruct (home_loop_zero n m away emit wrap Hm Hnm Haway Hemit _ a ys Htr Hx')
        as (ys1 & Hrun & Htr1 & Hlen1).
      exists (<[0 := 0%Z]> a), ys1. split; [|split; [done|split; [lia|split; [split|lia]]]].
      + intros fuel out Hfuel ->. apply Hrun; [lia|done].
      + intros i Hi. replace i with 0 by lia. apply list_lookup_insert_eq.
        apply lookup_lt_Some in Hx. done.
      + intros H1. destruct (lookup_lt_is_Some_2 a 1) as [y Hy]; [lia|].
        exists y. rewrite list_lookup_insert_ne by lia. split; [done|].
        pose proof (Hinc 0 1 x y (Nat.lt_succ_diag_r _) Hx Hy). lia.
    - exists a, ys. split; [|split; [done|split; [lia|split; [done|done]]]].
      intros fuel out Hfuel ->. apply (home_loop_home m away emit Hm Haway); [|lia].
      destruct Hset as [Hh _]. by apply Hh. }
  pose proof (tracing_valid n m Hm Hnm ys1 a1 Htr1) as (Hlena1 & _ & _).
  destruct (decide (m = 1)) as [Hm1|Hm1].
  { (* if (count == 1) break *)
    exists ys1. split.
    - intros fuel out Hfuel ->. destruct fuel as [|fuel]; [lia|]. cbn [permutation_loop].
      rewrite (Hhome fuel _) by (lia || done). rewrite bind_Done.
      rewrite bool_decide_eq_true_2 by lia. reflexivity.
    - replace (min_combination m) with a1; [done|]. apply all_home_min; [done|].
      intros i Hi. destruct Hset as [Hh _]. apply Hh. lia. }
  specialize (Hk Hm1).
  destruct (advance_spec a1 k ys1 Htr1 Hset Hk) as (a2 & k2 & Hadv & Htr2 & Hcase).
  pose proof (tracing_length n m Hm Hnm _ _ Htr2) as Hbound.
  rewrite length_app in Hbound. simpl in Hbound.
  assert (∀ b ys', 
            again (Z.of_nat m) a2 k2 = Done b →
            (∀ fuel out, d - 1 + Z.to_nat n + 2 ≤ fuel → out = wrap <$> (ys1 ++ [a2]) →
               (if b then permutation_loop away emit fuel (Z.of_nat m) a2 k2 out
                else Done out) = Done (wrap <$> ys')) →
            ∀ fuel out, d + Z.to_nat n + 2 ≤ fuel → out = wrap <$> ys →
              permutation_loop away emit fuel (Z.of_nat m) a k out = Done (wrap <$> ys'))
    as Hbody.
  { intros b ys' Hag Hrest fuel out Hfuel ->. destruct fuel as [|fuel]; [lia|].
    cbn [permutation_loop]. rewrite (Hhome fuel _) by (lia || done). rewrite bind_Done.
    rewrite bool_decide_eq_false_2 by lia.
    rewrite (Hadv fuel _) by (lia || done). rewrite bind_Done, Hag, bind_Done.
    apply Hrest; [lia|done]. }
  destruct Hcase as [[-> Hx]|[-> Hset2]].
  - destruct (IH (d - 1)) with (a := a2) (k := 0) (ys := ys1 ++ [a2])
      as (ys' & Hrun & Htr'); [lia|done|by left|rewrite length_app; simpl; lia|].
    exists ys'. split; [|done]. apply (Hbody true); [apply again_zero; lia|exact Hrun].
  - destruct (decide (S (S k) = m)) as [Hend|Hmore].
    + exists (ys1 ++ [a2]). split.
      * apply (Hbody false); [|by intros fuel out _ ->].
        rewrite (again_settled a2 (S k) Hset2). by rewrite bool_decide_eq_false_2 by (intros ?; done).
      * replace (min_combination m) with a2; [done|].
        pose proof (tracing_valid n m Hm Hnm _ _ Htr2) as (Hlena2 & _ & _).
        apply all_home_min; [done|]. intros i Hi. destruct Hset2 as [Hh _]. apply Hh. lia.
    + destruct (IH (d - 1)) with (a := a2) (k := S k) (ys := ys1 ++ [a2])
        as (ys' & Hrun & Htr'); [lia|done|right; split; [done|lia]|
                                 rewrite length_app; simpl; lia|].
      exists ys'. split; [|done]. apply (Hbody true); [|exact Hrun].
      rewrite (again_settled a2 (S k) Hset2). by rewrite bool_decide_eq_true_2.
Qed.
End enumeration_loop.

(** ** Combinations as subsets *)

Lemma increasing_tail x c : increasing (x :: c) → increasing c.
Proof. intros Hinc i j a b Hij Ha Hb. by apply (Hinc (S i) (S j)); [lia|..]. Qed.

Lemma increasing_sorted c : increasing c → StronglySorted Z.lt c.
Proof.
  induction c as [|x c IH]; intros Hinc; constructor.
  - by apply IH, (increasing_tail x).
  - apply Forall_forall. intros y [j Hj]%list_elem_of_lookup_1.
    by apply (Hinc 0 (S j)); [lia|..].
Qed.

Lemma sorted_increasing c : StronglySorted Z.lt c → increasing c.
Proof.
  induction 1 as [|x c Hs IH Hall]; intros i j a b Hij Ha Hb; [done|].
  destruct j as [|j]; [lia|]. simpl in Hb. destruct i as [|i].
  - simpl in Ha. injection Ha as <-. rewrite Forall_forall in Hall.
    by apply Hall, (list_elem_of_lookup_2 _ j).
  - simpl in Ha. apply (IH i j); [lia|done|done].
Qed.

Lemma increasing_NoDup c : increasing c → NoDup c.
Proof.
  intros Hinc. apply NoDup_alt. intros i j x Hi Hj.
  destruct (lt_eq_lt_dec i j) as [[Hlt|Heq]|Hlt]; [|done|].
  - pose proof (Hinc i j x x Hlt Hi Hj). lia.
  - pose proof (Hinc j i x x Hlt Hj Hi). lia.
Qed.

Lemma sorted_le_lt c : StronglySorted Z.le c → NoDup c → StronglySorted Z.lt c.
Proof.
  induction 1 as [|x c Hs IH Hall]; intros Hnd; constructor.
  - apply IH. by apply NoDup_cons in Hnd as [_ ?].
  - apply NoDup_cons in Hnd as [Hx _]. rewrite Forall_forall in Hall.
    apply Forall_forall. intros y Hy. specialize (Hall y Hy).
    assert (x ≠ y) by (by intros ->). lia.
Qed.

(** Two combinations with the same elements are the same array. *)
Lemma combination_ext n m c c' :
  combination n m c → combination n m c' → (∀ x, x ∈ c ↔ x ∈ c') → c = c'.
Proof.
  intros (_ & Hinc & _) (_ & Hinc' & _) Hsame.
  apply (StronglySorted_unique_strong Z.lt).
  - intros x1 x2 _ _ H1 H2. lia.
  - by apply increasing_sorted.
  - by apply increasing_sorted.
  - apply NoDup_Permutation; [by apply increasing_NoDup..|done].
Qed.

(** Every [m]-element subset of [0, n) is the set of a combination. *)
Lemma subset_combination n (S : gset Z) :
  (∀ x, x ∈ S → (0 ≤ x < n)%Z) →
  ∃ c, combination n (size S) c ∧ list_to_set c = S.
Proof.
  intros Hran. exists (merge_sort Z.le (elements S)).
  pose proof (merge_sort_Permutation Z.le (elements S)) as HP.
  split; [split; [|split]|].
  - by rewrite HP.
  - apply sorted_increasing, sorted_le_lt.
    + apply StronglySorted_merge_sort; apply _.
    + rewrite HP. apply NoDup_elements.
  - intros i x Hx%list_elem_of_lookup_2. rewrite HP in Hx.
    apply Hran. by apply elem_of_elements.
  - apply set_eq. intros x. rewrite elem_of_list_to_set, HP. apply elem_of_elements.
Qed.

Lemma enumerates_subsets n m ys : enumerates n m ys → lists_subsets n m ys.
Proof.
  intros (_ & Hvalid & _ & Hall). split.
  - intros c Hc. pose proof (Hvalid c Hc) as (Hlen & Hinc & Hran). split.
    + rewrite size_list_to_set by (by apply increasing_NoDup). done.
    + intros x [i Hi]%elem_of_list_to_set%list_elem_of_lookup_1. by apply (Hran i).
  - intros S Hsize Hran. destruct (subset_combination n S Hran) as (c & Hc & HcS).
    rewrite Hsize in Hc. exists c. split; [by apply Hall|]. split; [done|].
    intros c' Hc' Hc'S. apply (combination_ext n m); [by apply Hvalid|done|].
    intros x. by rewrite <-!(elem_of_list_to_set (C:=gset Z)), Hc'S, HcS.
Qed.

(** ** make_combinations and make_graphs *)

Lemma print_permu_whole a (count : Z) out :
  (1 ≤ count)%Z → length a = Z.to_nat count →
  print_permu a count out = out ++ [Permu a].
Proof.
  intros Hc Hlen. unfold print_permu. rewrite bool_decide_eq_false_2 by lia.
  by rewrite take_ge by lia.
Qed.

Lemma tracing_enumerates n m ys :
  1 ≤ m → (Z.of_nat m < n)%Z → tracing n m ys (min_combination m) →
  enumerates n m ys ∧ runs_down n m ys.
Proof.
  intros Hm Hnm (Hd & Hhead & Hlast).
  destruct (descent_enumerates (Z.to_nat n) m ys) as (Hiff & Hnd & Hlen);
    [lia|done|by rewrite Z2Nat.id by lia|done|].
  rewrite Z2Nat.id in Hiff by lia. split.
  - split; [done|]. split; [by intros c ?%Hiff|]. split; [done|by intros c ?%Hiff].
  - split; [done|]. split; [done|]. intros i j c c'. by apply descends_decreasing.
Qed.

Lemma make_combinations_runs (n m : Z) :
  (m < n)%Z → (1 ≤ m)%Z →
  ∃ ys, (∀ fuel, binomial (Z.to_nat n) (Z.to_nat m) + Z.to_nat n + 2 ≤ fuel →
                 make_combinations fuel n m = Done (Permu <$> ys)) ∧
        tracing n (Z.to_nat m) ys (min_combination (Z.to_nat m)).
Proof.
  intros Hnm Hm.
  destruct (permutation_loop_runs n (Z.to_nat m)
              (fun x k => bool_decide (x ≠ Z.of_nat k))
              (fun a out => print_permu a m out) Permu)
    with (d := binomial (Z.to_nat n) (Z.to_nat m))
         (a := max_combination n (Z.to_nat m)) (k := 0)
         (ys := [max_combination n (Z.to_nat m)])
    as (ys & Hrun & Htr).
  - lia.
  - lia.
  - intros x k Hk. apply bool_decide_ext. lia.
  - intros a out Hlen. by apply print_permu_whole.
  - split; [apply descends_singleton|done].
  - left. split; [done|]. eexists. split; [apply max_combination_lookup; lia|lia].
  - lia.
  - exists ys. split; [|done]. intros fuel Hfuel. unfold make_combinations.
    rewrite bool_decide_eq_false_2 by lia. rewrite init_indices_max.
    rewrite Z2Nat.id in Hrun by lia. apply Hrun; [done|].
    rewrite print_permu_whole by (lia || apply length_max_combination). done.
Qed.

Lemma make_graphs_runs (VERTEX_COUNT EDGE_COUNT : Z) :
  (EDGE_COUNT < triangle_number (VERTEX_COUNT - 1))%Z → (1 ≤ EDGE_COUNT)%Z →
  ∃ ys, (∀ fuel,
           binomial (Z.to_nat (triangle_number (VERTEX_COUNT - 1))) (Z.to_nat EDGE_COUNT)
           + Z.to_nat (triangle_number (VERTEX_COUNT - 1)) + 2 ≤ fuel →
           make_graphs fuel VERTEX_COUNT EDGE_COUNT
           = Done (((fun a => Graph a VERTEX_COUNT) <$> ys)
                   ++ [Complete EDGE_COUNT VERTEX_COUNT])) ∧
        tracing (triangle_number (VERTEX_COUNT - 1)) (Z.to_nat EDGE_COUNT) ys
          (min_combination (Z.to_nat EDGE_COUNT)).
Proof.
  intros Hnm Hm. set (n := triangle_number (VERTEX_COUNT - 1)) in *.
  destruct (permutation_loop_runs n (Z.to_nat EDGE_COUNT)
              (fun x k => bool_decide (Z.of_nat k < x)%Z)
              (fun a out => out ++ [Graph a VERTEX_COUNT])
              (fun a => Graph a VERTEX_COUNT))
    with (d := binomial (Z.to_nat n) (Z.to_nat EDGE_COUNT))
         (a := max_combination n (Z.to_nat EDGE_COUNT)) (k := 0)
         (ys := [max_combination n (Z.to_nat EDGE_COUNT)])
    as (ys & Hrun & Htr).
  - lia.
  - lia.
  - done.
  - done.
  - split; [apply descends_singleton|done].
  - left. split; [done|]. eexists. split; [apply max_combination_lookup; lia|lia].
  - lia.
  - exists ys. split; [|done]. intros fuel Hfuel. unfold make_graphs. fold n.
    rewrite bool_decide_eq_false_2 by lia. rewrite init_indices_max.
    rewrite bool_decide_eq_false_2 by lia.
    rewrite Z2Nat.id in Hrun by lia.
    rewrite (Hrun fuel [Graph (max_combination n (Z.to_nat EDGE_COUNT)) VERTEX_COUNT]
               Hfuel eq_refl).
    reflexivity.
Qed.

(** C2.  For all [n > m >= 1] a full run of the combination enumerator
    returns and yields exactly C(n, m) arrays; every array is strictly
    increasing, with [m] distinct values drawn from [0, n); no array is
    yielded twice and every such array is yielded ([enumerates]), so that
    every [m]-subset of [0, n) is the set of exactly one yielded array
    ([lists_subsets]).  This holds of [make_combinations], and of
    [make_graphs] on the edge slots of its vertex count. *)
Theorem enumerator_yields_all_combinations (n m : Z) :
  (m < n)%Z → (1 ≤ m)%Z →
  (∃ ys, (∃ fuel0, ∀ fuel, fuel0 ≤ fuel →
                           make_combinations fuel n m = Done (Permu <$> ys)) ∧
         enumerates n (Z.to_nat m) ys ∧ lists_subsets n (Z.to_nat m) ys) ∧
  (∀ VERTEX_COUNT, triangle_number (VERTEX_COUNT - 1) = n →
     ∃ ys, (∃ fuel0, ∀ fuel, fuel0 ≤ fuel →
                             make_graphs fuel VERTEX_COUNT m
                             = Done (((fun a => Graph a VERTEX_COUNT) <$> ys)
                                     ++ [Complete m VERTEX_COUNT])) ∧
           enumerates n (Z.to_nat m) ys ∧ lists_subsets n (Z.to_nat m) ys).
Proof.
  intros Hnm Hm. split.
  - destruct (make_combinations_runs n m Hnm Hm) as (ys & Hrun & Htr).
    exists ys. split; [eauto|].
    assert (enumerates n (Z.to_nat m) ys) by (apply tracing_enumerates; [lia|lia|done]).
    split; [done|by apply enumerates_subsets].
  - intros V <-. destruct (make_graphs_runs V m Hnm Hm) as (ys & Hrun & Htr).
    exists ys. split; [eauto|].
    assert (enumerates (triangle_number (V - 1)) (Z.to_nat m) ys)
      by (apply tracing_enumerates; [lia|lia|done]).
    split; [done|by apply enumerates_subsets].
Qed.

Lemma enumerator_yields_all_combinations_witness :
  make_combinations 20 5 3
  = Done (Permu <$> [[2; 3; 4]; [1; 3; 4]; [0; 3; 4]; [1; 2; 4]; [0; 2; 4];
                     [0; 1; 4]; [1; 2; 3]; [0; 2; 3]; [0; 1; 3]; [0; 1; 2]]%Z) ∧
  ∃ ys, (∃ fuel0, ∀ fuel, fuel0 ≤ fuel → make_combinations fuel 5 3 = Done (Permu <$> ys)) ∧
        enumerates 5 3 ys ∧ lists_subsets 5 3 ys.
Proof.
  split; [reflexivity|].
  apply (enumerator_yields_all_combinations 5 3); lia.
Defined.

(** C4.  For all [n > m >= 1] the first array the enumerator yields is
    [[n-m, ..., n-1]], the last one is [[0, ..., m-1]], and every array is
    colexicographically below all the arrays yielded before it. *)
Theorem enumerator_runs_down (n m : Z) :
  (m < n)%Z → (1 ≤ m)%Z →
  (∃ ys, (∃ fuel0, ∀ fuel, fuel0 ≤ fuel →
                           make_combinations fuel n m = Done (Permu <$> ys)) ∧
         runs_down n (Z.to_nat m) ys) ∧
  (∀ VERTEX_COUNT, triangle_number (VERTEX_COUNT - 1) = n →
     ∃ ys, (∃ fuel0, ∀ fuel, fuel0 ≤ fuel →
                             make_graphs fuel VERTEX_COUNT m
                             = Done (((fun a => Graph a VERTEX_COUNT) <$> ys)
                                     ++ [Complete m VERTEX_COUNT])) ∧
           runs_down n (Z.to_nat m) ys).
Proof.
  intros Hnm Hm. split.
  - destruct (make_combinations_runs n m Hnm Hm) as (ys & Hrun & Htr).
    exists ys. split; [eauto|]. apply tracing_enumerates; [lia|lia|done].
  - intros V <-. destruct (make_graphs_runs V m Hnm Hm) as (ys & Hrun & Htr).
    exists ys. split; [eauto|]. apply tracing_enumerates; [lia|lia|done].
Qed.

Lemma enumerator_runs_down_witness :
  make_graphs 20 4 2
  = Done (((fun a => Graph a 4) <$>
             [[4; 5]; [3; 5]; [2; 5]; [1; 5]; [0; 5]; [3; 4]; [2; 4]; [1; 4];
              [0; 4]; [2; 3]; [1; 3]; [0; 3]; [1; 2]; [0; 2]; [0; 1]]%Z)
          ++ [Complete 2 4]) ∧
  ∃ ys, (∃ fuel0, ∀ fuel, fuel0 ≤ fuel → make_combinations fuel 6 2 = Done (Permu <$> ys)) ∧
        runs_down 6 2 ys.
Proof.
  split; [reflexivity|].
  apply (enumerator_runs_down 6 2); lia.
Defined.

(** C5, as amended.  [make_combinations] called with [n <= m] reports the
    error and prints no combination; [make_graphs] does the same when the
    edge count exceeds the number of edge slots.  Nothing is said of
    [m < 1] when [n > m]: no test looks at it. *)
Theorem combination_count_rejected (fuel : nat) (n m : Z) :
  (n ≤ m)%Z →
  make_combinations fuel n m = Done [ErrorCount] ∧
  ∀ VERTEX_COUNT, (triangle_number (VERTEX_COUNT - 1) < m)%Z →
                  make_graphs fuel VERTEX_COUNT m = Done [ErrorCount].
Proof.
  intros Hnm. split.
  - unfold make_combinations. by rewrite bool_decide_eq_true_2.
  - intros V HV. unfold make_graphs. by rewrite bool_decide_eq_true_2.
Qed.

Lemma combination_count_rejected_witness :
  make_combinations 0 4 4 = Done [ErrorCount] ∧
  make_graphs 0 3 4 = Done [ErrorCount].
Proof.
  destruct (combination_count_rejected 0 4 4) as [H1 H2]; [lia|].
  split; [exact H1|]. apply H2. vm_compute. reflexivity.
Defined.

(** C5, as stated, fails for [m < 1]: [make_combinations(5, 0)] passes the
    only test there is, reports nothing, and goes on to read [indices[0]]
    of an array without entries.  And [make_graphs] lets [n = m] through:
    with 3 slots and 3 edges it writes one graph and reports nothing. *)
Lemma combination_count_unchecked :
  make_combinations 2 5 0 = OutOfBounds ∧
  (∀ fuel, make_combinations fuel 5 0 ≠ Done [ErrorCount]) ∧
  (∀ fuel, make_graphs fuel 3 3 = Done [Graph [0; 1; 2]%Z 3]).
Proof.
  split; [reflexivity|]. split; [|reflexivity].
  intros [|[|fuel]]; discriminate.
Qed.

(** ** write_graph *)

Lemma edge_step_eq indices i k edgeSet rd :
  edge_step indices i (k, edgeSet, rd)
  = Done (if bool_decide (Z.of_nat i = indices k) then S k else k,
          <[i := bool_decide (Z.of_nat i = indices k)]> edgeSet, rd ++ [k]).
Proof. reflexivity. Qed.

(** C8 fails.  [make_graphs(3, 1)] hands [write_graph] the array [{1}] in
    its second call; once that ordinal is matched at [i = 1], [k] is 1, and
    the turn [i = 2] of the [edgeSet] loop reads [indices[1]], one past the
    end of the one-entry array, whatever lies there. *)
Theorem write_graph_reads_past_end :
  make_graphs 10 3 1 = Done [Graph [2]%Z 3; Graph [1]%Z 3; Graph [0]%Z 3; Complete 1 3] ∧
  ∀ rest, ∃ w, write_graph (behind [1]%Z rest) 3 = Done w ∧
               reads w = [0; 0; 1] ∧ ¬ Forall (fun k => k < length [1]%Z) (reads w).
Proof.
  split; [reflexivity|]. intros rest.
  assert (¬ Forall (fun k => k < length [1]%Z) [0; 0; 1]) as Hout.
  { intros H. apply Forall_cons in H as [_ H]. apply Forall_cons in H as [_ H].
    apply Forall_cons in H as [H _]. simpl in H. lia. }
  unfold write_graph. change (Z.to_nat (triangle_number (3 - 1))) with 3.
  change (Z.to_nat 3) with 3.
  rewrite for_range_S, edge_step_eq, bind_Done.
  change (behind [1%Z] rest 0) with 1%Z. rewrite bool_decide_eq_false_2 by done.
  rewrite for_range_S, edge_step_eq, bind_Done.
  change (behind [1%Z] rest 0) with 1%Z. rewrite bool_decide_eq_true_2 by done.
  rewrite for_range_S, edge_step_eq, bind_Done, for_range_0, bind_Done.
  destruct (bool_decide (Z.of_nat 2 = behind [1%Z] rest 1)); eexists; (split; [reflexivity|]);
    split; first [reflexivity | exact Hout].
Qed.

(** C3 fails, by the same read past the end of [indices]: when the word
    after the array [{1}] holds 2, the matrix written for the one-edge
    combination [{1}] on 3 vertices has two edges.  It is still symmetric
    with a zero diagonal. *)
Theorem write_graph_extra_edge :
  make_graphs 10 3 1 = Done [Graph [2]%Z 3; Graph [1]%Z 3; Graph [0]%Z 3; Complete 1 3] ∧
  ∃ w, write_graph (behind [1]%Z (fun _ => 2%Z)) 3 = Done w ∧
       lines w = [[0; 0; 1]; [0; 0; 1]; [1; 1; 0]]%Z ∧
       ones_above (lines w) = 2.
Proof.
  split; [reflexivity|]. eexists. split; [reflexivity|]. split; reflexivity.
Qed.

(** ** The edgeSet loop of write_graph *)

Lemma count_true_app l1 l2 : count_true (l1 ++ l2) = count_true l1 + count_true l2.
Proof.
  unfold count_true. rewrite fmap_app.
  induction (Nat.b2n <$> l1) as [|x l IH]; simpl; [done|lia].
Qed.

Lemma count_true_insert l i b :
  l !! i = Some false → count_true (<[i := b]> l) = count_true l + Nat.b2n b.
Proof.
  intros Hi. pose proof (lookup_lt_Some _ _ _ Hi) as Hlt.
  rewrite insert_take_drop by done. rewrite <-(take_drop_middle l i false Hi) at 3.
  rewrite !count_true_app. unfold count_true at 2 4. simpl. lia.
Qed.

(** The loop never fails: it reads [indices[k]] wherever [k] points. *)
Lemma edge_loop_spec indices EDGES t :
  t ≤ EDGES →
  ∃ es, for_range 0 t (edge_step indices) (0, replicate EDGES false, [])
        = Done (hits indices t, es, hits indices <$> seq 0 t) ∧
        length es = EDGES ∧
        (∀ i, i < t →
              es !! i = Some (bool_decide (Z.of_nat i = indices (hits indices i)))) ∧
        (∀ i, t ≤ i → i < EDGES → es !! i = Some false) ∧
        count_true es = hits indices t.
Proof.
  induction t as [|t IH]; intros Ht.
  - exists (replicate EDGES false). rewrite for_range_0.
    split; [done|]. split; [apply length_replicate|]. split; [intros i Hi; lia|]. split.
    + intros i _ Hi. by apply lookup_replicate_2.
    + unfold count_true. induction EDGES as [|E IHE]; [done|]. simpl. apply IHE. lia.
  - destruct IH as (es & Hrun & Hlen & Hlow & Hhigh & Hcount); [lia|].
    exists (<[t := bool_decide (Z.of_nat t = indices (hits indices t))]> es).
    rewrite for_range_snoc, Hrun, bind_Done, Nat.add_0_l, edge_step_eq.
    split; [by rewrite seq_S, fmap_app|]. split; [by rewrite length_insert|]. split; [|split].
    + intros i Hi. destruct (decide (i = t)) as [->|Hne].
      * apply list_lookup_insert_eq. lia.
      * rewrite list_lookup_insert_ne by done. apply Hlow. lia.
    + intros i Hi HiE. rewrite list_lookup_insert_ne by lia. apply Hhigh; lia.
    + rewrite count_true_insert by (apply Hhigh; lia). rewrite Hcount. simpl.
      by destruct (bool_decide (Z.of_nat t = indices (hits indices t))); simpl; lia.
Qed.

Lemma cut_start n m a : combination n m a → cut a 0 0.
Proof.
  intros (_ & _ & Hran). split; [lia|]. split; [intros j x Hj; lia|].
  intros j x _ Hx. specialize (Hran j x Hx). lia.
Qed.

(** One turn of the loop while [k] is inside the array. *)
Lemma cut_step n m a rest t k :
  combination n m a → cut a t k → k < length a →
  cut a (S t) (if bool_decide (Z.of_nat t = behind a rest k) then S k else k).
Proof.
  intros (Hlen & Hinc & Hran) (Hk & Hlow & Hhigh) Hk'.
  destruct (lookup_lt_is_Some_2 a k Hk') as [y Hy].
  assert (behind a rest k = y) as -> by (unfold behind; by rewrite Hy).
  pose proof (Hhigh k y (le_n k) Hy) as Hty.
  case_bool_decide as Hhit.
  - split; [lia|]. split.
    + intros j x Hj Hx. destruct (decide (j = k)) as [->|Hne].
      * assert (x = y) by congruence. lia.
      * assert (x < Z.of_nat t)%Z by (apply (Hlow j); [lia|done]). lia.
    + intros j x Hj Hx. assert (y < x)%Z by (apply (Hinc k j); [lia|done|done]). lia.
  - split; [lia|]. split.
    + intros j x Hj Hx. specialize (Hlow j x Hj Hx). lia.
    + intros j x Hj Hx. destruct (decide (j = k)) as [->|Hne].
      * assert (x = y) by congruence. lia.
      * assert (y < x)%Z by (apply (Hinc k j); [lia|done|done]). lia.
Qed.

(** While some ordinal is still to come, [k] is the number of ordinals
    already passed, and the entry it points to is inside the array. *)
Lemma hits_cut n m a rest t :
  combination n m a → 1 ≤ m →
  (∀ x, last a = Some x → (Z.of_nat t ≤ x + 1)%Z) →
  cut a t (hits (behind a rest) t).
Proof.
  intros Hc Hm. pose proof Hc as (Hlen & Hinc & Hran).
  induction t as [|t IH]; intros Hlast; [by apply (cut_start n m)|].
  pose proof IH as (Hk & Hlow & Hhigh); [intros x Hx; specialize (Hlast x Hx); lia|].
  cbn [hits]. apply (cut_step n m); [done|apply IH|].
  { intros x Hx. specialize (Hlast x Hx). lia. }
  destruct (decide (hits (behind a rest) t < length a)) as [|Hge]; [done|]. exfalso.
  destruct (lookup_lt_is_Some_2 a (length a - 1)) as [x Hx]; [lia|].
  assert (x < Z.of_nat t)%Z by (apply (Hlow (length a - 1)); [lia|done]).
  specialize (Hlast x). rewrite last_lookup in Hlast.
  replace (Nat.pred (length a)) with (length a - 1) in Hlast by lia.
  specialize (Hlast Hx). lia.
Qed.

(** When the word behind the array is none of the slots that follow the
    last ordinal, [k] never leaves the array and ends at its extent. *)
Lemma hits_benign n m a rest t :
  combination n m a → 1 ≤ m →
  (∀ x i, last a = Some x → (x < Z.of_nat i)%Z → rest 0 ≠ Z.of_nat i) →
  cut a t (hits (behind a rest) t).
Proof.
  intros Hc Hm Hben. pose proof Hc as (Hlen & Hinc & Hran).
  induction t as [|t IH]; [by apply (cut_start n m)|].
  cbn [hits]. destruct (decide (hits (behind a rest) t < length a)) as [Hlt|Hge].
  { by apply (cut_step n m). }
  destruct IH as (Hk & Hlow & Hhigh).
  assert (hits (behind a rest) t = length a) as Hkm by lia. rewrite Hkm.
  destruct (lookup_lt_is_Some_2 a (length a - 1)) as [x Hx]; [lia|].
  assert (x < Z.of_nat t)%Z by (apply (Hlow (length a - 1)); [lia|done]).
  assert (behind a rest (length a) = rest 0) as ->.
  { unfold behind. rewrite lookup_ge_None_2 by lia. simpl. by rewrite Nat.sub_diag. }
  rewrite bool_decide_eq_false_2.
  - split; [lia|]. split.
    + intros j y Hj Hy. rewrite Hkm in Hlow. specialize (Hlow j y Hj Hy). lia.
    + intros j y Hj Hy. apply lookup_lt_Some in Hy. lia.
  - intros Heq. apply (Hben x t); [|done|done]. rewrite last_lookup.
    by replace (Nat.pred (length a)) with (length a - 1) by lia.
Qed.

Lemma hits_benign_end (n : nat) m a rest :
  combination (Z.of_nat n) m a → 1 ≤ m →
  (∀ x i, last a = Some x → (x < Z.of_nat i)%Z → rest 0 ≠ Z.of_nat i) →
  hits (behind a rest) n = m.
Proof.
  intros Hc Hm Hben. pose proof Hc as (Hlen & Hinc & Hran).
  destruct (hits_benign (Z.of_nat n) m a rest n Hc Hm Hben) as (Hk & Hlow & Hhigh).
  destruct (decide (hits (behind a rest) n = m)) as [|Hne]; [done|]. exfalso.
  destruct (lookup_lt_is_Some_2 a (hits (behind a rest) n)) as [x Hx]; [lia|].
  specialize (Hhigh _ x (le_n _) Hx). specialize (Hran _ x Hx). lia.
Qed.

(** Once the last ordinal is matched, [k] is the extent of the array: the
    next turn reads [indices[EDGE_COUNT]]. *)
Lemma hits_past_last n m a rest x :
  combination n m a → last a = Some x →
  hits (behind a rest) (Z.to_nat x + 1) = length a.
Proof.
  intros Hc Hx. pose proof Hc as (Hlen & Hinc & Hran).
  assert (1 ≤ m) as Hm.
  { rewrite <-Hlen. destruct a; [done|simpl; lia]. }
  destruct (hits_cut n m a rest (Z.to_nat x + 1) Hc Hm) as (Hk & Hlow & Hhigh).
  { intros x' Hx'. assert (x' = x) by congruence. subst x'.
    rewrite last_lookup in Hx. apply Hran in Hx. lia. }
  destruct (decide (hits (behind a rest) (Z.to_nat x + 1) = length a)) as [|Hne]; [done|].
  exfalso. rewrite last_lookup in Hx. pose proof (Hran _ _ Hx).
  assert (Z.of_nat (Z.to_nat x + 1) ≤ x)%Z; [|lia].
  apply (Hhigh (Nat.pred (length a))); [lia|done].
Qed.

(** Every combination that leaves the highest edge slot free makes
    [write_graph] read [indices[k]] with [k] equal to the extent of the
    array. *)
Lemma edge_loop_reads_past_end n m a rest x (EDGES : nat) :
  combination n m a → last a = Some x → (x + 1 < Z.of_nat EDGES)%Z →
  ∃ k es, for_range 0 EDGES (edge_step (behind a rest)) (0, replicate EDGES false, [])
          = Done (k, es, hits (behind a rest) <$> seq 0 EDGES) ∧
          length a ∈ hits (behind a rest) <$> seq 0 EDGES.
Proof.
  intros Hc Hx Hroom. pose proof Hc as (_ & _ & Hran).
  destruct (edge_loop_spec (behind a rest) EDGES EDGES (le_n _))
    as (es & Hrun & _).
  exists (hits (behind a rest) EDGES), es. split; [done|].
  rewrite <-(hits_past_last n m a rest x Hc Hx).
  apply list_elem_of_fmap_2, elem_of_seq.
  rewrite last_lookup in Hx. apply Hran in Hx. lia.
Qed.

(** ** The matrix loops of write_graph *)

Lemma slots_before_S n k : slots_before n (S k) = slots_before n k + (n - 1 - k).
Proof. reflexivity. Qed.

Lemma slots_before_mono n k k' : k ≤ k' → slots_before n k ≤ slots_before n k'.
Proof. induction 1; [done|]. rewrite slots_before_S. lia. Qed.

Lemma slots_before_double n k : k ≤ n → 2 * slots_before n k + k * (k + 1) = 2 * k * n.
Proof.
  induction k as [|k IH]; intros Hk; [done|]. rewrite slots_before_S.
  specialize (IH ltac:(lia)). lia.
Qed.

Lemma triangle_number_slots (n : nat) :
  Z.to_nat (triangle_number (Z.of_nat n - 1)) = slots_before n n.
Proof.
  pose proof (slots_before_double n n (le_n n)) as H. unfold triangle_number.
  replace ((Z.of_nat n - 1) * (Z.of_nat n - 1 + 1))%Z
    with (Z.of_nat (slots_before n n) * 2)%Z by lia.
  rewrite Z.quot_mul by done. apply Nat2Z.id.
Qed.

Lemma square_replicate n : square n (replicate n (replicate n 0%Z)).
Proof.
  split; [apply length_replicate|]. intros r line [-> _]%lookup_replicate.
  apply length_replicate.
Qed.

Lemma cell_replicate n r c : r < n → c < n → cell (replicate n (replicate n 0%Z)) r c = Some 0%Z.
Proof.
  intros Hr Hc. unfold cell. rewrite lookup_replicate_2 by done.
  change (replicate n 0%Z !! c = Some 0%Z). by apply lookup_replicate_2.
Qed.

Lemma square_set n M r0 c0 v : square n M → square n (alter (<[c0 := v]>) r0 M).
Proof.
  intros [Hlen Hrows]. split; [by rewrite length_alter|]. intros r line Hr.
  destruct (decide (r = r0)) as [->|Hne].
  - rewrite list_lookup_alter_eq in Hr. destruct (M !! r0) as [l|] eqn:E; simpl in Hr; [|done].
    injection Hr as <-. rewrite length_insert. by apply (Hrows r0).
  - rewrite list_lookup_alter_ne in Hr by done. by apply (Hrows r).
Qed.

Lemma cell_set n M r0 c0 v r c :
  square n M → r0 < n → c0 < n →
  cell (alter (<[c0 := v]>) r0 M) r c
  = if decide (r = r0 ∧ c = c0) then Some v else cell M r c.
Proof.
  intros [Hlen Hrows] Hr0 Hc0. unfold cell. destruct (decide (r = r0)) as [->|Hne].
  - rewrite list_lookup_alter_eq.
    destruct (lookup_lt_is_Some_2 M r0) as [l Hl]; [lia|]. rewrite Hl. simpl.
    pose proof (Hrows r0 l Hl) as Hll. case_decide as Hd.
    + destruct Hd as [_ ->]. apply list_lookup_insert_eq. lia.
    + apply list_lookup_insert_ne. intros ->. by apply Hd.
  - rewrite list_lookup_alter_ne by done. case_decide as Hd; [by destruct Hd|done].
Qed.

Lemma cell_Some n M r c : square n M → r < n → c < n → is_Some (cell M r c).
Proof.
  intros [Hlen Hrows] Hr Hc. unfold cell.
  destruct (lookup_lt_is_Some_2 M r) as [l Hl]; [lia|]. rewrite Hl. simpl.
  apply lookup_lt_is_Some_2. rewrite (Hrows r l Hl). done.
Qed.

Section matrix.
Context (n : nat) (edgeSet : list bool).
Hypothesis Hlen : length edgeSet = slots_before n n.

Lemma filling_start : filling n edgeSet 0 0 (replicate n (replicate n 0%Z)).
Proof using Hlen.
  split; [apply square_replicate|]. intros r c Hr Hc. rewrite cell_replicate by done.
  rewrite decide_False; [done|]. unfold filled. lia.
Qed.

Lemma filling_next_column k M : filling n edgeSet k n M → filling n edgeSet (S k) 0 M.
Proof using Hlen.
  intros [Hsq Hcells]. split; [done|]. intros r c Hr Hc. rewrite Hcells by done.
  destruct (decide (filled k n r c)) as [Hf|Hf], (decide (filled (S k) 0 r c)) as [Hf'|Hf'];
    try done; exfalso; unfold filled in *; lia.
Qed.

(** One turn of the inner loop: row [i] of column [k]. *)
Lemma cell_step_spec k i M line :
  k < n → i < n → filling n edgeSet k i M →
  ∃ M', cell_step edgeSet k i (M, slots_before n k + (i - (k + 1)), line)
        = Done (M', slots_before n k + (S i - (k + 1)),
                line ++ [slot_value n edgeSet i k]) ∧
        filling n edgeSet k (S i) M'.
Proof using Hlen.
  intros Hk Hi [Hsq Hcells]. unfold cell_step.
  destruct (decide (k + 1 ≤ i)) as [Hki|Hki].
  - rewrite bool_decide_eq_true_2 by done.
    set (j := slots_before n k + (i - (k + 1))).
    assert (j < length edgeSet) as Hj.
    { rewrite Hlen. pose proof (slots_before_mono n (S k) n). rewrite slots_before_S in *.
      unfold j. lia. }
    destruct (lookup_lt_is_Some_2 edgeSet j Hj) as [b Hb].
    rewrite (at_index_Some _ _ _ Hb), !bind_Done.
    assert (slot_value n edgeSet i k = Z.b2z b ∧ slot_value n edgeSet k i = Z.b2z b)
      as [Hv1 Hv2].
    { unfold slot_value. rewrite !decide_False by lia.
      replace (i `min` k) with k by lia. replace (i `max` k) with i by lia.
      replace (k `min` i) with k by lia. replace (k `max` i) with i by lia.
      replace (slots_before n k + (i - k - 1)) with j by (unfold j; lia).
      by rewrite Hb. }
    set (M1 := alter (<[k := Z.b2z b]>) i M).
    set (M2 := alter (<[i := Z.b2z b]>) k M1).
    assert (square n M1) as Hsq1 by (by apply square_set).
    assert (square n M2) as Hsq2 by (by apply square_set).
    assert (∀ r c, r < n → c < n →
                   cell M2 r c
                   = Some (if decide (filled k (S i) r c)
                           then slot_value n edgeSet r c else 0%Z)) as Hcells2.
    { intros r c Hr Hc. unfold M2. rewrite (cell_set n) by done.
      unfold M1. rewrite (cell_set n) by done.
      destruct (decide (r = k ∧ c = i)) as [[-> ->]|Hne1].
      { rewrite decide_True; [by rewrite Hv2|]. unfold filled. lia. }
      destruct (decide (r = i ∧ c = k)) as [[-> ->]|Hne2].
      { rewrite decide_True; [by rewrite Hv1|]. unfold filled. lia. }
      rewrite Hcells by done.
      destruct (decide (filled k i r c)) as [Hf|Hf],
               (decide (filled k (S i) r c)) as [Hf'|Hf'];
        try done; exfalso; unfold filled in *; lia. }
    exists M2. split; [|done].
    destruct (lookup_lt_is_Some_2 M2 i) as [row Hrow]; [destruct Hsq2; lia|].
    pose proof (Hcells2 i k Hi Hk) as Hik. unfold cell in Hik. rewrite Hrow in Hik.
    simpl in Hik. rewrite decide_True in Hik by (unfold filled; lia).
    rewrite (at_index_Some _ _ _ Hrow), bind_Done, (at_index_Some _ _ _ Hik), bind_Done.
    do 3 f_equal. lia.
  - rewrite bool_decide_eq_false_2 by done. rewrite !bind_Done.
    assert (∀ r c, r < n → c < n →
                   cell M r c
                   = Some (if decide (filled k (S i) r c)
                           then slot_value n edgeSet r c else 0%Z)) as Hcells'.
    { intros r c Hr Hc. rewrite Hcells by done.
      destruct (decide (filled k i r c)) as [Hf|Hf],
               (decide (filled k (S i) r c)) as [Hf'|Hf'];
        try done; exfalso; unfold filled in *; lia. }
    exists M. split; [|done].
    destruct (lookup_lt_is_Some_2 M i) as [row Hrow]; [destruct Hsq; lia|].
    pose proof (Hcells' i k Hi Hk) as Hik. unfold cell in Hik. rewrite Hrow in Hik.
    simpl in Hik.
    assert ((if decide (filled k (S i) i k) then slot_value n edgeSet i k else 0%Z)
            = slot_value n edgeSet i k) as Hval.
    { case_decide as Hf; [done|]. unfold slot_value. case_decide as Hd; [done|].
      exfalso. apply Hf. unfold filled. lia. }
    rewrite Hval in Hik.
    rewrite (at_index_Some _ _ _ Hrow), bind_Done, (at_index_Some _ _ _ Hik), bind_Done.
    do 3 f_equal. lia.
Qed.

(** The inner loop over the rows of column [k]. *)
Lemma column_rows_spec k t M :
  k < n → t ≤ n → filling n edgeSet k 0 M →
  ∃ M', for_range 0 t (cell_step edgeSet k) (M, slots_before n k, [])
        = Done (M', slots_before n k + (t - (k + 1)),
                (fun i => slot_value n edgeSet i k) <$> seq 0 t) ∧
        filling n edgeSet k t M'.
Proof using Hlen.
  intros Hk. induction t as [|t IH]; intros Ht Hfill.
  - exists M. rewrite for_range_0. split; [|done]. do 3 f_equal. lia.
  - destruct IH as (M1 & Hrun & Hfill1); [lia|done|].
    destruct (cell_step_spec k t M1 ((fun i => slot_value n edgeSet i k) <$> seq 0 t))
      as (M2 & Hstep & Hfill2); [done|lia|done|].
    exists M2. rewrite for_range_snoc, Hrun, bind_Done, Nat.add_0_l, Hstep.
    split; [|done]. by rewrite seq_S, fmap_app.
Qed.

Lemma column_step_spec k M ls :
  k < n → filling n edgeSet k 0 M →
  ∃ M', column_step edgeSet n k (M, slots_before n k, ls)
        = Done (M', slots_before n (S k),
                ls ++ [(fun i => slot_value n edgeSet i k) <$> seq 0 n]) ∧
        filling n edgeSet (S k) 0 M'.
Proof using Hlen.
  intros Hk Hfill. destruct (column_rows_spec k n M Hk (le_n n) Hfill) as (M' & Hrun & Hfill').
  exists M'. unfold column_step. rewrite Hrun, bind_Done.
  split; [|by apply filling_next_column]. do 3 f_equal. rewrite slots_before_S. lia.
Qed.

(** The whole writing loop: the lines written are the rows of the matrix
    of [slot_value]. *)
Lemma write_loop_spec t :
  t ≤ n →
  ∃ M, for_range 0 t (column_step edgeSet n) (replicate n (replicate n 0%Z), 0, [])
       = Done (M, slots_before n t,
               (fun k => (fun i => slot_value n edgeSet i k) <$> seq 0 n) <$> seq 0 t) ∧
       filling n edgeSet t 0 M.
Proof using Hlen.
  induction t as [|t IH]; intros Ht.
  - exists (replicate n (replicate n 0%Z)). rewrite for_range_0. split; [done|].
    apply filling_start.
  - destruct IH as (M1 & Hrun & Hfill1); [lia|].
    destruct (column_step_spec t M1
                ((fun k => (fun i => slot_value n edgeSet i k) <$> seq 0 n) <$> seq 0 t))
      as (M2 & Hstep & Hfill2); [lia|done|].
    exists M2. rewrite for_range_snoc, Hrun, bind_Done, Nat.add_0_l, Hstep.
    split; [|done]. by rewrite seq_S, fmap_app.
Qed.
End matrix.

(** ** The matrix that write_graph writes *)

Lemma slot_value_sym n es r c : slot_value n es r c = slot_value n es c r.
Proof.
  unfold slot_value. destruct (decide (r = c)) as [->|Hne]; [by rewrite decide_True|].
  rewrite decide_False by lia. by rewrite (Nat.min_comm c r), (Nat.max_comm c r).
Qed.

Lemma cell_lines_of n es k i :
  cell (lines_of n es) k i
  = if decide (k < n ∧ i < n) then Some (slot_value n es i k) else None.
Proof.
  unfold cell, lines_of. rewrite list_lookup_fmap.
  destruct (decide (k < n)) as [Hk|Hk].
  - rewrite lookup_seq_lt by done. simpl. rewrite list_lookup_fmap.
    destruct (decide (i < n)) as [Hi|Hi].
    + rewrite lookup_seq_lt by done. simpl. by rewrite decide_True.
    + rewrite lookup_seq_ge by lia. simpl. rewrite decide_False; [done|lia].
  - rewrite lookup_seq_ge by lia. simpl. rewrite decide_False; [done|lia].
Qed.

Lemma lines_of_symmetric n es : symmetric (lines_of n es).
Proof.
  intros r c. rewrite !cell_lines_of.
  destruct (decide (r < n ∧ c < n)) as [H|H], (decide (c < n ∧ r < n)) as [H'|H'];
    try done; try (exfalso; lia). by rewrite slot_value_sym.
Qed.

Lemma lines_of_zero_diagonal n es : zero_diagonal (lines_of n es).
Proof.
  intros i x. rewrite cell_lines_of. case_decide; [|done]. intros [= <-].
  unfold slot_value. by rewrite decide_True.
Qed.

Lemma ones_b2z (l : list bool) :
  length (filter (fun x => x = 1%Z) (Z.b2z <$> l)) = count_true l.
Proof.
  induction l as [|b l IH]; [done|]. rewrite fmap_cons, filter_cons.
  change (count_true (b :: l)) with (Nat.b2n b + count_true l).
  destruct b; cbn [Z.b2z Nat.b2n]; case_decide; try done; simpl; lia.
Qed.

(** Above the diagonal, line [t] holds the slots of column [t] in their
    order. *)
Lemma line_above_diagonal n es t :
  t < n → slots_before n n ≤ length es →
  drop (S t) ((fun i => slot_value n es i t) <$> seq 0 n)
  = Z.b2z <$> take (n - 1 - t) (drop (slots_before n t) es).
Proof.
  intros Ht Hlen. apply list_eq. intros d.
  rewrite lookup_drop, !list_lookup_fmap.
  pose proof (slots_before_mono n (S t) n ltac:(lia)) as Hmono.
  rewrite slots_before_S in Hmono.
  destruct (decide (d < n - 1 - t)) as [Hd|Hd].
  - rewrite lookup_seq_lt by lia. rewrite lookup_take_lt by done. rewrite lookup_drop.
    destruct (lookup_lt_is_Some_2 es (slots_before n t + d)) as [b Hb]; [lia|].
    rewrite Hb. simpl. f_equal. unfold slot_value. rewrite decide_False by lia.
    replace (S (t + d) `min` t) with t by lia.
    replace (S (t + d) `max` t - t - 1) with d by lia. by rewrite Hb.
  - rewrite lookup_seq_ge by lia. by rewrite lookup_take_ge by lia.
Qed.

Lemma ones_above_snoc M line :
  ones_above (M ++ [line])
  = ones_above M + length (filter (fun x => x = 1%Z) (drop (S (length M)) line)).
Proof.
  unfold ones_above. rewrite imap_app. simpl. rewrite Nat.add_0_r.
  generalize (imap (fun row l => length (filter (fun x => x = 1%Z) (drop (S row) l))) M).
  intros l. induction l as [|x l IH]; simpl; lia.
Qed.

Lemma ones_above_rows n es t :
  t ≤ n → slots_before n n ≤ length es →
  ones_above ((fun k => (fun i => slot_value n es i k) <$> seq 0 n) <$> seq 0 t)
  = count_true (take (slots_before n t) es).
Proof.
  intros Ht Hlen. induction t as [|t IH]; [done|].
  rewrite seq_S, fmap_app. simpl. rewrite ones_above_snoc, IH by lia.
  rewrite length_fmap, length_seq, line_above_diagonal by lia.
  rewrite ones_b2z, <-count_true_app, take_take_drop. done.
Qed.

Lemma ones_above_lines_of n es :
  length es = slots_before n n → ones_above (lines_of n es) = count_true es.
Proof.
  intros Hlen. unfold lines_of. rewrite ones_above_rows by lia.
  by rewrite <-Hlen, firstn_all.
Qed.

(** [write_graph] always returns; the lines it writes form a symmetric
    matrix with a zero diagonal, with as many ones above the diagonal as
    the [edgeSet] loop has counted matches; the reads of [indices[k]] are
    those of [hits]. *)
Lemma write_graph_run (indices : nat → Z) (VERTEX : Z) :
  (0 ≤ VERTEX)%Z →
  ∃ w, write_graph indices VERTEX = Done w ∧
       reads w = hits indices <$> seq 0 (Z.to_nat (triangle_number (VERTEX - 1))) ∧
       length (edgeSet w) = Z.to_nat (triangle_number (VERTEX - 1)) ∧
       lines w = lines_of (Z.to_nat VERTEX) (edgeSet w) ∧
       symmetric (lines w) ∧ zero_diagonal (lines w) ∧
       ones_above (lines w) = hits indices (Z.to_nat (triangle_number (VERTEX - 1))).
Proof.
  intros Hv.
  set (n := Z.to_nat VERTEX). set (E := Z.to_nat (triangle_number (VERTEX - 1))).
  assert (E = slots_before n n) as HE.
  { unfold E, n. rewrite <-(Z2Nat.id VERTEX) at 1 by done. apply triangle_number_slots. }
  destruct (edge_loop_spec indices E E (le_n E)) as (es & Hrun & Hlen & _ & _ & Hcount).
  destruct (write_loop_spec n es) with (t := n) as (M & Hwrite & _); [lia|done|].
  exists (mkWritten (hits indices <$> seq 0 E) es M (lines_of n es)).
  split; [|split; [done|split; [done|split; [done|split; [|split]]]]].
  - unfold write_graph. fold E n. rewrite Hrun, bind_Done, Hwrite, bind_Done. done.
  - apply lines_of_symmetric.
  - apply lines_of_zero_diagonal.
  - simpl. rewrite ones_above_lines_of by lia. done.
Qed.

Lemma triangle_number_nonneg (V : Z) : (0 ≤ V)%Z → (0 ≤ triangle_number (V - 1))%Z.
Proof.
  intros HV. unfold triangle_number. apply Z.quot_pos; [|done].
  destruct (decide (V = 0%Z)) as [->|Hne]; [done|].
  apply Z.mul_nonneg_nonneg; lia.
Qed.

(** When the memory behind the array holds no index that the loop still
    compares against, the graph written has exactly [m] edges. *)
Lemma write_graph_edge_count_benign (VERTEX : Z) m a rest :
  (0 ≤ VERTEX)%Z → combination (triangle_number (VERTEX - 1)) m a → 1 ≤ m →
  (∀ x i, last a = Some x → (x < Z.of_nat i)%Z → rest 0 ≠ Z.of_nat i) →
  ∃ w, write_graph (behind a rest) VERTEX = Done w ∧
       symmetric (lines w) ∧ zero_diagonal (lines w) ∧ ones_above (lines w) = m.
Proof.
  intros HV Hc Hm Hben.
  destruct (write_graph_run (behind a rest) VERTEX HV)
    as (w & Hrun & _ & _ & _ & Hsym & Hzero & Hones).
  exists w. split; [done|]. split; [done|]. split; [done|]. rewrite Hones.
  apply hits_benign_end; [|done|done].
  rewrite Z2Nat.id by by apply triangle_number_nonneg. done.
Qed.

(** Whenever the last ordinal is not the last slot, [write_graph] reads
    [indices[k]] with [k] the extent of the array. *)
Lemma write_graph_reads_extent (VERTEX : Z) n m a rest x :
  (0 ≤ VERTEX)%Z → combination n m a → last a = Some x →
  (x + 1 < triangle_number (VERTEX - 1))%Z →
  ∃ w, write_graph (behind a rest) VERTEX = Done w ∧ length a ∈ reads w.
Proof.
  intros HV Hc Hx Hroom.
  destruct (write_graph_run (behind a rest) VERTEX HV) as (w & Hrun & Hreads & _).
  exists w. split; [done|]. rewrite Hreads.
  destruct (edge_loop_reads_past_end n m a rest x
              (Z.to_nat (triangle_number (VERTEX - 1))) Hc Hx) as (k & es & _ & Hin); [lia|].
  done.
Qed.

(** * Further properties of the code *)

(** ** create_graph: what it reads and what it leaves alone *)

Lemma bind_ext_in {A B} (f g : A → list B) (l : list A) :
  (∀ x, x ∈ l → f x = g x) → l ≫= f = l ≫= g.
Proof.
  induction l as [|a l IH]; intros H; [done|]. rewrite !bind_cons.
  rewrite (H a) by apply list_elem_of_here. rewrite IH; [done|].
  intros x Hx. apply H. by apply list_elem_of_further.
Qed.

Lemma stored_ext vertexCount cells cells' :
  (∀ r c, r ≤ c → c < vertexCount →
          entry vertexCount cells r c = entry vertexCount cells' r c) →
  stored vertexCount cells = stored vertexCount cells'.
Proof.
  intros H. unfold stored. apply bind_ext_in. intros r _.
  unfold stored_row. apply bind_ext_in. intros c Hc%elem_of_seq.
  unfold stored_cell. destruct (decide (r ≤ c)) as [Hrc|Hrc].
  - rewrite H by lia. done.
  - rewrite !bool_decide_eq_false_2; [done|lia..].
Qed.

Lemma entry_app vertexCount cells rest r c :
  r * vertexCount + c < length cells →
  entry vertexCount (cells ++ rest) r c = entry vertexCount cells r c.
Proof. intros H. unfold entry. by rewrite lookup_app_l. Qed.

Lemma stored_app vertexCount cells rest :
  vertexCount * vertexCount ≤ length cells →
  stored vertexCount (cells ++ rest) = stored vertexCount cells.
Proof.
  intros H. apply stored_ext. intros r c Hrc Hc. apply entry_app.
  assert (r * vertexCount + vertexCount ≤ vertexCount * vertexCount); [|lia].
  replace (r * vertexCount + vertexCount) with (S r * vertexCount) by lia.
  apply Nat.mul_le_mono_r. lia.
Qed.

(** X1.  On a matrix of [int] values [create_graph] appends to the [G]
    it is handed and reads the vertex count and the [V * V] tokens of the
    matrix, nothing more: the edges already in [G] stay in front, and
    whatever follows the matrix in the file does not change the result. *)
Theorem create_graph_appends (vertexCount : nat) (cells : list Z) :
  (Z.of_nat vertexCount < 4294967296)%Z →
  length cells = vertexCount * vertexCount →
  Forall is_int cells →
  ∃ G, create_graph (Z.of_nat vertexCount :: cells) [] = Done (G, vertexCount) ∧
       ∀ G0 rest, create_graph (Z.of_nat vertexCount :: cells ++ rest) G0
                  = Done (G0 ++ G, vertexCount).
Proof.
  intros Hv Hlen _. exists (stored vertexCount cells). split.
  - rewrite create_graph_run by lia. done.
  - intros G0 rest. rewrite create_graph_run by (rewrite ?length_app; lia).
    rewrite stored_app by lia. done.
Qed.

Lemma create_graph_appends_witness :
  ∃ G, create_graph [2; 0; 5; 5; 0]%Z [] = Done (G, 2) ∧
       ∀ G0 rest, create_graph (2 :: [0; 5; 5; 0] ++ rest)%Z G0 = Done (G0 ++ G, 2).
Proof.
  apply (create_graph_appends 2 [0; 5; 5; 0]%Z); [done|reflexivity|int_tokens].
Defined.

Lemma for_range_fuel {St} (body : nat → St → run St) count :
  (∀ i s, body i s ≠ OutOfFuel) → ∀ from s, for_range from count body s ≠ OutOfFuel.
Proof.
  intros Hbody. induction count as [|count IH]; intros from s; [done|].
  rewrite for_range_S. destruct (body from s) as [s'| |] eqn:E; [|done|].
  - rewrite bind_Done. apply IH.
  - by apply Hbody in E.
Qed.

Lemma create_graph_fuel inputFile G : create_graph inputFile G ≠ OutOfFuel.
Proof.
  unfold create_graph. destruct inputFile as [|n inp]; [done|].
  cbn [read_int]. rewrite bind_Done. case_bool_decide; [|done].
  destruct (for_range 0 (Z.to_nat n) (create_row (Z.to_nat n)) (inp, G)) as [r| |] eqn:E;
    [done..|].
  exfalso. revert E. apply for_range_fuel. intros j s. unfold create_row.
  apply for_range_fuel. intros i [inp' G']. unfold create_cell. by destruct inp'.
Qed.

(** X2.  When fewer than [V * V] tokens, all [int] values, follow the
    vertex count, the stream runs dry inside the loops and [create_graph]
    tests a [k] that was never set; with a full matrix of [int] values it
    returns. *)
Theorem create_graph_short_input (vertexCount : nat) (cells : list Z) (G0 : list WeightedEdge) :
  (Z.of_nat vertexCount < 4294967296)%Z →
  Forall is_int cells →
  create_graph (Z.of_nat vertexCount :: cells) G0 = OutOfBounds
  ↔ length cells < vertexCount * vertexCount.
Proof.
  intros Hv _. split.
  - intros H. destruct (decide (length cells < vertexCount * vertexCount)); [done|].
    rewrite create_graph_run in H by lia. done.
  - intros Hshort.
    destruct (create_graph (Z.of_nat vertexCount :: cells) G0) as [[G V]| |] eqn:E; [|done|].
    + apply create_graph_Done in E as (cells' & [= HV <-] & _ & Hlen & _).
      apply Nat2Z.inj in HV as <-. lia.
    + by apply create_graph_fuel in E.
Qed.

Lemma create_graph_short_input_witness :
  create_graph [2; 0; 5; 5]%Z [] = OutOfBounds ↔ length [0; 5; 5]%Z < 2 * 2.
Proof. apply (create_graph_short_input 2 [0; 5; 5]%Z []); [done|int_tokens]. Defined.

(** X3.  The entries left of the diagonal are read and thrown away: two
    files with the same vertex count whose matrices of [int] values agree
    on and right of the diagonal give the same graph, symmetric or not. *)
Theorem create_graph_ignores_lower_half (vertexCount : nat) (cells cells' : list Z)
    (G0 : list WeightedEdge) :
  (Z.of_nat vertexCount < 4294967296)%Z →
  vertexCount * vertexCount ≤ length cells →
  vertexCount * vertexCount ≤ length cells' →
  Forall is_int cells → Forall is_int cells' →
  (∀ row col, row ≤ col → col < vertexCount →
              entry vertexCount cells row col = entry vertexCount cells' row col) →
  ∃ G, create_graph (Z.of_nat vertexCount :: cells) G0 = Done (G, vertexCount) ∧
       create_graph (Z.of_nat vertexCount :: cells') G0 = Done (G, vertexCount).
Proof.
  intros Hv Hlen Hlen' _ _ Hsame. exists (G0 ++ stored vertexCount cells).
  rewrite !create_graph_run by lia. by rewrite (stored_ext _ _ _ Hsame).
Qed.

Lemma create_graph_ignores_lower_half_witness :
  ∃ G, create_graph [2; 1; 5; 5; 0]%Z [] = Done (G, 2) ∧
       create_graph [2; 1; 5; 9; 0]%Z [] = Done (G, 2).
Proof.
  apply (create_graph_ignores_lower_half 2 [1; 5; 5; 0]%Z [1; 5; 9; 0]%Z []);
    [done | simpl; lia | simpl; lia | int_tokens | int_tokens |].
  intros [|[|row]] [|[|col]] Hrc Hc; first [reflexivity | exfalso; lia].
Defined.

Lemma length_stored_row_prefix vertexCount cells r t :
  length (seq 0 t ≫= (stored_cell vertexCount cells r)) ≤ t - r.
Proof.
  induction t as [|t IH]; [done|].
  rewrite seq_S, bind_app, length_app. simpl. rewrite app_nil_r.
  destruct (stored_cell vertexCount cells r t) as [|e [|e' l]] eqn:E; cbn [length]; [lia| |].
  - assert (e ∈ stored_cell vertexCount cells r t) as He by (rewrite E; apply list_elem_of_here).
    apply elem_of_stored_cell in He as [Hr _]. lia.
  - unfold stored_cell in E. case_bool_decide; discriminate.
Qed.

Lemma length_stored_prefix vertexCount cells t :
  t ≤ vertexCount →
  2 * length (seq 0 t ≫= (stored_row vertexCount cells)) + t * t ≤ 2 * t * vertexCount + t.
Proof.
  induction t as [|t IH]; intros Ht; [simpl; lia|].
  rewrite seq_S, bind_app, length_app.
  assert (length ([0 + t] ≫= (stored_row vertexCount cells)) ≤ vertexCount - t) as Hrow.
  { cbn [mbind list_bind]. rewrite app_nil_r. apply length_stored_row_prefix. }
  specialize (IH ltac:(lia)). lia.
Qed.

(** X4.  The graph [create_graph] builds from an empty [G] has every
    endpoint among the vertices [0 .. V-1], at most one edge for each pair
    of endpoints (a non-zero diagonal entry gives a loop), and so at most
    [V (V + 1) / 2] edges. *)
Theorem create_graph_size inputFile G vertexCount :
  create_graph inputFile [] = Done (G, vertexCount) →
  (∀ e, e ∈ G → is_vertex vertexCount (getU e) ∧ is_vertex vertexCount (getV e)) ∧
  (∀ e e', e ∈ G → e' ∈ G → getU e = getU e' → getV e = getV e' → e = e') ∧
  2 * length G ≤ vertexCount * (vertexCount + 1).
Proof.
  intros H. pose proof (create_graph_wf _ _ _ H) as [_ Hwf].
  apply create_graph_Done in H as (cells & -> & _ & _ & ->). cbn [app] in *.
  split; [done|]. split.
  - intros e e' He He' Hu Hv.
    destruct (Hwf e He) as [Hue Hve]. unfold is_vertex in *.
    symmetry. apply (stored_joins_unique vertexCount cells e e'
                       (Z.to_nat (getU e)) (Z.to_nat (getV e))); [done..| |].
    + left. rewrite !Z2Nat.id by lia. done.
    + left. rewrite !Z2Nat.id by lia. done.
  - pose proof (length_stored_prefix vertexCount cells vertexCount (le_n _)) as Hlen.
    fold (stored vertexCount cells) in Hlen. lia.
Qed.

Lemma create_graph_size_witness :
  (∀ e, e ∈ [mkWeightedEdge 0 0 1; mkWeightedEdge 1 0 5] →
        is_vertex 2 (getU e) ∧ is_vertex 2 (getV e)) ∧
  (∀ e e', e ∈ [mkWeightedEdge 0 0 1; mkWeightedEdge 1 0 5] →
           e' ∈ [mkWeightedEdge 0 0 1; mkWeightedEdge 1 0 5] →
           getU e = getU e' → getV e = getV e' → e = e') ∧
  2 * length [mkWeightedEdge 0 0 1; mkWeightedEdge 1 0 5] ≤ 2 * (2 + 1).
Proof.
  apply (create_graph_size [2; 1; 5; 5; 0]%Z [mkWeightedEdge 0 0 1; mkWeightedEdge 1 0 5] 2).
  reflexivity.
Defined.

(** ** min_incident: which edge it picks *)

(** The scan keeps the first of the lightest boundary edges below the
    weight it starts from, or nothing when there is none. *)
Lemma scan_from_first vT G :
  ∀ i st,
    (scan_from vT i G st = st ∧
     ∀ e, e ∈ G → boundary vT e → (st.1.2 ≤ getW e)%Z) ∨
    (∃ j e, G !! j = Some e ∧
            scan_from vT i G st = (i + j, getW e, bool_decide (getU e ∈ vT)) ∧
            boundary vT e ∧ (getW e < st.1.2)%Z ∧
            (∀ j' e', j' < j → G !! j' = Some e' → boundary vT e' → (getW e < getW e')%Z) ∧
            (∀ e', e' ∈ G → boundary vT e' → (getW e ≤ getW e')%Z)).
Proof.
  induction G as [|g G IH]; intros i st.
  - left. split; [done|]. intros e He. by apply elem_of_nil in He.
  - cbn [scan_from]. rewrite scan_step_spec.
    destruct (decide (boundary vT g ∧ (getW g < st.1.2)%Z)) as [[Hb Hw]|Hno].
    + destruct (IH (S i) (i, getW g, bool_decide (getU g ∈ vT)))
        as [[Heq Hall]|(j & e & Hl & Heq & Hbe & Hwe & Hfirst & Hmin)].
      * right. exists 0, g. rewrite Nat.add_0_r. split; [done|]. split; [done|].
        split; [done|]. split; [done|]. split; [intros j' e' Hj'; lia|].
        intros e' [->|He']%elem_of_cons Hb'; [lia|]. by apply Hall.
      * right. exists (S j), e. cbn [fst snd] in *. split; [done|].
        split; [rewrite Heq; f_equal; f_equal; lia|].
        split; [done|]. split; [lia|]. split.
        -- intros [|j'] e' Hj' Hl' Hb'.
           ++ injection Hl' as <-. done.
           ++ apply (Hfirst j' e'); [lia|done..].
        -- intros e' [->|He']%elem_of_cons Hb'; [lia|]. by apply Hmin.
    + destruct (IH (S i) st)
        as [[Heq Hall]|(j & e & Hl & Heq & Hbe & Hwe & Hfirst & Hmin)].
      * left. split; [done|]. intros e' [->|He']%elem_of_cons Hb'; [|by apply Hall].
        destruct (decide (getW g < st.1.2)%Z); [|lia]. exfalso. by apply Hno.
      * assert (boundary vT g → (getW e < getW g)%Z) as Hg.
        { intros Hb. destruct (decide (getW g < st.1.2)%Z); [|lia]. exfalso. by apply Hno. }
        right. exists (S j), e. split; [done|].
        split; [rewrite Heq; f_equal; f_equal; lia|].
        split; [done|]. split; [done|]. split.
        -- intros [|j'] e' Hj' Hl' Hb'.
           ++ injection Hl' as <-. by apply Hg.
           ++ apply (Hfirst j' e'); [lia|done..].
        -- intros e' [->|He']%elem_of_cons Hb'; [|by apply Hmin].
           apply Hg in Hb'. lia.
Qed.

(** X5.  When some edge with exactly one endpoint in [vT] weighs less
    than [INT_MAX], [min_incident] returns the index of a lightest such
    edge, and among equally light ones the one that comes first in [G];
    the vertex it appends to [vT] is the endpoint of that edge outside
    [vT]. *)
Theorem min_incident_first_minimum G vT e0 :
  e0 ∈ G → boundary vT e0 → (getW e0 < INT_MAX)%Z →
  ∃ i e x y,
    min_incident G vT = Done (i, vT ++ [x]) ∧
    G !! i = Some e ∧ boundary vT e ∧
    joins e x y ∧ ¬ x ∈ vT ∧ y ∈ vT ∧
    (∀ e', e' ∈ G → boundary vT e' → (getW e ≤ getW e')%Z) ∧
    (∀ j e', j < i → G !! j = Some e' → boundary vT e' → (getW e < getW e')%Z).
Proof.
  intros He0 Hb0 Hw0.
  destruct (scan_from_first vT G 0 (0, INT_MAX, false))
    as [[_ Hall]|(i & e & Hl & Hscan & Hb & _ & Hfirst & Hmin)].
  { specialize (Hall e0 He0 Hb0). cbn [fst snd] in Hall. lia. }
  unfold min_incident, min_scan, at_index. rewrite Hscan. cbn [Nat.add]. rewrite Hl, bind_Done.
  destruct Hb as [[Hu Hv]|[Hu Hv]].
  - rewrite bool_decide_eq_true_2 by done.
    exists i, e, (getV e), (getU e). repeat split; auto; [by left|]. right; done.
  - rewrite bool_decide_eq_false_2 by done.
    exists i, e, (getU e), (getV e). repeat split; auto; [by right|]. left; done.
Qed.

Lemma min_incident_first_minimum_witness :
  ∃ i e x y,
    min_incident [mkWeightedEdge 1 0 4; mkWeightedEdge 2 0 3; mkWeightedEdge 3 0 3] [0]%Z
    = Done (i, [0]%Z ++ [x]) ∧
    [mkWeightedEdge 1 0 4; mkWeightedEdge 2 0 3; mkWeightedEdge 3 0 3] !! i = Some e ∧
    boundary [0]%Z e ∧ joins e x y ∧ ¬ x ∈ [0]%Z ∧ y ∈ [0]%Z ∧
    (∀ e', e' ∈ [mkWeightedEdge 1 0 4; mkWeightedEdge 2 0 3; mkWeightedEdge 3 0 3] →
           boundary [0]%Z e' → (getW e ≤ getW e')%Z) ∧
    (∀ j e', j < i →
             [mkWeightedEdge 1 0 4; mkWeightedEdge 2 0 3; mkWeightedEdge 3 0 3] !! j = Some e' →
             boundary [0]%Z e' → (getW e < getW e')%Z).
Proof.
  apply (min_incident_first_minimum
           [mkWeightedEdge 1 0 4; mkWeightedEdge 2 0 3; mkWeightedEdge 3 0 3] [0]%Z
           (mkWeightedEdge 1 0 4)).
  - apply list_elem_of_here.
  - right. split; [|apply list_elem_of_here].
    intros H%list_elem_of_singleton. discriminate.
  - reflexivity.
Defined.

(** With an edge in [G], the index the scan ends on is an index of [G]. *)
Lemma min_incident_returns G vT e0 :
  G !! 0 = Some e0 →
  ∃ i e x, min_incident G vT = Done (i, vT ++ [x]) ∧
           G !! i = Some e ∧ (x = getU e ∨ x = getV e).
Proof.
  intros H0. pose proof (min_scan_scanned G vT) as [_ Hst].
  unfold min_incident, at_index.
  destruct (min_scan G vT) as [[i w] b]. cbn [fst snd] in Hst.
  destruct Hst as [[= -> -> ->]|(e & Hl & _)].
  - rewrite H0, bind_Done. exists 0, e0, (getU e0). auto.
  - rewrite Hl, bind_Done. exists i, e. destruct b; eauto.
Qed.

(** X6.  On a graph with at least one edge [min_incident] never fails,
    whatever [vT] holds: the index it returns is an index of [G], and
    [vT] has grown by exactly one entry, an endpoint of the edge at that
    index. *)
Theorem min_incident_in_bounds G vT e0 :
  G !! 0 = Some e0 →
  ∃ i e x, min_incident G vT = Done (i, vT ++ [x]) ∧
           G !! i = Some e ∧ (x = getU e ∨ x = getV e).
Proof. apply min_incident_returns. Qed.

Lemma min_incident_in_bounds_witness :
  ∃ i e x, min_incident [mkWeightedEdge 1 0 5; mkWeightedEdge 3 2 1] [7; 7]%Z
           = Done (i, [7; 7]%Z ++ [x]) ∧
           [mkWeightedEdge 1 0 5; mkWeightedEdge 3 2 1] !! i = Some e ∧
           (x = getU e ∨ x = getV e).
Proof.
  apply (min_incident_in_bounds [mkWeightedEdge 1 0 5; mkWeightedEdge 3 2 1] [7; 7]%Z
           (mkWeightedEdge 1 0 5)).
  reflexivity.
Defined.

Lemma scan_from_same_set vT vT' G :
  (∀ x, x ∈ vT ↔ x ∈ vT') → ∀ i st, scan_from vT i G st = scan_from vT' i G st.
Proof.
  intros Hset. induction G as [|g G IH]; intros i st; [done|].
  cbn [scan_from]. rewrite IH. f_equal. unfold scan_step. rewrite !matches_spec.
  rewrite (bool_decide_ext (getU g ∈ vT) (getU g ∈ vT')) by apply Hset.
  rewrite (bool_decide_ext (getV g ∈ vT) (getV g ∈ vT')) by apply Hset. done.
Qed.

(** X7.  Only the set of vertices in [vT] matters to [min_incident]: two
    frontiers with the same members, in any order and with any
    repetitions, lead to the same index and the same appended vertex. *)
Theorem min_incident_frontier_as_set G vT vT' :
  (∀ x, x ∈ vT ↔ x ∈ vT') →
  match min_incident G vT, min_incident G vT' with
  | Done (i, f), Done (i', f') =>
      i = i' ∧ ∃ x, f = vT ++ [x] ∧ f' = vT' ++ [x]
  | OutOfBounds, OutOfBounds => G = []
  | _, _ => False
  end.
Proof.
  intros Hset. unfold min_incident, min_scan.
  rewrite <-(scan_from_same_set vT vT' G Hset).
  pose proof (min_scan_scanned G vT) as [_ Hst]. unfold min_scan in Hst.
  destruct (scan_from vT 0 G (0, INT_MAX, false)) as [[i w] b]. cbn [fst snd] in Hst.
  unfold at_index. destruct (G !! i) as [e|] eqn:Hl.
  - rewrite !bind_Done. split; [done|]. eauto.
  - cbn. destruct Hst as [[= -> -> ->]|(e & Hl' & _)]; [|congruence].
    by destruct G.
Qed.

Lemma min_incident_frontier_as_set_witness :
  match min_incident [mkWeightedEdge 1 0 5; mkWeightedEdge 2 1 1] [0; 1]%Z,
        min_incident [mkWeightedEdge 1 0 5; mkWeightedEdge 2 1 1] [1; 0; 1]%Z with
  | Done (i, f), Done (i', f') =>
      i = i' ∧ ∃ x, f = [0; 1]%Z ++ [x] ∧ f' = [1; 0; 1]%Z ++ [x]
  | OutOfBounds, OutOfBounds => [mkWeightedEdge 1 0 5; mkWeightedEdge 2 1 1] = []
  | _, _ => False
  end.
Proof.
  apply (min_incident_frontier_as_set [mkWeightedEdge 1 0 5; mkWeightedEdge 2 1 1]
           [0; 1]%Z [1; 0; 1]%Z).
  intros x. rewrite !elem_of_cons, !elem_of_nil. tauto.
Defined.

(** ** spanning_tree: what the loop does on any graph *)

Lemma prim_body_total G st e0 :
  G !! 0 = Some e0 →
  ∃ e x, e ∈ G ∧ (x = getU e ∨ x = getV e) ∧
         prim_body G st
         = Done (mkPrim (vT st ++ [x]) (T st ++ [e]) (wrap_int (totalWeight st + getW e))).
Proof.
  intros H0. destruct (min_incident_returns G (vT st) e0 H0) as (i & e & x & Hmi & Hl & Hx).
  exists e, x. split; [by apply list_elem_of_lookup_2 in Hl|]. split; [done|].
  unfold prim_body, at_index. rewrite Hmi, bind_Done, Hl. done.
Qed.


Lemma prim_loop_total G (vertexCount : nat) e0 k :
  G !! 0 = Some e0 → 1 ≤ vertexCount → (Z.of_nat vertexCount < 4294967296)%Z →
  ∀ st, prim_shape G st → length (T st) + S k = 1 `max` (vertexCount - 1) →
  ∃ st', (∀ fuel, S k ≤ fuel → prim_loop fuel G vertexCount st = Done st') ∧
         prim_shape G st' ∧ length (T st') = 1 `max` (vertexCount - 1).
Proof.
  intros H0 Hv Hu. induction k as [|k IH]; intros st (HvT & Hsub & Hends & Htw) Hlen;
    destruct (prim_body_total G st e0 H0) as (e & x & He & Hx & Hbody).
  - eexists. split; [|split].
    + intros [|fuel] Hfuel; [lia|]. cbn [prim_loop]. rewrite Hbody, bind_Done.
      rewrite bool_decide_eq_false_2; [reflexivity|].
      cbn [T]. rewrite length_app, uint_pred_small by lia. simpl. lia.
    + unfold prim_shape. cbn [vT T totalWeight]. split; [|split; [|split]].
      * rewrite !length_app. simpl. lia.
      * intros g [Hg| ->%list_elem_of_singleton]%elem_of_app; auto.
      * intros v [Hv'| ->%list_elem_of_singleton]%elem_of_app; eauto.
      * rewrite Htw, wrap_int_add, weight_app. simpl. f_equal. lia.
    + cbn [T]. rewrite length_app. simpl. lia.
  - destruct (IH (mkPrim (vT st ++ [x]) (T st ++ [e]) (wrap_int (totalWeight st + getW e))))
      as (st' & Hrun & Hshape & Hlen').
    + unfold prim_shape. cbn [vT T totalWeight]. split; [|split; [|split]].
      * rewrite !length_app. simpl. lia.
      * intros g [Hg| ->%list_elem_of_singleton]%elem_of_app; auto.
      * intros v [Hv'| ->%list_elem_of_singleton]%elem_of_app; eauto.
      * rewrite Htw, wrap_int_add, weight_app. simpl. f_equal. lia.
    + cbn [T]. rewrite length_app. simpl. lia.
    + exists st'. split; [|done]. intros [|fuel] Hfuel; [lia|].
      cbn [prim_loop]. rewrite Hbody, bind_Done.
      rewrite bool_decide_eq_true_2; [apply Hrun; lia|].
      cbn [T]. rewrite length_app, uint_pred_small by lia. simpl. lia.
Qed.

(** X8.  Whenever the graph read from the file has an edge, connected or
    not, the loop of [spanning_tree] ends: it runs [vertexCount - 1] times
    (once when that is zero), every turn adds one edge of [G] to [T] and
    one vertex to [vT], and [totalWeight] is the sum of the weights in [T]
    reduced to an [int]. *)
Theorem spanning_tree_always_returns inputFile G vertexCount e0 :
  create_graph inputFile [] = Done (G, vertexCount) →
  G !! 0 = Some e0 →
  ∃ st, (∀ fuel, 1 `max` (vertexCount - 1) ≤ fuel → spanning_tree fuel inputFile = Done st) ∧
        length (T st) = 1 `max` (vertexCount - 1) ∧
        length (vT st) = S (length (T st)) ∧
        T st ⊆ G ∧
        totalWeight st = wrap_int (weight (T st)).
Proof.
  intros Hcreate H0.
  pose proof (create_graph_Done _ _ _ _ Hcreate) as (cells & -> & Hu & Hlen & HG).
  assert (1 ≤ vertexCount) as Hv.
  { destruct vertexCount; [|lia]. rewrite HG in H0. done. }
  destruct (prim_loop_total G vertexCount e0 (1 `max` (vertexCount - 1) - 1) H0 Hv Hu
              (mkPrim [getU e0] [] 0)) as (st & Hrun & (HvT & Hsub & _ & Htw) & HT).
  - unfold prim_shape. cbn [vT T totalWeight]. split; [done|]. split; [|split; [|done]].
    + intros g Hg. by apply elem_of_nil in Hg.
    + intros x ->%list_elem_of_singleton. exists e0.
      split; [by apply list_elem_of_lookup_2 in H0|by left].
  - cbn [T length]. lia.
  - exists st. split; [|done]. intros fuel Hfuel.
    unfold spanning_tree. rewrite Hcreate, bind_Done.
    unfold prim, at_index. rewrite H0, bind_Done. apply Hrun. lia.
Qed.

Lemma spanning_tree_always_returns_witness :
  ∃ st, (∀ fuel, 1 `max` (4 - 1) ≤ fuel →
                 spanning_tree fuel [4; 0; 1; 0; 0; 1; 0; 0; 0; 0; 0; 0; 2; 0; 0; 2; 0]%Z
                 = Done st) ∧
        length (T st) = 1 `max` (4 - 1) ∧
        length (vT st) = S (length (T st)) ∧
        T st ⊆ [mkWeightedEdge 1 0 1; mkWeightedEdge 3 2 2] ∧
        totalWeight st = wrap_int (weight (T st)).
Proof.
  apply (spanning_tree_always_returns
           [4; 0; 1; 0; 0; 1; 0; 0; 0; 0; 0; 0; 2; 0; 0; 2; 0]%Z
           [mkWeightedEdge 1 0 1; mkWeightedEdge 3 2 2] 4 (mkWeightedEdge 1 0 1));
    reflexivity.
Defined.

(** X9.  A matrix of [int] values with nothing but zeros on and right of
    the diagonal (the empty matrix of [V = 0] among them) gives a graph
    without edges,
    and [spanning_tree] then reads [G[0]] of an empty vector before the
    loop starts. *)
Theorem spanning_tree_no_edges (vertexCount : nat) (cells : list Z) (fuel : nat) :
  (Z.of_nat vertexCount < 4294967296)%Z →
  vertexCount * vertexCount ≤ length cells →
  Forall is_int cells →
  (∀ row col, row ≤ col → col < vertexCount → entry vertexCount cells row col = 0%Z) →
  create_graph (Z.of_nat vertexCount :: cells) [] = Done ([], vertexCount) ∧
  spanning_tree fuel (Z.of_nat vertexCount :: cells) = OutOfBounds.
Proof.
  intros Hu Hlen _ Hzero.
  assert (stored vertexCount cells = []) as Hnone.
  { destruct (stored vertexCount cells) as [|e l] eqn:E; [done|]. exfalso.
    assert (e ∈ stored vertexCount cells) as He by (rewrite E; apply list_elem_of_here).
    apply elem_of_stored in He as (r & c & Hrc & Hc & Hne & _). by apply Hne, Hzero. }
  assert (create_graph (Z.of_nat vertexCount :: cells) [] = Done ([], vertexCount)) as Hrun.
  { rewrite create_graph_run by lia. by rewrite Hnone. }
  split; [done|]. unfold spanning_tree. rewrite Hrun. done.
Qed.

Lemma spanning_tree_no_edges_witness :
  create_graph [2; 0; 0; 7; 0]%Z [] = Done ([], 2) ∧
  spanning_tree 5 [2; 0; 0; 7; 0]%Z = OutOfBounds.
Proof.
  apply (spanning_tree_no_edges 2 [0; 0; 7; 0]%Z 5); [done | simpl; lia | int_tokens |].
  intros [|[|row]] [|[|col]] Hrc Hc; first [reflexivity | exfalso; lia].
Defined.

(** ** spanning_tree: the order in which the tree grows *)

Lemma grown_snoc st e x y :
  length (vT st) = S (length (T st)) → grown st → joins e x y → y ∈ vT st →
  grown (mkPrim (vT st ++ [x]) (T st ++ [e]) (wrap_int (totalWeight st + getW e))).
Proof.
  intros Hlen Hg Hj Hy i g. unfold grown. cbn [vT T].
  destruct (decide (i < length (T st))) as [Hi|Hi].
  - rewrite lookup_app_l by done. intros Hl.
    destruct (Hg i g Hl) as (x' & y' & Hx' & Hj' & Hy').
    exists x', y'. rewrite lookup_app_l by lia. rewrite take_app_le by lia. done.
  - intros Hl. pose proof (lookup_lt_Some _ _ _ Hl) as Hlt.
    rewrite length_app in Hlt. simpl in Hlt.
    assert (i = length (T st)) as -> by lia.
    rewrite list_lookup_middle in Hl by done. injection Hl as <-.
    exists x, y. rewrite <-Hlen. split; [by rewrite list_lookup_middle|]. split; [done|].
    rewrite take_app_le by lia. by rewrite firstn_all.
Qed.

Section prim_growth.
Context (G : list WeightedEdge) (vertexCount : nat).
Hypothesis Hends :
  ∀ e, e ∈ G → is_vertex vertexCount (getU e) ∧ is_vertex vertexCount (getV e).
Hypothesis Hconn : connected_graph vertexCount G.
Hypothesis Hlight : ∀ e, e ∈ G → (getW e < INT_MAX)%Z.
Hypothesis Hcount : 2 ≤ vertexCount.
Hypothesis Huint : (Z.of_nat vertexCount < 4294967296)%Z.

Lemma prim_loop_grows k :
  ∀ st, prim_inv G vertexCount st → grown st → length (T st) + S k = vertexCount - 1 →
  ∃ st', (∀ fuel, S k ≤ fuel → prim_loop fuel G vertexCount st = Done st') ∧
         prim_inv G vertexCount st' ∧ grown st' ∧ length (T st') = vertexCount - 1.
Proof using Hends Hconn Hlight Hcount Huint.
  induction k as [|k IH]; intros st Hinv Hg Hlen;
    pose proof Hinv as (_ & _ & HvT & _);
    destruct (prim_body_inv G vertexCount Hends Hconn Hlight st Hinv)
      as (i & e & x & y & _ & _ & _ & Hj & _ & Hy & Hbody & Hinv'); try lia;
    pose proof (grown_snoc st e x y HvT Hg Hj Hy) as Hg'.
  - eexists. split; [|split; [exact Hinv'|split; [exact Hg'|]]].
    + intros [|fuel] Hfuel; [lia|]. cbn [prim_loop]. rewrite Hbody, bind_Done.
      rewrite bool_decide_eq_false_2; [reflexivity|].
      cbn [T]. rewrite length_app, uint_pred_small by lia. simpl. lia.
    + cbn [T]. rewrite length_app. simpl. lia.
  - destruct (IH _ Hinv' Hg') as (st' & Hrun & Hinv'' & Hg'' & Hlen').
    { cbn [T]. rewrite length_app. simpl. lia. }
    exists st'. split; [|done]. intros [|fuel] Hfuel; [lia|].
    cbn [prim_loop]. rewrite Hbody, bind_Done.
    rewrite bool_decide_eq_true_2; [apply Hrun; lia|].
    cbn [T]. rewrite length_app, uint_pred_small by lia. simpl. lia.
Qed.

End prim_growth.

(** X10.  On a connected graph of at least two vertices with every weight
    below [INT_MAX], the frontier [vT] ends as an arrangement of all the
    vertices [0 .. V-1], each once, and [T] lists the tree in the order it
    grew: edge [i] joins the vertex [vT[i+1]] to one of [vT[0 .. i]]. *)
Theorem spanning_tree_grows_from_seed inputFile G vertexCount :
  create_graph inputFile [] = Done (G, vertexCount) →
  2 ≤ vertexCount →
  connected_graph vertexCount G →
  (∀ e, e ∈ G → (getW e < INT_MAX)%Z) →
  ∃ st, (∀ fuel, vertexCount - 1 ≤ fuel → spanning_tree fuel inputFile = Done st) ∧
        vT st ≡ₚ Z.of_nat <$> seq 0 vertexCount ∧
        ∀ i e, T st !! i = Some e →
               ∃ x y, vT st !! S i = Some x ∧ joins e x y ∧ y ∈ take (S i) (vT st).
Proof.
  intros Hcreate Hcount Hconn Hlight.
  destruct (create_graph_wf _ _ _ Hcreate) as [Huint Hends].
  destruct (graph_has_edge G vertexCount Hconn Hcount) as [e0 He0].
  destruct (prim_loop_grows G vertexCount Hends Hconn Hlight Hcount Huint
              (vertexCount - 2) (mkPrim [getU e0] [] 0))
    as (st & Hrun & Hinv & Hg & Hlen).
  - by apply (prim_inv_seed G vertexCount Hends).
  - intros i e Hl. done.
  - cbn [T length]. lia.
  - exists st. split; [|split; [|exact Hg]].
    + intros fuel Hfuel. unfold spanning_tree. rewrite Hcreate, bind_Done.
      unfold prim, at_index. rewrite He0, bind_Done. apply Hrun. lia.
    + destruct Hinv as (Hnd & Hvs & HvT & _).
      apply NoDup_Permutation; [done| |].
      * apply NoDup_fmap_2; [apply Nat2Z.inj'|apply NoDup_seq].
      * intros x. split.
        -- intros Hx. apply Hvs in Hx. unfold is_vertex in Hx.
           apply list_elem_of_fmap. exists (Z.to_nat x). split; [lia|].
           apply elem_of_seq. lia.
        -- intros (j & -> & Hj%elem_of_seq)%list_elem_of_fmap.
           apply (all_vertices vertexCount (vT st)); [done|done|lia|].
           unfold is_vertex. lia.
Qed.

Lemma spanning_tree_grows_from_seed_witness :
  ∃ st, (∀ fuel, 2 - 1 ≤ fuel → spanning_tree fuel [2; 0; 5; 5; 0]%Z = Done st) ∧
        vT st ≡ₚ Z.of_nat <$> seq 0 2 ∧
        ∀ i e, T st !! i = Some e →
               ∃ x y, vT st !! S i = Some x ∧ joins e x y ∧ y ∈ take (S i) (vT st).
Proof.
  refine (spanning_tree_grows_from_seed [2; 0; 5; 5; 0]%Z [mkWeightedEdge 1 0 5] 2
            eq_refl (le_n 2) _ _).
  - intros x y Hx Hy.
    assert (∀ z, is_vertex 2 z → connected [mkWeightedEdge 1 0 5] 0 z) as H0.
    { intros z Hz. assert (z = 0 ∨ z = 1)%Z as [->| ->] by (unfold is_vertex in Hz; lia).
      - apply connected_refl.
      - apply (connected_edge _ (mkWeightedEdge 1 0 5)); [repeat constructor|by right]. }
    apply (connected_trans _ x 0 y); [apply connected_sym|]; by apply H0.
  - intros e ->%list_elem_of_singleton. reflexivity.
Defined.

(** ** make_combinations and make_graphs side by side *)

Lemma colex_pred_functional c c1 c2 : colex_pred c c1 → colex_pred c c2 → c1 = c2.
Proof.
  intros (Hl1 & p & x & Hp & Hpx & Hhome & Hp1 & Hlow1 & Hhigh1)
         (Hl2 & q & y & Hq & Hqy & Hhome' & Hq2 & Hlow2 & Hhigh2).
  assert (p = q) as <-.
  { destruct (decide (p = q)) as [|Hne]; [done|]. exfalso.
    destruct (decide (p < q)).
    - rewrite (Hhome' p) in Hp by lia. injection Hp as <-. lia.
    - rewrite (Hhome q) in Hq by lia. injection Hq as <-. lia. }
  assert (x = y) as <- by congruence.
  apply list_eq. intros i.
  destruct (decide (i < p)) as [Hi|Hi]; [by rewrite Hlow1, Hlow2|].
  destruct (decide (i = p)) as [->|Hne]; [by rewrite Hp1, Hq2|].
  rewrite Hhigh1, Hhigh2 by lia. done.
Qed.

Lemma min_combination_no_pred m c : ¬ colex_pred (min_combination m) c.
Proof.
  intros (_ & p & x & Hp & Hpx & _).
  pose proof (lookup_lt_Some _ _ _ Hp) as Hlt. rewrite length_min_combination in Hlt.
  rewrite min_combination_lookup in Hp by done. injection Hp as <-. lia.
Qed.

(** A descent from one array down to the least combination is determined
    by where it starts. *)
Lemma descends_unique m ys :
  ∀ ys' c, descends ys → descends ys' →
           head ys = Some c → head ys' = Some c →
           last ys = Some (min_combination m) → last ys' = Some (min_combination m) →
           ys = ys'.
Proof.
  induction ys as [|y t IH]; intros ys' c Hd Hd' Hh Hh' Hl Hl'; [done|].
  destruct ys' as [|y' t']; [done|]. cbn [head] in Hh, Hh'.
  injection Hh as ->. injection Hh' as ->. f_equal.
  destruct t as [|c1 t1], t' as [|c1' t1'].
  - done.
  - exfalso. injection Hl as ->.
    apply (min_combination_no_pred m c1'). by apply (Hd' 0).
  - exfalso. injection Hl' as ->.
    apply (min_combination_no_pred m c1). by apply (Hd 0).
  - assert (c1' = c1) as ->.
    { apply (colex_pred_functional c); [by apply (Hd' 0)|by apply (Hd 0)]. }
    apply (IH (c1 :: t1') c1); try done; by eapply descends_tail.
Qed.

(** X11.  The two enumerators differ in the test of their first loop
    ([indices[k] != k] against [ordinals[k] > k]), yet on the same [n] and
    [m] they hand out the same arrays in the same order: what
    [make_combinations] prints line by line is what [make_graphs] passes
    to [write_graph] call by call. *)
Theorem make_graphs_follows_make_combinations (VERTEX_COUNT m : Z) :
  (m < triangle_number (VERTEX_COUNT - 1))%Z → (1 ≤ m)%Z →
  ∃ ys fuel0,
    ∀ fuel, fuel0 ≤ fuel →
            make_combinations fuel (triangle_number (VERTEX_COUNT - 1)) m
            = Done (Permu <$> ys) ∧
            make_graphs fuel VERTEX_COUNT m
            = Done (((fun a => Graph a VERTEX_COUNT) <$> ys) ++ [Complete m VERTEX_COUNT]).
Proof.
  intros Hnm Hm.
  destruct (make_combinations_runs _ m Hnm Hm) as (ys & Hrun & Hd & Hh & Hl).
  destruct (make_graphs_runs VERTEX_COUNT m Hnm Hm) as (ys' & Hrun' & Hd' & Hh' & Hl').
  assert (ys' = ys) as -> by (by eapply descends_unique).
  exists ys. eexists. intros fuel Hfuel. split; [by apply Hrun|by apply Hrun'].
Qed.

Lemma make_graphs_follows_make_combinations_witness :
  ∃ ys fuel0,
    ∀ fuel, fuel0 ≤ fuel →
            make_combinations fuel (triangle_number (4 - 1)) 2 = Done (Permu <$> ys) ∧
            make_graphs fuel 4 2 = Done (((fun a => Graph a 4) <$> ys) ++ [Complete 2 4]).
Proof. apply (make_graphs_follows_make_combinations 4 2); [reflexivity|lia]. Defined.

Lemma consecutive_nonneg (k : Z) : (0 ≤ k * (k + 1))%Z.
Proof.
  destruct (decide (0 ≤ k)%Z).
  - apply Z.mul_nonneg_nonneg; lia.
  - apply Z.mul_nonpos_nonpos; lia.
Qed.

Lemma triangle_number_ge_0 (k : Z) : (0 ≤ triangle_number k)%Z.
Proof. unfold triangle_number. apply Z.quot_pos; [apply consecutive_nonneg|done]. Qed.

Lemma max_combination_all (m : nat) : max_combination (Z.of_nat m) m = min_combination m.
Proof.
  unfold max_combination, min_combination. apply list_fmap_ext.
  intros i x _. lia.
Qed.

(** The "choose all" exit of [make_graphs]. *)
Lemma make_graphs_all (fuel : nat) (VERTEX_COUNT : Z) :
  make_graphs fuel VERTEX_COUNT (triangle_number (VERTEX_COUNT - 1))
  = Done [Graph (min_combination (Z.to_nat (triangle_number (VERTEX_COUNT - 1))))
            VERTEX_COUNT].
Proof.
  unfold make_graphs. rewrite bool_decide_eq_false_2 by lia.
  rewrite bool_decide_eq_true_2 by done. rewrite init_indices_max.
  pose proof (triangle_number_ge_0 (VERTEX_COUNT - 1)) as Hge.
  rewrite <-(Z2Nat.id (triangle_number (VERTEX_COUNT - 1))) at 1 by done.
  by rewrite max_combination_all.
Qed.

(** X12.  Asked for as many edges as there are edge slots, [make_graphs]
    takes its "choose all" exit: it calls [write_graph] once, on the
    ordinals [0, 1, ..., EDGE_COUNT-1], and returns without entering the
    loop and without the completion message. *)
Theorem make_graphs_choose_all (fuel : nat) (VERTEX_COUNT : Z) :
  make_graphs fuel VERTEX_COUNT (triangle_number (VERTEX_COUNT - 1))
  = Done [Graph (min_combination (Z.to_nat (triangle_number (VERTEX_COUNT - 1))))
            VERTEX_COUNT].
Proof. apply make_graphs_all. Qed.

(** X13.  A combination count of zero passes the guard of both
    enumerators whenever the input count is positive; the loop then tests
    entry 0 of an array that has no entries. *)
Theorem zero_combination_count_reads_empty_array (fuel : nat) (input_count VERTEX_COUNT : Z) :
  (1 ≤ input_count)%Z → (1 ≤ triangle_number (VERTEX_COUNT - 1))%Z →
  make_combinations (S (S fuel)) input_count 0 = OutOfBounds ∧
  make_graphs (S (S fuel)) VERTEX_COUNT 0 = OutOfBounds.
Proof.
  intros Hn HV. split.
  - unfold make_combinations. rewrite bool_decide_eq_false_2 by lia. done.
  - unfold make_graphs. rewrite bool_decide_eq_false_2 by lia.
    rewrite bool_decide_eq_false_2 by lia. done.
Qed.

Lemma zero_combination_count_reads_empty_array_witness :
  make_combinations 2 1 0 = OutOfBounds ∧ make_graphs 2 2 0 = OutOfBounds.
Proof. apply (zero_combination_count_reads_empty_array 0 1 2); [lia|by vm_compute]. Defined.

(** ** write_graph: the matrix as a function of the array *)

Lemma slot_value_slot n es r c :
  slot_value n es r c
  = if decide (r = c) then 0%Z else Z.b2z (default false (es !! slot_of n r c)).
Proof. reflexivity. Qed.

Lemma slot_of_lt n r c : r < n → c < n → r ≠ c → slot_of n r c < slots_before n n.
Proof.
  intros Hr Hc Hrc. unfold slot_of.
  pose proof (slots_before_mono n (S (r `min` c)) n ltac:(lia)) as Hmono.
  rewrite slots_before_S in Hmono. lia.
Qed.

Lemma slot_of_onto n t i :
  t ≤ n → i < slots_before n t → ∃ r c, c < r ∧ r < n ∧ slot_of n r c = i.
Proof.
  induction t as [|t IH]; intros Ht Hi; [simpl in Hi; lia|].
  rewrite slots_before_S in Hi.
  destruct (decide (i < slots_before n t)) as [Hlt|Hge]; [apply IH; lia|].
  exists (t + 1 + (i - slots_before n t)), t. split; [lia|]. split; [lia|].
  unfold slot_of. replace ((t + 1 + (i - slots_before n t)) `min` t) with t by lia.
  replace ((t + 1 + (i - slots_before n t)) `max` t) with (t + 1 + (i - slots_before n t)) by lia.
  lia.
Qed.

Lemma hits_le indices i : hits indices i ≤ i.
Proof. induction i as [|i IH]; [done|]. cbn [hits]. case_bool_decide; lia. Qed.

Lemma last_nonempty {A} (a : list A) : 1 ≤ length a → ∃ x, last a = Some x.
Proof.
  intros Hlen. rewrite last_lookup. apply lookup_lt_is_Some_2. lia.
Qed.

(** With a tame word behind the array, [k] counts the ordinals passed so
    far through the whole loop. *)
Lemma hits_tame n m a rest EDGES t :
  combination n m a → 1 ≤ m → tame EDGES a rest → t ≤ EDGES →
  cut a t (hits (behind a rest) t).
Proof.
  intros Hc Hm Htame. pose proof Hc as (Hlen & Hinc & Hran).
  induction t as [|t IH]; intros Ht; [by apply (cut_start n m)|].
  specialize (IH ltac:(lia)).
  cbn [hits]. destruct (decide (hits (behind a rest) t < length a)) as [Hlt|Hge].
  { by apply (cut_step n m). }
  destruct IH as (Hk & Hlow & Hhigh).
  assert (hits (behind a rest) t = length a) as Hkm by lia. rewrite Hkm.
  destruct (lookup_lt_is_Some_2 a (length a - 1)) as [x Hx]; [lia|].
  assert (x < Z.of_nat t)%Z by (apply (Hlow (length a - 1)); [lia|done]).
  assert (behind a rest (length a) = rest 0) as ->.
  { unfold behind. rewrite lookup_ge_None_2 by lia. simpl. by rewrite Nat.sub_diag. }
  rewrite bool_decide_eq_false_2.
  - split; [lia|]. split.
    + intros j y Hj Hy. rewrite Hkm in Hlow. specialize (Hlow j y Hj Hy). lia.
    + intros j y Hj Hy. apply lookup_lt_Some in Hy. lia.
  - intros Heq. apply (Htame x t); [|done|lia|done]. rewrite last_lookup.
    by replace (Nat.pred (length a)) with (length a - 1) by lia.
Qed.

(** The test of the [edgeSet] loop, read on the array. *)
Lemma hit_member n m a rest EDGES i :
  combination n m a → 1 ≤ m → tame EDGES a rest → i < EDGES →
  bool_decide (Z.of_nat i = behind a rest (hits (behind a rest) i))
  = bool_decide (Z.of_nat i ∈ a).
Proof.
  intros Hc Hm Htame Hi. pose proof Hc as (Hlen & Hinc & Hran).
  destruct (hits_tame n m a rest EDGES i Hc Hm Htame ltac:(lia)) as (Hk & Hlow & Hhigh).
  set (k := hits (behind a rest) i) in *.
  apply bool_decide_ext.
  destruct (decide (k < length a)) as [Hlt|Hge].
  - destruct (lookup_lt_is_Some_2 a k Hlt) as [y Hy].
    assert (behind a rest k = y) as -> by (unfold behind; by rewrite Hy).
    split.
    + intros ->. by apply list_elem_of_lookup_2 in Hy.
    + intros (j & Hj)%list_elem_of_lookup_1.
      destruct (decide (j < k)) as [Hjk|Hjk].
      { specialize (Hlow j _ Hjk Hj). lia. }
      destruct (decide (j = k)) as [->|Hne]; [congruence|].
      pose proof (Hinc k j y (Z.of_nat i) ltac:(lia) Hy Hj).
      pose proof (Hhigh k y (le_n k) Hy). lia.
  - assert (k = length a) as Hkm by lia.
    destruct (lookup_lt_is_Some_2 a (length a - 1)) as [x Hx]; [lia|].
    assert (x < Z.of_nat i)%Z by (apply (Hlow (length a - 1)); [lia|done]).
    assert (behind a rest k = rest 0) as ->.
    { unfold behind. rewrite lookup_ge_None_2 by lia. simpl. by rewrite Hkm, Nat.sub_diag. }
    split.
    + intros Heq. exfalso. apply (Htame x i); [|done..]. rewrite last_lookup.
      by replace (Nat.pred (length a)) with (length a - 1) by lia.
    + intros (j & Hj)%list_elem_of_lookup_1.
      pose proof (lookup_lt_Some _ _ _ Hj).
      specialize (Hlow j _ ltac:(lia) Hj). lia.
Qed.

Lemma hits_tame_end (n : nat) m a rest :
  combination (Z.of_nat n) m a → 1 ≤ m → tame n a rest → hits (behind a rest) n = m.
Proof.
  intros Hc Hm Htame. pose proof Hc as (Hlen & Hinc & Hran).
  destruct (hits_tame (Z.of_nat n) m a rest n n Hc Hm Htame (le_n n)) as (Hk & Hlow & Hhigh).
  destruct (decide (hits (behind a rest) n = m)) as [|Hne]; [done|]. exfalso.
  destruct (lookup_lt_is_Some_2 a (hits (behind a rest) n)) as [x Hx]; [lia|].
  specialize (Hhigh _ x (le_n _) Hx). specialize (Hran _ x Hx). lia.
Qed.

(** The whole of a run of [write_graph]. *)
Lemma write_graph_result (indices : nat → Z) (VERTEX : Z) :
  (0 ≤ VERTEX)%Z →
  ∃ es M,
    write_graph indices VERTEX
    = Done (mkWritten (hits indices <$> seq 0 (Z.to_nat (triangle_number (VERTEX - 1))))
              es M (lines_of (Z.to_nat VERTEX) es)) ∧
    Z.to_nat (triangle_number (VERTEX - 1)) = slots_before (Z.to_nat VERTEX) (Z.to_nat VERTEX) ∧
    length es = Z.to_nat (triangle_number (VERTEX - 1)) ∧
    (∀ i, i < Z.to_nat (triangle_number (VERTEX - 1)) →
          es !! i = Some (bool_decide (Z.of_nat i = indices (hits indices i)))) ∧
    count_true es = hits indices (Z.to_nat (triangle_number (VERTEX - 1))) ∧
    filling (Z.to_nat VERTEX) es (Z.to_nat VERTEX) 0 M.
Proof.
  intros Hv.
  set (n := Z.to_nat VERTEX). set (E := Z.to_nat (triangle_number (VERTEX - 1))).
  assert (E = slots_before n n) as HE.
  { unfold E, n. rewrite <-(Z2Nat.id VERTEX) at 1 by done. apply triangle_number_slots. }
  destruct (edge_loop_spec indices E E (le_n E)) as (es & Hrun & Hlen & Hes & _ & Hcount).
  destruct (write_loop_spec n es) with (t := n) as (M & Hwrite & Hfill); [lia|done|].
  exists es, M. split; [|done].
  unfold write_graph. fold E n. rewrite Hrun, bind_Done, Hwrite, bind_Done. done.
Qed.

Lemma lines_of_bits n es : bit_lines n (lines_of n es).
Proof.
  split; [unfold lines_of; by rewrite length_fmap, length_seq|].
  intros line (k & -> & _)%list_elem_of_fmap. split; [by rewrite length_fmap, length_seq|].
  intros x (i & -> & _)%list_elem_of_fmap. unfold slot_value.
  destruct (decide (i = k)); [by left|].
  destruct (default false _); [by right|by left].
Qed.

Lemma filling_done n es M r c :
  filling n es n 0 M → cell M r c = cell (lines_of n es) r c.
Proof.
  intros [[Hlen Hrows] Hcells]. rewrite cell_lines_of.
  destruct (decide (r < n ∧ c < n)) as [[Hr Hc]|Hout].
  - rewrite Hcells, slot_value_sym by done. f_equal.
    destruct (decide (filled n 0 r c)) as [_|Hno]; [done|].
    unfold slot_value. rewrite decide_True; [done|].
    destruct (decide (c = r)) as [|Hne]; [done|]. exfalso. apply Hno. unfold filled.
    split; [done|]. left. lia.
  - unfold cell. destruct (M !! r) as [line|] eqn:Hl; [|done]. simpl.
    apply lookup_ge_None_2. rewrite (Hrows r line Hl).
    apply lookup_lt_Some in Hl. lia.
Qed.

(** X14.  Whatever the pointer it is given leads to, [write_graph] on a
    vertex count [V] from 0 to 46341 returns a [V] by [V] matrix of zeros
    and ones,
    symmetric, with a zero diagonal and at most [triangle_number(V-1)]
    ones above it; the lines appended to the file hold the same entries as
    [adjMatrix]. *)
Theorem write_graph_matrix (indices : nat → Z) (VERTEX : Z) :
  (0 ≤ VERTEX ≤ 46341)%Z →
  ∃ w, write_graph indices VERTEX = Done w ∧
       bit_lines (Z.to_nat VERTEX) (lines w) ∧
       symmetric (lines w) ∧ zero_diagonal (lines w) ∧
       ones_above (lines w) ≤ Z.to_nat (triangle_number (VERTEX - 1)) ∧
       ∀ row col, cell (adjMatrix w) row col = cell (lines w) row col.
Proof.
  intros [Hv _].
  destruct (write_graph_result indices VERTEX Hv) as (es & M & Hrun & HE & Hlen & _ & Hcount & Hfill).
  eexists. split; [exact Hrun|]. cbn [lines adjMatrix].
  split; [apply lines_of_bits|]. split; [apply lines_of_symmetric|].
  split; [apply lines_of_zero_diagonal|]. split.
  - rewrite ones_above_lines_of by lia. rewrite Hcount. apply hits_le.
  - intros r c. by apply filling_done.
Qed.

Lemma write_graph_matrix_witness :
  ∃ w, write_graph (behind [1]%Z (fun _ => 2%Z)) 3 = Done w ∧
       bit_lines (Z.to_nat 3) (lines w) ∧
       symmetric (lines w) ∧ zero_diagonal (lines w) ∧
       ones_above (lines w) ≤ Z.to_nat (triangle_number (3 - 1)) ∧
       ∀ row col, cell (adjMatrix w) row col = cell (lines w) row col.
Proof. apply (write_graph_matrix (behind [1]%Z (fun _ => 2%Z)) 3). lia. Defined.

(** With a tame word behind the array, the matrix is the graph of the
    combination. *)
Lemma write_graph_cells (VERTEX : Z) (m : nat) (a : list Z) (rest : nat → Z) :
  (0 ≤ VERTEX)%Z → combination (triangle_number (VERTEX - 1)) m a → 1 ≤ m →
  tame (Z.to_nat (triangle_number (VERTEX - 1))) a rest →
  ∃ w, write_graph (behind a rest) VERTEX = Done w ∧
       (∀ row col, row < Z.to_nat VERTEX → col < Z.to_nat VERTEX →
                   cell (lines w) row col
                   = Some (if decide (row ≠ col ∧
                                      Z.of_nat (slot_of (Z.to_nat VERTEX) row col) ∈ a)
                           then 1%Z else 0%Z)) ∧
       ones_above (lines w) = m.
Proof.
  intros Hv Hc Hm Htame.
  destruct (write_graph_result (behind a rest) VERTEX Hv)
    as (es & M & Hrun & HE & Hlen & Hes & Hcount & Hfill).
  set (n := Z.to_nat VERTEX) in *. set (E := Z.to_nat (triangle_number (VERTEX - 1))) in *.
  pose proof (triangle_number_nonneg VERTEX Hv) as Hge.
  assert (combination (Z.of_nat E) m a) as Hc' by (unfold E; by rewrite Z2Nat.id).
  eexists. split; [exact Hrun|]. cbn [lines]. split.
  - intros r c Hr Hcn. rewrite cell_lines_of, decide_True by done. f_equal.
    rewrite slot_value_sym, slot_value_slot.
    destruct (decide (r = c)) as [->|Hne].
    { rewrite decide_False; [done|]. intros [? _]. done. }
    pose proof (slot_of_lt n r c Hr Hcn Hne) as Hslot. rewrite <-HE in Hslot.
    rewrite (Hes _ Hslot). cbn [default].
    rewrite (hit_member (Z.of_nat E) m a rest E) by done.
    destruct (decide (Z.of_nat (slot_of n r c) ∈ a)) as [Hin|Hout].
    + rewrite bool_decide_eq_true_2, decide_True by done. done.
    + rewrite bool_decide_eq_false_2 by done. rewrite decide_False; [done|].
      intros [_ ?]. done.
  - rewrite ones_above_lines_of by lia. rewrite Hcount.
    by apply hits_tame_end.
Qed.

(** X15.  For a vertex count from 0 to 46341, when the word behind the
    array is tame, the matrix written is the graph of the combination: the entry at [row], [col] is 1 exactly
    when the two differ and the ordinal of their edge slot is in the
    array, so there are exactly [m] ones above the diagonal. *)
Theorem write_graph_places_edges (VERTEX : Z) (m : nat) (a : list Z) (rest : nat → Z) :
  (0 ≤ VERTEX ≤ 46341)%Z → combination (triangle_number (VERTEX - 1)) m a → 1 ≤ m →
  tame (Z.to_nat (triangle_number (VERTEX - 1))) a rest →
  ∃ w, write_graph (behind a rest) VERTEX = Done w ∧
       (∀ row col, row < Z.to_nat VERTEX → col < Z.to_nat VERTEX →
                   cell (lines w) row col
                   = Some (if decide (row ≠ col ∧
                                      Z.of_nat (slot_of (Z.to_nat VERTEX) row col) ∈ a)
                           then 1%Z else 0%Z)) ∧
       ones_above (lines w) = m.
Proof. intros [Hv _]. by apply write_graph_cells. Qed.

Lemma write_graph_places_edges_witness :
  ∃ w, write_graph (behind [1]%Z (fun _ => (-1)%Z)) 3 = Done w ∧
       (∀ row col, row < Z.to_nat 3 → col < Z.to_nat 3 →
                   cell (lines w) row col
                   = Some (if decide (row ≠ col ∧
                                      Z.of_nat (slot_of (Z.to_nat 3) row col) ∈ [1]%Z)
                           then 1%Z else 0%Z)) ∧
       ones_above (lines w) = 1.
Proof.
  apply (write_graph_places_edges 3 1 [1]%Z (fun _ => (-1)%Z)); [lia| |lia|].
  - split; [reflexivity|]. split.
    + intros [|i] [|j] x y Hij Hx Hy; try done. lia.
    + intros [|i] x Hx; [|done]. injection Hx as <-. by vm_compute.
  - intros x i _ _ _. lia.
Defined.

(** X16.  For a vertex count from 0 to 46341, the reads of [indices[k]]
    stay inside the array exactly when the last ordinal is the last edge
    slot; for every other combination
    the loop goes on to read the word behind the array. *)
Theorem write_graph_reads_inside_iff (VERTEX : Z) (m : nat) (a : list Z) (rest : nat → Z) :
  (0 ≤ VERTEX ≤ 46341)%Z → combination (triangle_number (VERTEX - 1)) m a → 1 ≤ m →
  ∃ w, write_graph (behind a rest) VERTEX = Done w ∧
       (Forall (fun k => k < m) (reads w)
        ↔ last a = Some (triangle_number (VERTEX - 1) - 1)%Z).
Proof.
  intros [Hv _] Hc Hm. pose proof Hc as (Hlen & Hinc & Hran).
  destruct (write_graph_result (behind a rest) VERTEX Hv)
    as (es & M & Hrun & HE & _).
  set (E := Z.to_nat (triangle_number (VERTEX - 1))) in *.
  pose proof (triangle_number_nonneg VERTEX Hv) as Hge.
  assert (Z.of_nat E = triangle_number (VERTEX - 1)) as HEz by (unfold E; lia).
  destruct (last_nonempty a ltac:(lia)) as [x Hx].
  assert (0 ≤ x < triangle_number (VERTEX - 1))%Z as Hxr.
  { rewrite last_lookup in Hx. by apply Hran in Hx. }
  eexists. split; [exact Hrun|]. cbn [reads]. split.
  - intros Hall. rewrite Hx. f_equal.
    destruct (decide (x + 1 < triangle_number (VERTEX - 1))%Z) as [Hroom|]; [|lia].
    exfalso.
    destruct (edge_loop_reads_past_end _ m a rest x E Hc Hx ltac:(lia)) as (_ & _ & _ & Hin).
    rewrite Forall_forall in Hall. apply Hall in Hin. lia.
  - intros Htop. rewrite Hx in Htop. injection Htop as ->.
    apply Forall_forall. intros k (i & -> & Hi%elem_of_seq)%list_elem_of_fmap.
    destruct (hits_cut _ m a rest i Hc Hm) as (Hk & Hlow & _).
    { intros y Hy. rewrite Hx in Hy. injection Hy as <-. lia. }
    destruct (decide (hits (behind a rest) i < m)) as [|Hge']; [done|]. exfalso.
    rewrite last_lookup in Hx.
    specialize (Hlow (Nat.pred (length a)) _ ltac:(lia) Hx). lia.
Qed.

Lemma write_graph_reads_inside_iff_witness :
  ∃ w, write_graph (behind [0; 2]%Z (fun _ => 7%Z)) 3 = Done w ∧
       (Forall (fun k => k < 2) (reads w)
        ↔ last [0; 2]%Z = Some (triangle_number (3 - 1) - 1)%Z).
Proof.
  apply (write_graph_reads_inside_iff 3 2 [0; 2]%Z (fun _ => 7%Z)); [lia| |lia].
  split; [reflexivity|]. split.
  - intros [|[|i]] [|[|j]] x y Hij Hx Hy; try done; try lia.
    injection Hx as <-. injection Hy as <-. lia.
  - intros [|[|i]] x Hx; [| |done]; injection Hx as <-; by vm_compute.
Defined.

(** X17.  For a vertex count from 0 to 46341 and with tame words behind
    them, two different combinations of the same size never give the same
    matrix: the array can be read back from
    the lines written. *)
Theorem write_graph_distinct (VERTEX : Z) (m : nat) (a a' : list Z) (rest rest' : nat → Z) :
  (0 ≤ VERTEX ≤ 46341)%Z → 1 ≤ m →
  combination (triangle_number (VERTEX - 1)) m a →
  combination (triangle_number (VERTEX - 1)) m a' →
  tame (Z.to_nat (triangle_number (VERTEX - 1))) a rest →
  tame (Z.to_nat (triangle_number (VERTEX - 1))) a' rest' →
  ∃ w w', write_graph (behind a rest) VERTEX = Done w ∧
          write_graph (behind a' rest') VERTEX = Done w' ∧
          (lines w = lines w' → a = a').
Proof.
  intros [Hv _] Hm Hc Hc' Htame Htame'.
  destruct (write_graph_cells VERTEX m a rest Hv Hc Hm Htame) as (w & Hrun & Hcells & _).
  destruct (write_graph_cells VERTEX m a' rest' Hv Hc' Hm Htame') as (w' & Hrun' & Hcells' & _).
  exists w, w'. split; [done|]. split; [done|]. intros Hsame.
  apply (combination_ext (triangle_number (VERTEX - 1)) m); [done..|].
  pose proof (triangle_number_nonneg VERTEX Hv) as Hge.
  assert (∀ (b b' : list Z) (x : Z), combination (triangle_number (VERTEX - 1)) m b →
                    (∀ row col, row < Z.to_nat VERTEX → col < Z.to_nat VERTEX →
                       (row ≠ col ∧ Z.of_nat (slot_of (Z.to_nat VERTEX) row col) ∈ b) →
                       (row ≠ col ∧ Z.of_nat (slot_of (Z.to_nat VERTEX) row col) ∈ b')) →
                    x ∈ b → x ∈ b') as Hinc.
  { intros b b' x (_ & _ & Hran) Himp (j & Hj)%list_elem_of_lookup_1.
    pose proof (Hran j x Hj) as Hx.
    destruct (slot_of_onto (Z.to_nat VERTEX) (Z.to_nat VERTEX) (Z.to_nat x)) as (r & c & Hcr & Hr & Hs).
    - done.
    - rewrite <-triangle_number_slots. rewrite Z2Nat.id by done. lia.
    - destruct (Himp r c) as [_ Hin]; [lia|lia| |].
      + split; [lia|]. rewrite Hs, Z2Nat.id by lia. by apply list_elem_of_lookup_2 in Hj.
      + by rewrite Hs, Z2Nat.id in Hin by lia. }
  intros x. split; apply Hinc; try done.
  - intros r c Hr Hcn Hin.
    pose proof (Hcells r c Hr Hcn) as H1. rewrite Hsame, (Hcells' r c Hr Hcn) in H1.
    repeat case_decide; first [done|discriminate].
  - intros r c Hr Hcn Hin.
    pose proof (Hcells r c Hr Hcn) as H1. rewrite Hsame, (Hcells' r c Hr Hcn) in H1.
    repeat case_decide; first [done|discriminate].
Qed.

Lemma write_graph_distinct_witness :
  ∃ w w', write_graph (behind [1]%Z (fun _ => (-1)%Z)) 3 = Done w ∧
          write_graph (behind [2]%Z (fun _ => (-1)%Z)) 3 = Done w' ∧
          (lines w = lines w' → [1]%Z = [2]%Z).
Proof.
  apply (write_graph_distinct 3 1 [1]%Z [2]%Z (fun _ => (-1)%Z) (fun _ => (-1)%Z));
    [lia | lia | | | intros x i _ _ _; lia | intros x i _ _ _; lia].
  - split; [reflexivity|]. split.
    + intros [|i] [|j] x y Hij Hx Hy; try done. lia.
    + intros [|i] x Hx; [|done]. injection Hx as <-. by vm_compute.
  - split; [reflexivity|]. split.
    + intros [|i] [|j] x y Hij Hx Hy; try done. lia.
    + intros [|i] x Hx; [|done]. injection Hx as <-. by vm_compute.
Defined.

(** ** Binomial coefficients along a row *)

Lemma binomial_0 n : binomial n 0 = 1.
Proof. by destruct n. Qed.

Lemma binomial_above n : ∀ m, n < m → binomial n m = 0.
Proof.
  induction n as [|n IH]; intros [|m] H; try lia; [done|].
  cbn [binomial]. rewrite !IH by lia. done.
Qed.

Lemma binomial_diag n : binomial n n = 1.
Proof.
  induction n as [|n IH]; [done|]. cbn [binomial]. rewrite IH, binomial_above by lia. done.
Qed.

Lemma sum_list_snoc l x : sum_list (l ++ [x]) = sum_list l + x.
Proof. induction l as [|y l IH]; simpl; lia. Qed.

Lemma sum_seq_S (f : nat → nat) from k :
  sum_list (f <$> seq from (S k)) = sum_list (f <$> seq from k) + f (from + k).
Proof.
  rewrite seq_S, fmap_app. change (f <$> [from + k]) with [f (from + k)].
  apply sum_list_snoc.
Qed.

Lemma binomial_pascal_sum n k :
  sum_list (binomial (S n) <$> seq 0 (S k))
  = sum_list (binomial n <$> seq 0 (S k)) + sum_list (binomial n <$> seq 0 k).
Proof.
  induction k as [|k IH]; [cbn; rewrite binomial_0; lia|].
  rewrite (sum_seq_S _ 0 (S k)), IH.
  rewrite (sum_seq_S (binomial n) 0 (S k)), (sum_seq_S (binomial n) 0 k).
  cbn [Nat.add binomial]. lia.
Qed.

Lemma binomial_row_sum n : sum_list (binomial n <$> seq 0 (S n)) = 2 ^ n.
Proof.
  induction n as [|n IH]; [done|].
  rewrite binomial_pascal_sum, (sum_seq_S _ 0 (S n)).
  cbn [Nat.add]. rewrite binomial_above by lia.
  rewrite IH, Nat.pow_succ_r'. lia.
Qed.

Lemma binomial_choices n : sum_list (binomial n <$> seq 1 n) = 2 ^ n - 1.
Proof.
  pose proof (binomial_row_sum n) as H. cbn [seq fmap list_fmap sum_list] in H.
  destruct n; simpl in *; lia.
Qed.

(** ** What make_graphs writes for one edge count *)

Lemma combination_full (m : nat) c : combination (Z.of_nat m) m c → c = min_combination m.
Proof.
  intros Hc. pose proof Hc as (Hlen & _). apply all_home_min; [done|].
  intros i Hi. destruct (lookup_lt_is_Some_2 c i) as [x Hx]; [lia|].
  pose proof (combination_lower _ _ _ _ _ Hc Hx).
  pose proof (combination_upper _ _ _ _ _ Hc Hx).
  rewrite Hx. f_equal. lia.
Qed.

Lemma combination_length_le n m c : combination n m c → 1 ≤ m → (Z.of_nat m ≤ n)%Z.
Proof.
  intros Hc Hm. pose proof Hc as (Hlen & _ & Hran).
  destruct (lookup_lt_is_Some_2 c (m - 1)) as [x Hx]; [lia|].
  pose proof (combination_lower _ _ _ _ _ Hc Hx). specialize (Hran _ _ Hx). lia.
Qed.

Lemma writes_app l1 l2 : writes (l1 ++ l2) = writes l1 ++ writes l2.
Proof. apply omap_app. Qed.

Lemma writes_graphs (v : Z) ys :
  writes ((fun a => Graph a v) <$> ys) = (fun a => (a, v)) <$> ys.
Proof. induction ys as [|y ys IH]; [done|]. cbn. by rewrite <-IH. Qed.

Lemma StronglySorted_pairwise {A} (R : relation A) (l : list A) :
  (∀ i j x y, i < j → l !! i = Some x → l !! j = Some y → R x y) → StronglySorted R l.
Proof.
  induction l as [|a l IH]; intros H; constructor.
  - apply IH. intros i j x y Hij Hx Hy. by apply (H (S i) (S j)); [lia|..].
  - apply Forall_forall. intros y (j & Hj)%list_elem_of_lookup_1.
    by apply (H 0 (S j)); [lia|..].
Qed.

Lemma StronglySorted_lookup {A} (R : relation A) (l : list A) :
  StronglySorted R l →
  ∀ i j x y, i < j → l !! i = Some x → l !! j = Some y → R x y.
Proof.
  induction 1 as [|a l _ IH Hall]; intros i j x y Hij Hx Hy; [done|].
  destruct j as [|j]; [lia|]. destruct i as [|i].
  - injection Hx as <-. rewrite Forall_forall in Hall.
    by apply Hall, list_elem_of_lookup_2 with j.
  - by apply (IH i j); [lia|..].
Qed.

Lemma make_graphs_block (v e : nat) :
  1 ≤ e → (Z.of_nat e ≤ triangle_number (Z.of_nat v - 1))%Z →
  ∃ ys tl fuel0,
    (∀ fuel, fuel0 ≤ fuel →
             make_graphs fuel (Z.of_nat v) (Z.of_nat e)
             = Done (((fun a => Graph a (Z.of_nat v)) <$> ys) ++ tl)) ∧
    enumerates (triangle_number (Z.of_nat v - 1)) e ys ∧
    (∀ i j c c', i < j → ys !! i = Some c → ys !! j = Some c' → colex_lt c' c) ∧
    writes tl = [] ∧ ¬ ErrorCount ∈ tl.
Proof.
  intros He Hle. set (E := triangle_number (Z.of_nat v - 1)) in *.
  destruct (decide (Z.of_nat e = E)) as [Heq|Hne].
  - exists [min_combination e], [], 0. split; [|split; [|split; [|split]]].
    + intros fuel _. rewrite Heq. unfold E. rewrite make_graphs_all.
      fold E. rewrite <-Heq, Nat2Z.id. done.
    + rewrite <-Heq. split; [|split; [|split]].
      * rewrite Nat2Z.id, binomial_diag. done.
      * intros c ->%list_elem_of_singleton. apply min_combination_valid. lia.
      * apply NoDup_singleton.
      * intros c Hc. apply list_elem_of_singleton. by apply combination_full.
    + intros i [|j] c c' Hij Hi Hj; [lia|done].
    + done.
    + intros H. by apply elem_of_nil in H.
  - destruct (make_graphs_runs (Z.of_nat v) (Z.of_nat e)) as (ys & Hrun & Htr); [lia|lia|].
    fold E in Hrun, Htr. rewrite Nat2Z.id in Htr.
    destruct (tracing_enumerates E e ys) as [Henum (_ & _ & Hdown)]; [done|lia|done|].
    exists ys, [Complete (Z.of_nat e) (Z.of_nat v)]. eexists.
    split; [exact Hrun|]. split; [done|]. split; [done|]. split.
    + done.
    + intros H%list_elem_of_singleton. discriminate.
Qed.

(** ** The loops of graph_generation *)

Lemma elem_of_writes c v out : (c, v) ∈ writes out ↔ Graph c v ∈ out.
Proof.
  unfold writes. rewrite list_elem_of_omap. split.
  - intros (o & Ho & Heq). destruct o; try discriminate. by injection Heq as -> ->.
  - intros H. by exists (Graph c v).
Qed.

Lemma generation_edges_run (v t : nat) :
  (Z.of_nat t ≤ triangle_number (Z.of_nat v - 1))%Z →
  ∃ new fuel0,
    (∀ fuel out, fuel0 ≤ fuel →
                 for_range 1 t (generation_edges fuel v) out = Done (out ++ new)) ∧
    edge_counts_done v t new.
Proof.
  set (E := triangle_number (Z.of_nat v - 1)).
  induction t as [|t IH]; intros Ht.
  - exists [], 0. split.
    + intros fuel out _. by rewrite for_range_0, app_nil_r.
    + split; [intros H; by apply elem_of_nil in H|]. split; [constructor|].
      split; [apply NoDup_nil_2|].
      split; [|done]. intros c v'. split.
      * intros H. by apply elem_of_nil in H.
      * intros (_ & ? & _). lia.
  - destruct IH as (new & fuel0 & Hrun & Hno & Hsorted & Hnd & Hiff & Hlen); [lia|].
    destruct (make_graphs_block v (S t))
      as (ys & tl & fuel1 & Hblock & Henum & Hdown & Htl & Htl'); [lia|done|].
    fold E in Henum.
    destruct Henum as (Hylen & Hyc & Hynd & Hyall).
    exists (new ++ ((fun a => Graph a (Z.of_nat v)) <$> ys) ++ tl), (fuel0 `max` fuel1).
    split; [|split; [|split; [|split; [|split]]]].
    + intros fuel out Hfuel. rewrite for_range_snoc, Hrun, bind_Done by lia.
      unfold generation_edges. cbn [Nat.add]. rewrite Hblock by lia.
      rewrite bind_Done. by rewrite <-app_assoc.
    + rewrite !elem_of_app. intros [H|[H|H]]; [done| |done].
      apply list_elem_of_fmap in H as (a & Ha & _). discriminate.
    + rewrite !writes_app, Htl, app_nil_r, writes_graphs.
      apply StronglySorted_app_2; [|done|].
      * intros [c v'] [c' v''] Hin (a & [= -> ->] & Ha)%list_elem_of_fmap.
        apply Hiff in Hin as (-> & Hl & _). destruct (Hyc a Ha) as (Hla & _).
        right. split; [done|]. left. cbn. lia.
      * apply StronglySorted_pairwise. intros i j x y Hij Hx Hy.
        rewrite list_lookup_fmap in Hx, Hy.
        destruct (ys !! i) as [c|] eqn:Hc; [|done].
        destruct (ys !! j) as [c'|] eqn:Hc'; [|done].
        injection Hx as <-. injection Hy as <-.
        pose proof (Hdown i j c c' Hij Hc Hc') as Hlt.
        right. split; [done|]. right. split; [|done]. cbn.
        destruct Hlt as [Hl _]. done.
    + rewrite !writes_app, Htl, app_nil_r, writes_graphs.
      apply NoDup_app. split; [done|]. split.
      * intros [c v'] Hin (a & [= -> ->] & Ha)%list_elem_of_fmap.
        apply Hiff in Hin as (_ & Hl & _). destruct (Hyc a Ha) as (Hla & _). lia.
      * apply NoDup_fmap_2; [|done]. intros a a' [= ->]. done.
    + intros c v'. rewrite !writes_app, Htl, app_nil_r, writes_graphs, elem_of_app.
      rewrite Hiff. split.
      * intros [(-> & Hl & Hc)|(a & [= -> ->] & Ha)%list_elem_of_fmap].
        -- split; [done|]. split; [lia|done].
        -- pose proof (Hyc a Ha) as Hc. pose proof Hc as (Hla & _).
           split; [done|]. split; [lia|]. by rewrite Hla.
      * intros (-> & Hl & Hc). destruct (decide (length c ≤ t)) as [Hlt|Hgt].
        -- left. split; [done|]. split; [lia|done].
        -- right. apply list_elem_of_fmap. exists c. split; [done|].
           apply Hyall. by replace (S t) with (length c) by lia.
    + rewrite !writes_app, Htl, app_nil_r, writes_graphs, length_app, length_fmap.
      rewrite Hlen, Hylen, sum_seq_S. done.
Qed.

Lemma generation_vertices_run (s : nat) :
  ∃ out fuel0,
    (∀ fuel, fuel0 ≤ fuel → for_range 2 s (generation_vertices fuel) [] = Done out) ∧
    vertex_counts_done s out.
Proof.
  induction s as [|s IH].
  - exists [], 0. split; [done|].
    split; [intros H; by apply elem_of_nil in H|]. split; [constructor|].
    split; [apply NoDup_nil_2|].
    split; [|done]. intros c v. split.
    + intros H. by apply elem_of_nil in H.
    + intros (? & _). lia.
  - destruct IH as (out & fuel0 & Hrun & Hno & Hsorted & Hnd & Hiff & Hlen).
    pose proof (triangle_number_ge_0 (Z.of_nat (2 + s) - 1)) as Hge.
    destruct (generation_edges_run (2 + s)
                (Z.to_nat (triangle_number (Z.of_nat (2 + s) - 1))))
      as (new & fuel1 & Hedges & Hno' & Hsorted' & Hnd' & Hiff' & Hlen'); [lia|].
    exists (out ++ new), (fuel0 `max` fuel1). split; [|split; [|split; [|split; [|split]]]].
    + intros fuel Hfuel. rewrite for_range_snoc, Hrun, bind_Done by lia.
      unfold generation_vertices. apply Hedges. lia.
    + rewrite elem_of_app. intros [H|H]; done.
    + rewrite writes_app. apply StronglySorted_app_2; [|done|done].
      intros [c v] [c' v'] Hin Hin'. apply Hiff in Hin as (Hv & _).
      apply Hiff' in Hin' as (-> & _). left. cbn. lia.
    + rewrite writes_app. apply NoDup_app. split; [done|]. split; [|done].
      intros [c v] Hin Hin'. apply Hiff in Hin as (Hv & _).
      apply Hiff' in Hin' as (-> & _). lia.
    + intros c v. rewrite writes_app, elem_of_app, Hiff, Hiff'. split.
      * intros [(Hv & Hl & Hc)|(-> & Hl & Hc)].
        -- split; [lia|done].
        -- split; [lia|]. split; [lia|done].
      * intros (Hv & Hl & Hc). destruct (decide (v < 2 + Z.of_nat s)%Z) as [Hlt|Hge'].
        -- left. split; [lia|done].
        -- right. assert (v = Z.of_nat (2 + s)) as -> by lia.
           split; [done|]. split; [|done]. split; [done|].
           pose proof (combination_length_le _ _ _ Hc Hl). lia.
    + rewrite writes_app, length_app, Hlen, Hlen', sum_seq_S.
      rewrite binomial_choices. done.
Qed.

Lemma read_vertex_bound_skips low :
  ∀ fuel n rest n0 prompts,
    Forall (fun x => x ≤ 2)%Z low → (2 < n)%Z → length low < fuel →
    read_vertex_bound fuel (low ++ n :: rest) n0 prompts
    = Done (n, rest, prompts + S (length low)).
Proof.
  induction low as [|x low IH]; intros [|fuel] n rest n0 prompts Hlow Hn Hfuel;
    cbn [length] in Hfuel; try lia.
  - cbn. rewrite bool_decide_eq_true_2 by done. do 2 f_equal. lia.
  - apply Forall_cons in Hlow as [Hx Hlow]. cbn [app read_vertex_bound tail].
    rewrite bool_decide_eq_false_2 by lia. rewrite IH by (done || lia).
    do 2 f_equal. cbn [length]. lia.
Qed.

Lemma read_vertex_bound_starves fuel :
  ∀ cin v prompts,
    (v ≤ 2)%Z → Forall (fun x => x ≤ 2)%Z cin →
    read_vertex_bound fuel cin (Some v) prompts = OutOfFuel.
Proof.
  induction fuel as [|fuel IH]; intros cin v prompts Hv Hcin; [done|].
  destruct cin as [|x cin]; cbn [read_vertex_bound tail].
  - rewrite bool_decide_eq_false_2 by lia. by apply IH.
  - apply Forall_cons in Hcin as [Hx Hcin].
    rewrite bool_decide_eq_false_2 by lia. by apply IH.
Qed.

(** X18.  [graph_generation] asks again for every [int] value up to 2.
    Once a value [n > 2] arrives (with [n <= 46341], so that [triangle_number]
    stays inside [int]), it returns after writing every graph with at
    least one edge on [v] labelled vertices, for every [v] from 2 to [n],
    exactly once: the arrays handed to [write_graph] for [v] are the
    strictly increasing lists of edge slots of every non-zero length.
    That is [2 ^ triangle_number(v-1) - 1] matrices for each [v].  The
    graphs without edges and the graph on one vertex are never written,
    and the error message of [make_graphs] never appears. *)
Theorem graph_generation_writes_every_graph (low : list Z) (n : Z) (rest : list Z) :
  Forall (fun x => x ≤ 2)%Z low → Forall is_int low → (2 < n)%Z → (n ≤ 46341)%Z →
  ∃ out fuel0,
    (∀ fuel, fuel0 ≤ fuel →
             graph_generation fuel (low ++ n :: rest) = Done (S (length low), out)) ∧
    ¬ ErrorCount ∈ out ∧
    NoDup (writes out) ∧
    (∀ c v, (c, v) ∈ writes out ↔
            (2 ≤ v ≤ n)%Z ∧ 1 ≤ length c ∧
            combination (triangle_number (v - 1)) (length c) c) ∧
    length (writes out)
    = sum_list ((fun v => 2 ^ Z.to_nat (triangle_number (Z.of_nat v - 1)) - 1)
                  <$> seq 2 (Z.to_nat (n - 1))).
Proof.
  intros Hlow _ Hn _.
  destruct (generation_vertices_run (Z.to_nat (n - 1)))
    as (out & fuel0 & Hrun & Hno & _ & Hnd & Hiff & Hlen).
  exists out, (fuel0 `max` S (length low)).
  split; [|split; [done|split; [done|split; [|done]]]].
  - intros fuel Hfuel. unfold graph_generation.
    rewrite read_vertex_bound_skips by (done || lia). rewrite bind_Done.
    rewrite Hrun by lia. done.
  - intros c v. rewrite Hiff. split; intros (Hv & Hrest); (split; [lia|done]).
Qed.

Lemma graph_generation_writes_every_graph_witness :
  ∃ out fuel0,
    (∀ fuel, fuel0 ≤ fuel →
             graph_generation fuel ([0; 2] ++ 3 :: [9])%Z = Done (S (length [0; 2]%Z), out)) ∧
    ¬ ErrorCount ∈ out ∧
    NoDup (writes out) ∧
    (∀ c v, (c, v) ∈ writes out ↔
            (2 ≤ v ≤ 3)%Z ∧ 1 ≤ length c ∧
            combination (triangle_number (v - 1)) (length c) c) ∧
    length (writes out)
    = sum_list ((fun v => 2 ^ Z.to_nat (triangle_number (Z.of_nat v - 1)) - 1)
                  <$> seq 2 (Z.to_nat (3 - 1))).
Proof.
  apply (graph_generation_writes_every_graph [0; 2]%Z 3 [9]%Z);
    [|int_tokens|lia|lia].
  repeat constructor; lia.
Defined.

(** X19.  Once an [int] value [n] from 3 to 46341 has arrived after
    [int] values up to 2, the output file is ordered: the matrices come by
    increasing vertex count, for one vertex count by increasing number of edges, and
    for one number of edges down the colexicographic order of their
    arrays. *)
Theorem graph_generation_file_order (low : list Z) (n : Z) (rest : list Z) :
  Forall (fun x => x ≤ 2)%Z low → Forall is_int low → (2 < n)%Z → (n ≤ 46341)%Z →
  ∃ out fuel0,
    (∀ fuel, fuel0 ≤ fuel →
             graph_generation fuel (low ++ n :: rest) = Done (S (length low), out)) ∧
    ∀ i j c v c' v',
      i < j → writes out !! i = Some (c, v) → writes out !! j = Some (c', v') →
      (v < v')%Z ∨
      (v = v' ∧ (length c < length c' ∨ (length c = length c' ∧ colex_lt c' c))).
Proof.
  intros Hlow _ Hn _.
  destruct (generation_vertices_run (Z.to_nat (n - 1)))
    as (out & fuel0 & Hrun & _ & Hsorted & _).
  exists out, (fuel0 `max` S (length low)). split.
  - intros fuel Hfuel. unfold graph_generation.
    rewrite read_vertex_bound_skips by (done || lia). rewrite bind_Done.
    rewrite Hrun by lia. done.
  - intros i j c v c' v' Hij Hi Hj.
    apply (StronglySorted_lookup file_order _ Hsorted i j (c, v) (c', v') Hij Hi Hj).
Qed.

Lemma graph_generation_file_order_witness :
  ∃ out fuel0,
    (∀ fuel, fuel0 ≤ fuel →
             graph_generation fuel ([0; 2] ++ 3 :: [9])%Z = Done (S (length [0; 2]%Z), out)) ∧
    ∀ i j c v c' v',
      i < j → writes out !! i = Some (c, v) → writes out !! j = Some (c', v') →
      (v < v')%Z ∨
      (v = v' ∧ (length c < length c' ∨ (length c = length c' ∧ colex_lt c' c))).
Proof.
  apply (graph_generation_file_order [0; 2]%Z 3 [9]%Z); [|int_tokens|lia|lia].
  repeat constructor; lia.
Defined.

(** X20.  When the input holds values but none above 2, the first loop of
    [graph_generation] never ends: after the last value every read fails,
    [n] keeps what it held, and the prompt is printed again and again. *)
Theorem graph_generation_never_returns (x : Z) (cin : list Z) (fuel : nat) :
  Forall (fun y => y ≤ 2)%Z (x :: cin) →
  graph_generation fuel (x :: cin) = OutOfFuel.
Proof.
  intros [Hx Hcin]%Forall_cons. unfold graph_generation.
  destruct fuel as [|fuel]; [done|]. cbn [read_vertex_bound tail].
  rewrite bool_decide_eq_false_2 by lia.
  by rewrite read_vertex_bound_starves.
Qed.

Lemma graph_generation_never_returns_witness :
  graph_generation 1000 [2; 1; -5]%Z = OutOfFuel.
Proof.
  apply (graph_generation_never_returns 2 [1; -5]%Z 1000). repeat constructor; lia.
Defined.

(** ** launch_menu *)

Lemma valid_choice_spec c : valid_choice c = true ↔ c = "1"%char ∨ c = "2"%char.
Proof.
  split; [|by intros [-> | ->]].
  destruct c as [[] [] [] [] [] [] [] []]; cbn; intros H; try discriminate; auto.
Qed.

Lemma valid_choice_not_space c : valid_choice c = true → is_space c = false.
Proof. by intros [-> | ->]%valid_choice_spec. Qed.

Lemma menu_loop_skips junk :
  ∀ fuel d rest c prompts,
    Forall (fun x => valid_choice x = false) junk → valid_choice d = true →
    length (visible junk) < fuel →
    menu_loop fuel (junk ++ d :: rest) c prompts
    = Done ((Z.of_nat (nat_of_ascii d) - 48)%Z, rest, prompts + S (length (visible junk))).
Proof.
  assert (∀ junk d rest, Forall (fun x => is_space x = true) junk → is_space d = false →
                         read_char (junk ++ d :: rest) = Some (d, rest)) as Hread.
  { intros l d rest Hl Hd. induction Hl as [|x l Hx _ IH]; cbn; [by rewrite Hd|by rewrite Hx]. }
  induction junk as [|x junk IH]; intros fuel d rest c prompts Hjunk Hd Hfuel.
  - destruct fuel as [|fuel]; [cbn in Hfuel; lia|].
    cbn [app menu_loop read_char]. rewrite (valid_choice_not_space d Hd), Hd.
    cbn. do 2 f_equal. lia.
  - apply Forall_cons in Hjunk as [Hx Hjunk]. unfold visible in *.
    destruct (is_space x) eqn:Hsp.
    + rewrite filter_cons_False in * by (by rewrite Hsp).
      destruct fuel as [|fuel]; [lia|].
      specialize (IH (S fuel) d rest c prompts Hjunk Hd Hfuel).
      cbn [app menu_loop read_char] in *. by rewrite Hsp.
    + rewrite filter_cons_True in * by done. cbn [length] in *.
      destruct fuel as [|fuel]; [lia|].
      cbn [app menu_loop read_char]. rewrite Hsp, Hx.
      rewrite IH by (done || lia). do 2 f_equal. lia.
Qed.

(** X21.  [launch_menu] prints the menu once for every character that is
    not white space up to the first ['1'] or ['2'] of the input, and
    returns 1 or 2 accordingly, leaving what follows that character
    unread: the [switch] of [main] always finds its case. *)
Theorem launch_menu_first_choice (junk : list ascii) (d : ascii) (rest : list ascii) :
  Forall (fun x => valid_choice x = false) junk → valid_choice d = true →
  ∃ choice,
    (∀ fuel, length (visible junk) < fuel →
             launch_menu fuel (junk ++ d :: rest)
             = Done (choice, rest, S (length (visible junk)))) ∧
    ((d = "1"%char ∧ choice = 1%Z) ∨ (d = "2"%char ∧ choice = 2%Z)).
Proof.
  intros Hjunk Hd. exists (Z.of_nat (nat_of_ascii d) - 48)%Z. split.
  - intros fuel Hfuel. unfold launch_menu. by rewrite menu_loop_skips.
  - apply valid_choice_spec in Hd as [-> | ->]; [left|right]; done.
Qed.

Lemma launch_menu_first_choice_witness :
  ∃ choice,
    (∀ fuel, length (visible ["x"; " "; "3"]%char) < fuel →
             launch_menu fuel (["x"; " "; "3"] ++ "2" :: ["1"])%char
             = Done (choice, ["1"%char], S (length (visible ["x"; " "; "3"]%char)))) ∧
    (("2"%char = "1"%char ∧ choice = 1%Z) ∨ ("2"%char = "2"%char ∧ choice = 2%Z)).
Proof.
  apply (launch_menu_first_choice ["x"; " "; "3"]%char "2"%char ["1"%char]);
    [repeat constructor|reflexivity].
Defined.

Lemma menu_loop_starves fuel :
  ∀ cin x prompts,
    valid_choice x = false → Forall (fun y => valid_choice y = false) cin →
    menu_loop fuel cin (Some x) prompts = OutOfFuel.
Proof.
  induction fuel as [|fuel IH]; intros cin x prompts Hx Hcin; [done|].
  cbn [menu_loop]. destruct (read_char cin) as [[y cin']|] eqn:Hread.
  - assert (valid_choice y = false ∧ Forall (fun y => valid_choice y = false) cin') as [Hy Hcin'].
    { clear IH. induction Hcin as [|z cin Hz Hcin IH']; [done|]. cbn in Hread.
      destruct (is_space z); [by apply IH'|]. by injection Hread as <- <-. }
    rewrite Hy. by apply IH.
  - rewrite Hx. apply IH; [done|constructor].
Qed.

(** X22.  When the input holds no ['1'] and no ['2'] but some other
    character that is not white space, [launch_menu] never returns: once
    the input has run dry, [c] keeps the last character read and the menu
    is printed for ever. *)
Theorem launch_menu_never_returns (cin : list ascii) (x : ascii) (fuel : nat) :
  Forall (fun y => valid_choice y = false) cin → x ∈ visible cin →
  launch_menu fuel cin = OutOfFuel.
Proof.
  intros Hcin Hx. unfold launch_menu. destruct fuel as [|fuel]; [done|].
  cbn [menu_loop]. destruct (read_char cin) as [[y cin']|] eqn:Hread.
  - assert (valid_choice y = false ∧ Forall (fun y => valid_choice y = false) cin') as [Hy Hcin'].
    { clear Hx. induction Hcin as [|z cin Hz Hcin IH']; [done|]. cbn in Hread.
      destruct (is_space z); [by apply IH'|]. by injection Hread as <- <-. }
    rewrite Hy. by apply menu_loop_starves.
  - exfalso. unfold visible in Hx. apply list_elem_of_filter in Hx as [Hsp Hin].
    clear Hcin. induction cin as [|z cin IH]; [by apply elem_of_nil in Hin|].
    cbn in Hread. apply elem_of_cons in Hin as [<-|Hin].
    + by rewrite Hsp in Hread.
    + destruct (is_space z); [by apply IH|done].
Qed.

Lemma launch_menu_never_returns_witness :
  launch_menu 1000 ["a"; " "; "3"]%char = OutOfFuel.
Proof.
  apply (launch_menu_never_returns ["a"; " "; "3"]%char "a"%char 1000);
    [repeat constructor|].
  apply list_elem_of_filter. split; [reflexivity|apply list_elem_of_here].
Defined.

(** ** triangle_number *)

Lemma triangle_number_step (k : nat) :
  triangle_number (Z.of_nat (S k)) = (triangle_number (Z.of_nat k) + Z.of_nat (S k))%Z.
Proof.
  unfold triangle_number.
  assert (∃ q, Z.of_nat k * (Z.of_nat k + 1) = 2 * q)%Z as [q Hq].
  { induction k as [|k [q Hq]]; [by exists 0%Z|]. exists (q + Z.of_nat k + 1)%Z. lia. }
  replace (Z.of_nat (S k) * (Z.of_nat (S k) + 1))%Z
    with ((q + Z.of_nat (S k)) * 2)%Z by lia.
  replace (Z.of_nat k * (Z.of_nat k + 1))%Z with (q * 2)%Z by lia.
  rewrite !Z.quot_mul by done. done.
Qed.

(** X23.  For every [k] from 0 to 46340 the product [k * (k+1)] that
    [triangle_number] forms fits an [int], and the value returned is
    [0 + 1 + ... + k]. *)
Theorem triangle_number_sum (k : nat) :
  (Z.of_nat k ≤ 46340)%Z →
  (Z.of_nat k * (Z.of_nat k + 1) ≤ INT_MAX)%Z ∧
  triangle_number (Z.of_nat k) = Z.of_nat (sum_list (seq 0 (S k))).
Proof.
  intros Hk. split.
  - assert (Z.of_nat k * (Z.of_nat k + 1) ≤ 46340 * 46341)%Z; [|unfold INT_MAX; lia].
    apply Z.mul_le_mono_nonneg; lia.
  - clear Hk. induction k as [|k IH]; [done|].
    rewrite triangle_number_step, IH, (seq_S (S k)), sum_list_snoc. lia.
Qed.

Lemma triangle_number_sum_witness :
  (Z.of_nat 4 * (Z.of_nat 4 + 1) ≤ INT_MAX)%Z ∧
  triangle_number (Z.of_nat 4) = Z.of_nat (sum_list (seq 0 (S 4))).
Proof. apply (triangle_number_sum 4). lia. Defined.

(** ** The edge slots and the pairs of vertices *)

Lemma slot_of_column n r c : c < r → r < n →
  slots_before n c ≤ slot_of n r c ∧ slot_of n r c < slots_before n (S c).
Proof.
  intros Hc Hr. unfold slot_of. rewrite slots_before_S.
  replace (r `min` c) with c by lia. replace (r `max` c) with r by lia. lia.
Qed.

Lemma slot_of_sym n r c : slot_of n r c = slot_of n c r.
Proof. unfold slot_of. by rewrite (Nat.min_comm c r), (Nat.max_comm c r). Qed.

(** X24.  For a vertex count up to 46341, [write_graph] takes the two
    entries of a pair of distinct vertices from one entry of [edgeSet], and the entries of [edgeSet] and
    the pairs correspond one to one: every pair has its slot among the
    [triangle_number(V-1)] entries, two different pairs never share one,
    and every entry is the slot of a pair. *)
Theorem edge_slots_are_pairs (V : nat) (indices : nat → Z) :
  (Z.of_nat V ≤ 46341)%Z →
  ∃ w, write_graph indices (Z.of_nat V) = Done w ∧
       length (edgeSet w) = Z.to_nat (triangle_number (Z.of_nat V - 1)) ∧
       (∀ r c, c < r → r < V →
               ∃ b, edgeSet w !! slot_of V r c = Some b ∧
                    cell (lines w) r c = Some (Z.b2z b) ∧
                    cell (lines w) c r = Some (Z.b2z b)) ∧
       (∀ r c r' c', c < r → r < V → c' < r' → r' < V →
                     slot_of V r c = slot_of V r' c' → r = r' ∧ c = c') ∧
       (∀ i, i < length (edgeSet w) → ∃ r c, c < r ∧ r < V ∧ slot_of V r c = i).
Proof.
  intros _.
  destruct (write_graph_result indices (Z.of_nat V) (Nat2Z.is_nonneg V))
    as (es & M & Hrun & HE & Hlen & _).
  rewrite Nat2Z.id in *. eexists. split; [exact Hrun|]. cbn [edgeSet lines].
  split; [done|]. rewrite Hlen, HE. split; [|split].
  - intros r c Hc Hr.
    destruct (lookup_lt_is_Some_2 es (slot_of V r c)) as [b Hb].
    { rewrite Hlen, HE. apply slot_of_lt; lia. }
    exists b. split; [done|].
    rewrite !cell_lines_of, !decide_True by lia. rewrite !slot_value_slot.
    rewrite !decide_False by lia. rewrite (slot_of_sym V c r), Hb. done.
  - intros r c r' c' Hc Hr Hc' Hr' Heq.
    pose proof (slot_of_column V r c Hc Hr) as [Hlo Hhi].
    pose proof (slot_of_column V r' c' Hc' Hr') as [Hlo' Hhi'].
    assert (c = c') as <-.
    { destruct (decide (c = c')) as [|Hne]; [done|]. exfalso.
      destruct (decide (c < c')).
      - pose proof (slots_before_mono V (S c) c' ltac:(lia)). lia.
      - pose proof (slots_before_mono V (S c') c ltac:(lia)). lia. }
    split; [|done]. unfold slot_of in Heq.
    replace (r `min` c) with c in Heq by lia. replace (r `max` c) with r in Heq by lia.
    replace (r' `min` c) with c in Heq by lia. replace (r' `max` c) with r' in Heq by lia.
    lia.
  - intros i Hi. by apply (slot_of_onto V V).
Qed.

Lemma edge_slots_are_pairs_witness :
  ∃ w, write_graph (behind [1]%Z (fun _ => 2%Z)) (Z.of_nat 3) = Done w ∧
       length (edgeSet w) = Z.to_nat (triangle_number (Z.of_nat 3 - 1)) ∧
       (∀ r c, c < r → r < 3 →
               ∃ b, edgeSet w !! slot_of 3 r c = Some b ∧
                    cell (lines w) r c = Some (Z.b2z b) ∧
                    cell (lines w) c r = Some (Z.b2z b)) ∧
       (∀ r c r' c', c < r → r < 3 → c' < r' → r' < 3 →
                     slot_of 3 r c = slot_of 3 r' c' → r = r' ∧ c = c') ∧
       (∀ i, i < length (edgeSet w) → ∃ r c, c < r ∧ r < 3 ∧ slot_of 3 r c = i).
Proof. apply (edge_slots_are_pairs 3 (behind [1]%Z (fun _ => 2%Z))). lia. Defined.

(** ** make_graphs into write_graph: the complete graph *)

Lemma triangle_number_pos (V : Z) : (2 ≤ V)%Z → (1 ≤ triangle_number (V - 1))%Z.
Proof.
  intros HV. unfold triangle_number. apply Z.quot_le_lower_bound; [done|].
  replace (2 * 1)%Z with (1 * 2)%Z by done. apply Z.mul_le_mono_nonneg; lia.
Qed.

Lemma last_min_combination m : 1 ≤ m → last (min_combination m) = Some (Z.of_nat m - 1)%Z.
Proof.
  intros Hm. rewrite last_lookup, length_min_combination, min_combination_lookup by lia.
  f_equal. lia.
Qed.

(** X25.  For a vertex count [V] from 2 to 46341, the array that
    [make_graphs] hands over on its "choose all" exit makes [write_graph]
    write the complete graph on [V] vertices,
    ones everywhere off the diagonal, and every read of [indices[k]] stays
    inside the array, whatever lies behind it. *)
Theorem choose_all_writes_complete_graph (fuel : nat) (VERTEX_COUNT : Z) (rest : nat → Z) :
  (2 ≤ VERTEX_COUNT ≤ 46341)%Z →
  ∃ a w,
    make_graphs fuel VERTEX_COUNT (triangle_number (VERTEX_COUNT - 1))
    = Done [Graph a VERTEX_COUNT] ∧
    write_graph (behind a rest) VERTEX_COUNT = Done w ∧
    Forall (fun k => k < length a) (reads w) ∧
    ∀ row col, row < Z.to_nat VERTEX_COUNT → col < Z.to_nat VERTEX_COUNT →
               cell (lines w) row col = Some (if decide (row = col) then 0%Z else 1%Z).
Proof.
  intros [HV _]. pose proof (triangle_number_pos VERTEX_COUNT HV) as Hpos.
  set (E := Z.to_nat (triangle_number (VERTEX_COUNT - 1))).
  assert (Z.of_nat E = triangle_number (VERTEX_COUNT - 1)) as HE by (unfold E; lia).
  assert (combination (triangle_number (VERTEX_COUNT - 1)) E (min_combination E)) as Hc.
  { apply min_combination_valid. lia. }
  assert (last (min_combination E) = Some (triangle_number (VERTEX_COUNT - 1) - 1)%Z) as Hlast.
  { rewrite last_min_combination by lia. by rewrite HE. }
  destruct (write_graph_cells VERTEX_COUNT E (min_combination E) rest) as (w & Hrun & Hcells & _);
    [lia|done|lia| |].
  { intros x i Hx Hxi Hi. rewrite Hlast in Hx. injection Hx as <-. fold E in Hi. lia. }
  exists (min_combination E), w. split; [apply make_graphs_all|]. split; [done|]. split.
  - destruct (write_graph_result (behind (min_combination E) rest) VERTEX_COUNT)
      as (es & M & Hrun' & _); [lia|].
    rewrite Hrun in Hrun'. injection Hrun' as ->. cbn [reads]. fold E.
    apply Forall_forall. intros k (i & -> & Hi%elem_of_seq)%list_elem_of_fmap.
    rewrite length_min_combination.
    destruct (hits_cut _ E (min_combination E) rest i Hc) as (Hk & Hlow & _); [lia| |].
    { intros y Hy. rewrite Hlast in Hy. injection Hy as <-. lia. }
    destruct (decide (hits (behind (min_combination E) rest) i < E)) as [|Hge]; [done|].
    exfalso. rewrite last_lookup, length_min_combination in Hlast.
    specialize (Hlow (Nat.pred E) _ ltac:(lia) Hlast). lia.
  - intros r c Hr Hcn. rewrite (Hcells r c Hr Hcn). f_equal.
    destruct (decide (r = c)) as [->|Hne].
    + rewrite decide_False; [done|]. intros [? _]. done.
    + rewrite decide_True; [done|]. split; [done|].
      pose proof (slot_of_lt (Z.to_nat VERTEX_COUNT) r c Hr Hcn Hne) as Hslot.
      rewrite <-triangle_number_slots, Z2Nat.id in Hslot by lia. fold E in Hslot.
      unfold min_combination. apply list_elem_of_fmap.
      exists (slot_of (Z.to_nat VERTEX_COUNT) r c). split; [done|].
      apply elem_of_seq. lia.
Qed.

Lemma choose_all_writes_complete_graph_witness :
  ∃ a w,
    make_graphs 0 3 (triangle_number (3 - 1)) = Done [Graph a 3] ∧
    write_graph (behind a (fun _ => 1%Z)) 3 = Done w ∧
    Forall (fun k => k < length a) (reads w) ∧
    ∀ row col, row < Z.to_nat 3 → col < Z.to_nat 3 →
               cell (lines w) row col = Some (if decide (row = col) then 0%Z else 1%Z).
Proof. apply (choose_all_writes_complete_graph 0 3 (fun _ => 1%Z)). lia. Defined.

(** ** min_incident: the weight INT_MAX *)

(** X26.  [minWeight] starts at [INT_MAX] and an edge replaces it only
    when it is strictly lighter, so boundary edges that weigh [INT_MAX]
    are passed over: when every boundary edge weighs that much,
    [min_incident] answers as if there were none, with index 0 and the
    [u] of the first edge of [G] appended to [vT]. *)
Theorem min_incident_passes_over_int_max G vT e0 :
  (∀ e, e ∈ G → boundary vT e → (INT_MAX ≤ getW e)%Z) →
  G !! 0 = Some e0 →
  min_incident G vT = Done (0, vT ++ [getU e0]).
Proof.
  intros Hheavy H0. unfold min_incident, at_index.
  rewrite (min_scan_none G vT Hheavy), H0. done.
Qed.

Lemma min_incident_passes_over_int_max_witness :
  min_incident [mkWeightedEdge 1 0 2147483647; mkWeightedEdge 2 1 7] [0]%Z
  = Done (0, [0]%Z ++ [getU (mkWeightedEdge 1 0 2147483647)]).
Proof.
  apply (min_incident_passes_over_int_max
           [mkWeightedEdge 1 0 2147483647; mkWeightedEdge 2 1 7] [0]%Z
           (mkWeightedEdge 1 0 2147483647)); [|reflexivity].
  intros e [->|[->|He]%elem_of_cons]%elem_of_cons Hb.
  - by vm_compute.
  - exfalso. destruct Hb as [[Hu _]|[_ Hv]].
    + cbn in Hu. apply list_elem_of_singleton in Hu. discriminate.
    + cbn in Hv. apply list_elem_of_singleton in Hv. discriminate.
  - by apply elem_of_nil in He.
Defined.

(** ** make_graphs into write_graph: the last call *)

(** X27.  For a vertex count from 0 to 46341, every run of
    [make_graphs] that enters the loop (fewer edges than edge slots) ends with a call of [write_graph] on the ordinals
    [0 .. EDGE_COUNT-1]; as their last one is not the last slot, that call
    reads [indices[EDGE_COUNT]], the word behind the array. *)
Theorem make_graphs_last_call_reads_behind (VERTEX_COUNT EDGE_COUNT : Z) (rest : nat → Z) :
  (0 ≤ VERTEX_COUNT ≤ 46341)%Z → (1 ≤ EDGE_COUNT)%Z →
  (EDGE_COUNT < triangle_number (VERTEX_COUNT - 1))%Z →
  ∃ ys a w,
    (∃ fuel0, ∀ fuel, fuel0 ≤ fuel →
                      make_graphs fuel VERTEX_COUNT EDGE_COUNT
                      = Done (((fun a => Graph a VERTEX_COUNT) <$> ys)
                              ++ [Complete EDGE_COUNT VERTEX_COUNT])) ∧
    last ys = Some a ∧
    write_graph (behind a rest) VERTEX_COUNT = Done w ∧
    length a = Z.to_nat EDGE_COUNT ∧
    Z.to_nat EDGE_COUNT ∈ reads w.
Proof.
  intros [HV _] Hm Hlt.
  destruct (make_graphs_runs VERTEX_COUNT EDGE_COUNT Hlt Hm) as (ys & Hrun & _ & _ & Hlast).
  set (m := Z.to_nat EDGE_COUNT) in *.
  destruct (write_graph_reads_extent VERTEX_COUNT (triangle_number (VERTEX_COUNT - 1)) m
              (min_combination m) rest (Z.of_nat m - 1)%Z) as (w & Hw & Hin).
  - done.
  - apply min_combination_valid. unfold m. lia.
  - apply last_min_combination. unfold m. lia.
  - unfold m. lia.
  - exists ys, (min_combination m), w. split; [eexists; exact Hrun|].
    split; [done|]. split; [done|]. rewrite length_min_combination in *. done.
Qed.

Lemma make_graphs_last_call_reads_behind_witness :
  ∃ ys a w,
    (∃ fuel0, ∀ fuel, fuel0 ≤ fuel →
                      make_graphs fuel 3 1
                      = Done (((fun a => Graph a 3) <$> ys) ++ [Complete 1 3])) ∧
    last ys = Some a ∧
    write_graph (behind a (fun _ => 0%Z)) 3 = Done w ∧
    length a = Z.to_nat 1 ∧
    Z.to_nat 1 ∈ reads w.
Proof.
  apply (make_graphs_last_call_reads_behind 3 1 (fun _ => 0%Z)); [lia|lia|reflexivity].
Defined.
